(** * LSTM-Temperature-Control: the clocked control loop of [LSTM.ipynb]

    A shallow embedding of the notebook's run-time code: the PID controller
    [pid], the sequence-model controller [lstm], the set point schedule
    generators, the three clocked loops (data collection, Part A and
    Part B) and the cells around them (the arrays they run on, the saved
    training data, the training windows and the quantities derived for the
    performance assessment), together with the properties stated about
    them.

    Numbers.  The notebook computes with IEEE doubles.  The development has
    two levels.  In the first every float is an exact rational ([Q]):
    rounding, infinities and NaN are not represented, and a division whose
    divisor is zero raises [ZeroDivisionError] instead of producing one of
    them; equality of numbers is [Qeq], written [==].  The arithmetic of the
    controller, the schedules, the arrays and the order of events in the
    loops are stated at this level.  In the second (module [Ieee]) the
    numbers are binary64 floats and the collaborators validate their input as
    the libraries do.  What depends on rounding, on NaN, on an infinity or on
    the failure of a collaborator is stated at that level: the anti-reset
    windup, the clamps, the failures of [lstm] and the heater commands of two
    runs of Part A that differ in the model.

    Arrays.  A numpy array of floats is a [list Q] of fixed length, read and
    written through Python's index rules (negative indices count from the end,
    an index out of range raises [IndexError], slices are clipped). *)

From Stdlib Require Import QArith Qabs Lqa ZArith Lia Bool.
From Stdlib Require Floats.
From Equations Require Import Equations.
From stdpp Require Import base list.

Open Scope Q_scope.

(** A decimal literal of a double denotes the nearest double, as in Python. *)
Set Warnings "-inexact-float".

(** ** Python exceptions and fallible computations *)

Inductive pyerror : Type :=
| ZeroDivisionError
| IndexError
| ValueError.

Inductive result (A : Type) : Type :=
| Ok (a : A)
| Raise (e : pyerror).
Arguments Ok {A} a.
Arguments Raise {A} e.

(** Sequencing stops at the first exception: stdpp's [x ← m; k]. *)
#[global] Instance result_bind : MBind result :=
  fun A B (k : A -> result B) (m : result A) =>
    match m with
    | Ok a => k a
    | Raise e => Raise e
    end.

#[global] Instance result_ret : MRet result := fun A a => Ok a.

(** ** Comparisons and the built-ins [min], [max], [np.clip] *)

Definition Qlt_bool (x y : Q) : bool := negb (Qle_bool y x).

(** [min(a, b)]: the first argument unless the second is strictly smaller. *)
Definition py_min (a b : Q) : Q := if Qlt_bool b a then b else a.

(** [max(a, b)]: the first argument unless the second is strictly larger. *)
Definition py_max (a b : Q) : Q := if Qlt_bool a b then b else a.

(** [np.clip(x, lo, hi)] is [minimum(maximum(x, lo), hi)]. *)
Definition np_clip (x lo hi : Q) : Q := py_min (py_max x lo) hi.

(** [x / y] on floats, with the zero divisor signalled. *)
Definition pydiv (x y : Q) : result Q :=
  if Qeq_bool y 0 then Raise ZeroDivisionError else Ok (x / y).

(** ** The PID controller (cell "Program PID controller") *)

Module Pid.

(** [return [op,P,I,D]] *)
Record output : Type := mk_output { op : Q; P : Q; I : Q; D : Q }.

(** The threshold of the guard [dt>=1e-8]. *)
Definition eps : Q := 1 # 100000000.

Section Tuning.

(** The module-level tuning parameters read by [pid]. *)
Variables (Kc tauI tauD : Q).

(** [pid] over exact rationals, for any tuning.  [Ieee.pid] below is the
    same function over doubles, where the sums round and NaN passes both
    comparisons of the anti-reset-windup test. *)
Definition pid (sp pv pv_last ierr dt : Q) : result output :=
  (* PID coefficients in terms of tuning parameters *)
  let KP := Kc in
  KI ← pydiv Kc tauI;
  let KD := Kc * tauD in
  (* ubias for controller (initial heater) *)
  let op0 := 0 in
  (* upper and lower bounds on heater level *)
  let ophi := 100 in
  let oplo := 0 in
  (* calculate the error *)
  let error := sp - pv in
  (* calculate the integral error *)
  let ierr := ierr + KI * error * dt in
  (* calculate the measurement derivative *)
  dpv ← (if Qle_bool eps dt then pydiv (pv - pv_last) dt else Ok 0);
  (* calculate the PID output *)
  let P := KP * error in
  let I := ierr in
  let D := - KD * dpv in
  let op := op0 + P + I + D in
  (* implement anti-reset windup *)
  if Qlt_bool op oplo || Qlt_bool ophi op then
    let I := I - KI * error * dt in
    (* clip output *)
    let op := py_max oplo (py_min ophi op) in
    Ok (mk_output op P I D)
  else
    Ok (mk_output op P I D).

(** The measurement derivative [dpv] of a call. *)
Definition dpv_of (pv pv_last dt : Q) : Q :=
  if Qle_bool eps dt then (pv - pv_last) / dt else 0.

(** The raw output of a call, [op0 + P + I + D] before the anti-reset-windup
    test: bias, proportional term, updated integral and derivative term. *)
Definition raw_output (sp pv pv_last ierr dt : Q) : Q :=
  let error := sp - pv in
  0 + Kc * error + (ierr + Kc / tauI * error * dt)
  + - (Kc * tauD) * dpv_of pv pv_last dt.

End Tuning.

End Pid.

(** The tuning of the notebook: [Kc = 6.0], [tauI = 75.0], [tauD = 0.0]. *)
Definition Kc : Q := 6.
Definition tauI : Q := 75.
Definition tauD : Q := 0.

Definition pid : Q -> Q -> Q -> Q -> Q -> result Pid.output :=
  Pid.pid Kc tauI tauD.

(** ** numpy arrays as lists *)

Module PyArr.

Section Indexing.

Context {A : Type}.

(** An index into an array of [n] elements: a negative index counts from
    the end; [None] when it falls outside the array. *)
Definition norm_index (n : nat) (i : Z) : option nat :=
  let j := (if i <? 0 then i + Z.of_nat n else i)%Z in
  if ((0 <=? j) && (j <? Z.of_nat n))%Z then Some (Z.to_nat j) else None.

(** [a[i]] *)
Definition getitem (a : list A) (i : Z) : result A :=
  match norm_index (length a) i with
  | Some j => match a !! j with
              | Some x => Ok x
              | None => Raise IndexError
              end
  | None => Raise IndexError
  end.

(** [a[i] = v] *)
Definition setitem (a : list A) (i : Z) (v : A) : result (list A) :=
  match norm_index (length a) i with
  | Some j => Ok (<[j:=v]> a)
  | None => Raise IndexError
  end.

(** A slice bound: negative bounds count from the end, and every bound is
    clipped to the array. *)
Definition slice_bound (n : nat) (i : Z) : nat :=
  if (i <? 0)%Z then Z.to_nat (Z.max (i + Z.of_nat n) 0)
  else Nat.min (Z.to_nat i) n.

(** [a[start:stop]] *)
Definition getslice (a : list A) (start stop : Z) : list A :=
  let lo := slice_bound (length a) start in
  let hi := slice_bound (length a) stop in
  take (hi - lo) (drop lo a).

(** [a[start:stop] = v] for a scalar [v]: the slice is clipped to the
    array, whose length never changes. *)
Definition setslice (a : list A) (start stop : Z) (v : A) : list A :=
  let lo := slice_bound (length a) start in
  let hi := slice_bound (length a) stop in
  take lo a ++ replicate (hi - lo) v ++ drop (lo + (hi - lo)) a.

(** [a[start:] = v] *)
Definition setslice_from (a : list A) (start : Z) (v : A) : list A :=
  setslice a start (Z.of_nat (length a)) v.

End Indexing.

(** [a - b] on one-dimensional arrays: elementwise, an array of one element
    is broadcast, any other mismatch of shapes is a [ValueError]. *)
Definition np_sub (a b : list Q) : result (list Q) :=
  if (length a =? length b)%nat then Ok (zip_with Qminus a b)
  else match a, b with
       | [x], _ => Ok (map (fun y => x - y) b)
       | _, [y] => Ok (map (fun x => x - y) a)
       | _, _ => Raise ValueError
       end.

(** [np.vstack((a, b)).T]: the rows [(a[j], b[j])]; the two arrays must have
    the same length. *)
Definition vstack_T (a b : list Q) : result (list (Q * Q)) :=
  if (length a =? length b)%nat then Ok (zip a b) else Raise ValueError.

End PyArr.

(** ** The scalers (scikit-learn's [MinMaxScaler], already fitted)

    A fitted scaler holds, for each feature, the attributes [scale_] and
    [min_]; [transform] computes [X * scale_ + min_] and [inverse_transform]
    computes [(X - min_) / scale_], column by column.  [transform] validates
    its input and rejects an array without rows with a [ValueError].  Every
    rational is a finite number, so the validation has nothing else to
    reject here; [Ieee.Scaler] below validates doubles, among which an
    infinity is rejected too. *)

Module Scaler.

Record feature : Type := mk_feature { scale_ : Q; min_ : Q }.

Definition transform1 (f : feature) (x : Q) : Q := x * scale_ f + min_ f.

Definition inverse_transform1 (f : feature) (x : Q) : Q :=
  (x - min_ f) / scale_ f.

(** The input scaler has the two features [Tsp] and [err]. *)
Definition transform_row (s : feature * feature) (r : Q * Q) : Q * Q :=
  (transform1 (fst s) (fst r), transform1 (snd s) (snd r)).

Definition transform (s : feature * feature) (X : list (Q * Q))
  : result (list (Q * Q)) :=
  match X with
  | [] => Raise ValueError
  | _ => Ok (map (transform_row s) X)
  end.

Definition inverse_transform_row (s : feature * feature) (r : Q * Q)
  : Q * Q :=
  (inverse_transform1 (fst s) (fst r),
   inverse_transform1 (snd s) (snd r)).

(** [inverse_transform] validates its input as [transform] does. *)
Definition inverse_transform (s : feature * feature)
    (X : list (Q * Q)) : result (list (Q * Q)) :=
  match X with
  | [] => Raise ValueError
  | _ => Ok (map (inverse_transform_row s) X)
  end.

End Scaler.

(** ** The notebook's state and its effects *)

(** What a run does to the outside world, in the order it happens: the clock
    yields a tick, the temperature is read, [pid] is called, the heater is
    written, the model is asked for a prediction. *)
Inductive event : Type :=
| Tick (t : Q)
| ReadT1 (v : Q)
| CallPid (sp pv pv_last ierr dt : Q)
| WriteQ1 (q : Q)
| Predict (Xs : list (Q * Q)).

(** The global arrays of the notebook. *)
Inductive var : Type := vT1 | vQ1 | vQpid | vQlstm | vtm | vTsp1 | vTsp.

(** The globals the loops read and write.  [log] is the history of the
    current lab session, most recent event first. *)
Record nb : Type := mk_nb {
  T1 : list Q;
  Q1 : list Q;
  Qpid : list Q;
  Qlstm : list Q;
  tm : list Q;
  Tsp1 : list Q;
  Tsp : list Q;
  ierr : Q;
  iae : Q;
  prev_time : Q;
  log : list event
}.

Definition get_var (x : var) (s : nb) : list Q :=
  match x with
  | vT1 => T1 s | vQ1 => Q1 s | vQpid => Qpid s | vQlstm => Qlstm s
  | vtm => tm s | vTsp1 => Tsp1 s | vTsp => Tsp s
  end.

Definition set_var (x : var) (a : list Q) (s : nb) : nb :=
  match x with
  | vT1 => mk_nb a (Q1 s) (Qpid s) (Qlstm s) (tm s) (Tsp1 s) (Tsp s)
                 (ierr s) (iae s) (prev_time s) (log s)
  | vQ1 => mk_nb (T1 s) a (Qpid s) (Qlstm s) (tm s) (Tsp1 s) (Tsp s)
                 (ierr s) (iae s) (prev_time s) (log s)
  | vQpid => mk_nb (T1 s) (Q1 s) a (Qlstm s) (tm s) (Tsp1 s) (Tsp s)
                   (ierr s) (iae s) (prev_time s) (log s)
  | vQlstm => mk_nb (T1 s) (Q1 s) (Qpid s) a (tm s) (Tsp1 s) (Tsp s)
                    (ierr s) (iae s) (prev_time s) (log s)
  | vtm => mk_nb (T1 s) (Q1 s) (Qpid s) (Qlstm s) a (Tsp1 s) (Tsp s)
                 (ierr s) (iae s) (prev_time s) (log s)
  | vTsp1 => mk_nb (T1 s) (Q1 s) (Qpid s) (Qlstm s) (tm s) a (Tsp s)
                   (ierr s) (iae s) (prev_time s) (log s)
  | vTsp => mk_nb (T1 s) (Q1 s) (Qpid s) (Qlstm s) (tm s) (Tsp1 s) a
                  (ierr s) (iae s) (prev_time s) (log s)
  end.

Definition set_ierr (v : Q) (s : nb) : nb :=
  mk_nb (T1 s) (Q1 s) (Qpid s) (Qlstm s) (tm s) (Tsp1 s) (Tsp s)
        v (iae s) (prev_time s) (log s).

Definition set_iae (v : Q) (s : nb) : nb :=
  mk_nb (T1 s) (Q1 s) (Qpid s) (Qlstm s) (tm s) (Tsp1 s) (Tsp s)
        (ierr s) v (prev_time s) (log s).

Definition set_prev_time (v : Q) (s : nb) : nb :=
  mk_nb (T1 s) (Q1 s) (Qpid s) (Qlstm s) (tm s) (Tsp1 s) (Tsp s)
        (ierr s) (iae s) v (log s).

Definition set_log (l : list event) (s : nb) : nb :=
  mk_nb (T1 s) (Q1 s) (Qpid s) (Qlstm s) (tm s) (Tsp1 s) (Tsp s)
        (ierr s) (iae s) (prev_time s) l.

(** A statement of the notebook: it changes the globals and either completes
    with a value or raises.  What it changed before raising stays changed. *)
Definition M (A : Type) : Type := nb -> result A * nb.

#[global] Instance M_ret : MRet M := fun A a s => (Ok a, s).

#[global] Instance M_bind : MBind M :=
  fun A B (k : A -> M B) (m : M A) s =>
    match m s with
    | (Ok a, s') => k a s'
    | (Raise e, s') => (Raise e, s')
    end.

Definition lift {A : Type} (r : result A) : M A := fun s => (r, s).

Definition gets {A : Type} (f : nb -> A) : M A := fun s => (Ok (f s), s).

Definition modify (f : nb -> nb) : M unit := fun s => (Ok tt, f s).

Definition emit (e : event) : M unit :=
  modify (fun s => set_log (e :: log s) s).

(** [x[i]], [x[i] = v] and [x[start:stop]] on a global array. *)
Definition getitem (x : var) (i : Z) : M Q :=
  a ← gets (get_var x); lift (PyArr.getitem a i).

Definition setitem (x : var) (i : Z) (v : Q) : M unit :=
  a ← gets (get_var x);
  a' ← lift (PyArr.setitem a i v);
  modify (set_var x a').

Definition getslice (x : var) (start stop : Z) : M (list Q) :=
  a ← gets (get_var x); mret (PyArr.getslice a start stop).

(** What the process can depend on: the ticks and the heater commands. *)
Definition plant_visible (e : event) : bool :=
  match e with
  | Tick _ | WriteQ1 _ => true
  | _ => false
  end.

Definition plant_view (l : list event) : list event :=
  List.filter plant_visible l.

(** The heater commands of a log, most recent first. *)
Definition heater_writes (l : list event) : list Q :=
  omap (fun e => match e with WriteQ1 q => Some q | _ => None end) l.

(** The windows given to the model, most recent first. *)
Definition model_inputs (l : list event) : list (list (Q * Q)) :=
  omap (fun e => match e with Predict Xs => Some Xs | _ => None end) l.

(** The temperatures read, most recent first. *)
Definition readings (l : list event) : list Q :=
  omap (fun e => match e with ReadT1 v => Some v | _ => None end) l.

(** [for i,t in enumerate(clock)] starting at index [i]: the body runs on
    each tick in turn, and an exception ends the loop. *)
Fixpoint for_enumerate (body : nat -> Q -> M unit) (i : nat) (clock : list Q)
  : M unit :=
  match clock with
  | [] => mret tt
  | t :: clock' =>
      _ ← emit (Tick t);
      _ ← body i t;
      for_enumerate body (S i) clock'
  end.

(** ** The set point schedules (cells "Generate data for training LSTM" and
       "Generate SP data for test") *)

(** [random.randint(lo, hi)], computed from one raw draw of the generator. *)
Definition randint (lo hi : nat) (r : nat) : nat := lo + r mod (hi - lo + 1).

(** The loop [while end <= loops: ...] that varies the set point.  [rnd] is
    the sequence of raw draws of the random generator and [k] the number of
    draws already consumed; each iteration consumes two. *)
Equations? vary_setpoint (loops : nat) (rnd : nat -> nat) (end_ k : nat)
    (a : list Q) : list Q by wf (S loops - end_)%nat lt :=
  vary_setpoint loops rnd end_ k a with le_lt_dec end_ loops := {
    | left _ =>
        let start := end_ in
        (* keep new temp set point value for anywhere from 4 to 10 min *)
        let end' := (end_ + randint 240 600 (rnd k))%nat in
        vary_setpoint loops rnd end' (S (S k))
          (PyArr.setslice a (Z.of_nat start) (Z.of_nat end')
             (inject_Z (Z.of_nat (randint 30 70 (rnd (S k))))))
    | right _ => a }.
Proof.
  subst end'. unfold randint.
  generalize (rnd k mod (600 - 240 + 1))%nat. intros d. lia.
Qed.

(** [Tsp1]: room temperature, then varied from index 30 on. *)
Definition Tsp1_schedule (loops : nat) (room : Q) (rnd : nat -> nat) : list Q :=
  let Tsp1 := replicate loops (1 * room) in
  vary_setpoint loops rnd 30 0 Tsp1.

(** [Tsp]: room temperature, varied from index [window + 15] on, and the last
    120 seconds back at [Tsp[0]]. *)
Definition Tsp_schedule (window loops : nat) (room : Q) (rnd : nat -> nat)
  : result (list Q) :=
  let Tsp := replicate loops (1 * room) in
  let Tsp := vary_setpoint loops rnd (window + 15) 0 Tsp in
  (* leave last 120 seconds as room temp *)
  v ← PyArr.getitem Tsp 0;
  Ok (PyArr.setslice_from Tsp (-120) v).

(** ** The controllers' collaborators, the sequence-model controller and the
       clocked loops *)

Section Notebook.

(** The process: the temperature [lab.T1] as a function of what the lab
    session has seen so far (ticks and heater commands, most recent first). *)
Variable sensor : list event -> Q.

(** The trained model: [model.predict] on one window of scaled rows. *)
Variable predict : list (Q * Q) -> Q.

(** The fitted scalers [s_x] and [s_y]. *)
Variable s_x : Scaler.feature * Scaler.feature.
Variable s_y : Scaler.feature.

(** [window = 15] in the notebook. *)
Variable window : nat.

(** [with TCLab() as lab:] starts a new session. *)
Definition open_lab : M unit := modify (set_log []).

(** [lab.T1] *)
Definition lab_T1 : M Q :=
  l ← gets log;
  let v := sensor (plant_view l) in
  _ ← emit (ReadT1 v);
  mret v.

(** [lab.Q1(q)] *)
Definition lab_Q1 (q : Q) : M unit := emit (WriteQ1 q).

(** [model.predict(Xs)] *)
Definition model_predict (Xs : list (Q * Q)) : M Q :=
  _ ← emit (Predict Xs);
  mret (predict Xs).

(** A call of [pid] from a loop. *)
Definition call_pid (sp pv pv_last ierr dt : Q) : M Pid.output :=
  _ ← emit (CallPid sp pv pv_last ierr dt);
  lift (pid sp pv pv_last ierr dt).

(** The LSTM controller (cell "Part A").  Over exact rationals the answer of
    the model is a number, which the scaler accepts and [np.clip] bounds;
    [Ieee.lstm] below has the answers NaN and infinity as well. *)
Definition lstm (T1_m Tsp_m : list Q) : M Q :=
  (* Calculate error (necessary feature for LSTM input) *)
  err ← lift (PyArr.np_sub Tsp_m T1_m);
  (* Format data for LSTM input *)
  X ← lift (PyArr.vstack_T Tsp_m err);
  Xs ← lift (Scaler.transform s_x X);
  (* Predict Q for controller and unscale *)
  Q1c_s ← model_predict Xs;
  let Q1c := Scaler.inverse_transform1 s_y Q1c_s in
  (* Ensure Q1c is between 0 and 100 *)
  let Q1c := np_clip Q1c 0 100 in
  mret Q1c.

(** The body of the data collection loop. *)
Definition collect_tick (i : nat) (t : Q) : M unit :=
  let i := Z.of_nat i in
  _ ← setitem vtm i t;
  pt ← gets prev_time;
  let dt := t - pt in
  v ← lab_T1;
  _ ← setitem vT1 i v;
  (* Integral absolute error *)
  sp ← getitem vTsp1 i;
  pv ← getitem vT1 i;
  _ ← modify (fun s => set_iae (iae s + Qabs (sp - pv)) s);
  (* Calculate PID output *)
  sp ← getitem vTsp1 i;
  pv ← getitem vT1 i;
  pv_last ← getitem vT1 (i - 1);
  ie ← gets ierr;
  r ← call_pid sp pv pv_last ie dt;
  _ ← setitem vQ1 i (Pid.op r);
  _ ← modify (set_ierr (Pid.I r));
  (* Write heater output (0-100) *)
  q ← getitem vQ1 i;
  _ ← lab_Q1 q;
  modify (set_prev_time t).

(** [Qlstm[i] = lstm(T1[i-window:i], Tsp[i-window:i])] under the guard
    [if i >= window:]. *)
Definition run_lstm (i : nat) : M unit :=
  if (window <=? i)%nat then
    let i := Z.of_nat i in
    (* Load data for model *)
    T1_m ← getslice vT1 (i - Z.of_nat window) i;
    Tsp_m ← getslice vTsp (i - Z.of_nat window) i;
    (* Predict and store LSTM value for comparison *)
    q ← lstm T1_m Tsp_m;
    setitem vQlstm i q
  else mret tt.

(** The body of the loop of Part A. *)
Definition partA_tick (i : nat) (t : Q) : M unit :=
  let iz := Z.of_nat i in
  _ ← setitem vtm iz t;
  pt ← gets prev_time;
  let dt := t - pt in
  (* Read temperature (C) *)
  v ← lab_T1;
  _ ← setitem vT1 iz v;
  (* Integral absolute error *)
  sp ← getitem vTsp iz;
  pv ← getitem vT1 iz;
  _ ← modify (fun s => set_iae (iae s + Qabs (sp - pv)) s);
  (* Calculate PID output *)
  sp ← getitem vTsp iz;
  pv ← getitem vT1 iz;
  pv_last ← getitem vT1 (iz - 1);
  ie ← gets ierr;
  r ← call_pid sp pv pv_last ie dt;
  _ ← setitem vQpid iz (Pid.op r);
  _ ← modify (set_ierr (Pid.I r));
  (* Write heater output (0-100) *)
  q ← getitem vQpid iz;
  _ ← lab_Q1 q;
  (* Run LSTM model to get Q1 value for control *)
  _ ← run_lstm i;
  modify (set_prev_time t).

(** The body of the loop of Part B. *)
Definition partB_tick (i : nat) (t : Q) : M unit :=
  let iz := Z.of_nat i in
  _ ← setitem vtm iz t;
  (* Read temperature (C) *)
  v ← lab_T1;
  _ ← setitem vT1 iz v;
  (* Run LSTM model to get Q1 value for control *)
  _ ← run_lstm i;
  (* Write heater output (0-100) *)
  q ← getitem vQlstm iz;
  _ ← lab_Q1 q;
  modify (set_prev_time t).

(** The cells.  [clock] is the sequence of times yielded by [tclab.clock]. *)
Definition data_collection (clock : list Q) : M unit :=
  _ ← open_lab;
  _ ← modify (set_ierr 0);
  _ ← modify (set_iae 0);
  _ ← modify (set_prev_time 0);
  for_enumerate collect_tick 0 clock.

Definition partA (clock : list Q) : M unit :=
  _ ← open_lab;
  _ ← modify (set_ierr 0);
  _ ← modify (set_iae 0);
  _ ← modify (set_prev_time 0);
  for_enumerate partA_tick 0 clock.

Definition partB (clock : list Q) : M unit :=
  _ ← open_lab;
  _ ← modify (set_prev_time 0);
  for_enumerate partB_tick 0 clock.



(** The window construction of the cell "Feature selection, scaling, and
    formatting data to LSTM input format": row [j] of [X] is
    [(Tsp[j], Tsp[j] - T1[j])], [Xs] is [X] scaled by [s_x], and for each
    [i] in [range(window, len(df))] the window [Xs[i-window:i]] is appended
    to [X_lstm] and the label [ys[i]] to [y_lstm]. *)
Definition df_X (df_Tsp df_T1 : list Q) : list (Q * Q) :=
  zip df_Tsp (zip_with Qminus df_Tsp df_T1).

Definition X_lstm (Xs : list (Q * Q)) : list (list (Q * Q)) :=
  map (fun i => PyArr.getslice Xs (Z.of_nat i - Z.of_nat window) (Z.of_nat i))
      (seq window (length Xs - window)).

Definition y_lstm (ys : list Q) : list Q :=
  omap (fun i => ys !! i) (seq window (length ys - window)).

End Notebook.


(** ** The cells between the loops *)



(** [Xtest[:,-1,:]]: the last row of each window; an array without windows
    has one dimension only and cannot be indexed so. *)
Definition last_rows (X : list (list (Q * Q))) : result (list (Q * Q)) :=
  match X with
  | [] => Raise IndexError
  | _ => mapM (fun w => PyArr.getitem w (-1)) X
  end.

(** The cell "Performance assessment": [sp] and [pv] as they are derived
    from the unscaled last rows of the test windows. *)
Definition derive_sp_pv (s_x : Scaler.feature * Scaler.feature)
    (Xtest : list (list (Q * Q))) : result (list Q * list Q) :=
  rows ← last_rows Xtest;
  Xtest_us ← Scaler.inverse_transform s_x rows;
  let sp := map fst Xtest_us in
  let pv := map (fun r => fst r + snd r) Xtest_us in
  Ok (sp, pv).

(** * The vocabulary of the properties *)

(** ** Outcomes *)

Definition is_ok {A : Type} (r : result A) : bool :=
  match r with
  | Ok _ => true
  | Raise _ => false
  end.

(** [wp m Q s]: run from [s], the statement [m] ends, normally or with an
    exception, in an outcome and a state that satisfy [Q]. *)
Definition wp {A : Type} (m : M A) (Q : result A -> nb -> Prop) (s : nb) : Prop :=
  Q (m s).1 (m s).2.

(** ** The holds of a schedule *)

Section Holds.

Variable rnd : nat -> nat.

(** The holds drawn by the loop when it starts at index [e0] with [k] draws
  already consumed: hold [m] has the duration [hold_duration k m] and the
  level [hold_level k m], and starts at [hold_start e0 k m]. *)
Definition hold_duration (k m : nat) : nat := randint 240 600 (rnd (k + 2 * m)).

Definition hold_level (k m : nat) : Q :=
inject_Z (Z.of_nat (randint 30 70 (rnd (S (k + 2 * m))))).

Fixpoint hold_start (e0 k m : nat) : nat :=
match m with
| O => e0
| S m' => (hold_start e0 k m' + hold_duration k m')%nat
end.

End Holds.

(** ** Windows, ticks and runs *)

Section Vocabulary.

Variable sensor : list event -> Q.
Variable predict : list (Q * Q) -> Q.
Variable s_x : Scaler.feature * Scaler.feature.
Variable s_y : Scaler.feature.
Variable window : nat.

(** The rows the model is given for a window of measurements and set
  points of the same length. *)
Definition window_rows (T1_m Tsp_m : list Q) : list (Q * Q) :=
map (Scaler.transform_row s_x) (zip Tsp_m (zip_with Qminus Tsp_m T1_m)).

(** [Xs], the scaled rows of all the samples: row [j] is made of the set
  point and the error of sample [j]. *)
Definition all_rows (df_Tsp df_T1 : list Q) : list (Q * Q) :=
map (Scaler.transform_row s_x) (df_X df_Tsp df_T1).

(** The temperature read in state [s]. *)
Definition reading (s : nb) : Q := sensor (plant_view (log s)).

(** The window of index [i]: the rows of the samples [i-window .. i-1]. *)
Definition window_at (s : nb) (i : nat) : list (Q * Q) :=
window_rows (take window (drop (i - window) (T1 s)))
            (take window (drop (i - window) (Tsp s))).

(** The events of one tick of Part A, most recent first, and whether the
  tick completed ([true]) or was ended by an exception ([false]). *)
Inductive partA_block (s : nb) (i : nat) (t : Q) : bool -> list event -> Prop :=
| A_before_read : partA_block s i t false []
| A_after_read : partA_block s i t false [ReadT1 (reading s)]
| A_in_pid sp pvl :
  Tsp s !! i = Some sp ->
  PyArr.getitem (<[i:=reading s]> (T1 s)) (Z.of_nat i - 1) = Ok pvl ->
  partA_block s i t false
    [CallPid sp (reading s) pvl (ierr s) (t - prev_time s);
     ReadT1 (reading s)]
| A_written sp pvl r done :
  Tsp s !! i = Some sp ->
  PyArr.getitem (<[i:=reading s]> (T1 s)) (Z.of_nat i - 1) = Ok pvl ->
  pid sp (reading s) pvl (ierr s) (t - prev_time s) = Ok r ->
  (done = true -> (i < window)%nat) ->
  partA_block s i t done
    [WriteQ1 (Pid.op r);
     CallPid sp (reading s) pvl (ierr s) (t - prev_time s);
     ReadT1 (reading s)]
| A_predicted sp pvl r done :
  Tsp s !! i = Some sp ->
  PyArr.getitem (<[i:=reading s]> (T1 s)) (Z.of_nat i - 1) = Ok pvl ->
  pid sp (reading s) pvl (ierr s) (t - prev_time s) = Ok r ->
  (0 < window <= i)%nat -> (i < length (T1 s))%nat ->
  partA_block s i t done
    [Predict (window_at s i);
     WriteQ1 (Pid.op r);
     CallPid sp (reading s) pvl (ierr s) (t - prev_time s);
     ReadT1 (reading s)].

(** The events of one tick of Part B. *)
Inductive partB_block (s : nb) (i : nat) (t : Q) : bool -> list event -> Prop :=
| B_before_read : partB_block s i t false []
| B_after_read : partB_block s i t false [ReadT1 (reading s)]
| B_predicted :
  (0 < window <= i)%nat -> (i < length (T1 s))%nat ->
  (i <= length (Tsp s))%nat ->
  partB_block s i t false [Predict (window_at s i); ReadT1 (reading s)]
| B_written_idle q :
  (i < window)%nat -> Qlstm s !! i = Some q ->
  partB_block s i t true [WriteQ1 q; ReadT1 (reading s)]
| B_written :
  (0 < window <= i)%nat -> (i < length (T1 s))%nat ->
  (i <= length (Tsp s))%nat ->
  partB_block s i t true
    [WriteQ1 (np_clip (Scaler.inverse_transform1 s_y
                         (predict (window_at s i))) 0 100);
     Predict (window_at s i); ReadT1 (reading s)].

(** What a tick of Part A or of Part B leaves alone: the lengths of the
  arrays, the set points, every element of [T1] and [Qlstm] but the one of
  index [i], and all of [Qlstm] while [i < window].  A completed tick has
  stored the temperature it read. *)
Definition tick_frame (s : nb) (i : nat) (r : result unit) (s' : nb) : Prop :=
Tsp s' = Tsp s
/\ length (T1 s') = length (T1 s)
/\ length (Qpid s') = length (Qpid s)
/\ length (Qlstm s') = length (Qlstm s)
/\ length (tm s') = length (tm s)
/\ (forall j, j <> i -> T1 s' !! j = T1 s !! j)
/\ (forall j, j <> i -> Qlstm s' !! j = Qlstm s !! j)
/\ ((i < window)%nat -> Qlstm s' = Qlstm s)
/\ (is_ok r = true -> T1 s' !! i = Some (reading s)).

(** The state in which the loop of Part A starts. *)
Definition partA_start (s : nb) : nb :=
set_prev_time 0 (set_iae 0 (set_ierr 0 (set_log [] s))).

(** The state in which the loop of Part B starts. *)
Definition partB_start (s : nb) : nb := set_prev_time 0 (set_log [] s).

(** [follows ok l]: every event [e] of the log [l] satisfies [ok e prev],
  where [prev] is the event that happened just before [e], if any. *)
Definition follows (ok : event -> option event -> Prop) (l : list event) : Prop :=
forall l2 e l1, l = l2 ++ e :: l1 -> ok e (head l1).

(** In Part A a heater command is the output of the call of [pid] made
  just before it, and the model is asked just after a heater command. *)
Definition okA (e : event) (prev : option event) : Prop :=
match e with
| WriteQ1 q =>
    exists sp pv pv_last ie dt r,
      prev = Some (CallPid sp pv pv_last ie dt)
      /\ pid sp pv pv_last ie dt = Ok r /\ q = Pid.op r
| Predict _ => exists q, prev = Some (WriteQ1 q)
| _ => True
end.


(** After [i] completed ticks: the temperatures read are the first [i]
  elements of [T1], and the model has been given the windows of the
  indices [window .. i-1], one after the other.  Both logs list the most
  recent entry first. *)
Definition history (i : nat) (s : nb) : Prop :=
(i <= length (T1 s))%nat
/\ readings (log s) = rev (take i (T1 s))
/\ model_inputs (log s) = rev (map (window_at s) (seq window (i - window))).

(** The arrays [Tsp] and [T1] have the same length. *)
Definition aligned (s : nb) : Prop := length (Tsp s) = length (T1 s).

(** The arrays as the cell "Generate SP data for test" leaves them, for a
  run of [n] ticks. *)
Definition test_arrays (n : nat) (s : nb) : Prop :=
T1 s = replicate n 0 /\ Qpid s = replicate n 0 /\ Qlstm s = replicate n 0
/\ tm s = replicate n 0 /\ length (Tsp s) = n.

(** What Part A keeps of them: the lengths, and the zeros of [Qlstm] below
  [window]. *)
Definition idle_zero (n : nat) (s : nb) : Prop :=
length (T1 s) = n /\ length (tm s) = n /\ length (Qlstm s) = n
/\ (forall j, (j < window)%nat -> (j < n)%nat -> Qlstm s !! j = Some 0).

End Vocabulary.

(** ** Heater commands, recorded arrays and the data collection *)


(** The times the clock yielded, most recent first. *)
Definition ticks (l : list event) : list Q :=
  omap (fun e => match e with Tick t => Some t | _ => None end) l.

(** The calls of [pid], most recent first. *)
Definition pid_calls (l : list event) : list (Q * Q * Q * Q * Q) :=
  omap (fun e => match e with
                 | CallPid sp pv pv_last ie dt => Some (sp, pv, pv_last, ie, dt)
                 | _ => None
                 end) l.

(** The state in which the data collection loop starts. *)
Definition collect_start (s : nb) : nb :=
  set_prev_time 0 (set_iae 0 (set_ierr 0 (set_log [] s))).


Section Commands.

Variable predict : list (Q * Q) -> Q.
Variable s_x : Scaler.feature * Scaler.feature.
Variable s_y : Scaler.feature.
Variable window : nat.

(** The command the model gives for the window of index [i]. *)
Definition model_command (s : nb) (i : nat) : Q :=
  np_clip (Scaler.inverse_transform1 s_y (predict (window_at s_x window s i)))
          0 100.

(** In Part B [pid] is not called, the model is asked just after the
    temperature was read, and a heater command that follows a prediction is
    that prediction, unscaled and clipped. *)
Definition okB (e : event) (prev : option event) : Prop :=
  match e with
  | WriteQ1 q =>
      (exists v, prev = Some (ReadT1 v))
      \/ (exists Xs, prev = Some (Predict Xs)
                     /\ q = np_clip (Scaler.inverse_transform1 s_y (predict Xs))
                                    0 100)
  | Predict _ => exists v, prev = Some (ReadT1 v)
  | CallPid _ _ _ _ _ => False
  | ReadT1 _ => exists t, prev = Some (Tick t)
  | Tick _ => True
  end.

End Commands.

(** The sum of an array. *)
Definition Qsum (l : list Q) : Q := fold_right Qplus 0 l.

(** [np.abs(sp - pv)], elementwise. *)
Definition abs_errors (sp pv : list Q) : list Q :=
  zip_with (fun a b => Qabs (a - b)) sp pv.

Section Stored.

Variable sensor : list event -> Q.
Variable predict : list (Q * Q) -> Q.
Variable s_x : Scaler.feature * Scaler.feature.
Variable s_y : Scaler.feature.
Variable window : nat.

(** The events of a completed tick of the data collection or of Part A up
    to the heater command, most recent first. *)
Definition pid_events (s : nb) (t sp pvl : Q) (out : Pid.output) : list event :=
  [WriteQ1 (Pid.op out);
   CallPid sp (reading sensor s) pvl (ierr s) (t - prev_time s);
   ReadT1 (reading sensor s)].

(** The invocation of the model at tick [i], if there is one. *)
Definition model_events (s : nb) (i : nat) : list event :=
  if (window <=? i)%nat then [Predict (window_at s_x window s i)] else [].

(** [Qlstm] after the tick [i]. *)
Definition Qlstm_after (s : nb) (i : nat) : list Q :=
  if (window <=? i)%nat
  then <[i:=model_command predict s_x s_y window s i]> (Qlstm s)
  else Qlstm s.

(** The state [s'] in which a tick of the data collection that started in
    [s] at index [i] and time [t] completes. *)
Definition collect_stored (s : nb) (i : nat) (t : Q) (s' : nb) : Prop :=
  exists sp pvl out,
    Tsp1 s !! i = Some sp
    /\ PyArr.getitem (<[i:=reading sensor s]> (T1 s)) (Z.of_nat i - 1) = Ok pvl
    /\ pid sp (reading sensor s) pvl (ierr s) (t - prev_time s) = Ok out
    /\ (i < length (tm s))%nat /\ (i < length (T1 s))%nat
    /\ (i < length (Q1 s))%nat
    /\ s' = mk_nb (<[i:=reading sensor s]> (T1 s)) (<[i:=Pid.op out]> (Q1 s))
                  (Qpid s) (Qlstm s) (<[i:=t]> (tm s)) (Tsp1 s) (Tsp s)
                  (Pid.I out) (iae s + Qabs (sp - reading sensor s)) t
                  (pid_events s t sp pvl out ++ log s).

(** The same for a tick of Part A. *)
Definition partA_stored (s : nb) (i : nat) (t : Q) (s' : nb) : Prop :=
  exists sp pvl out,
    Tsp s !! i = Some sp
    /\ PyArr.getitem (<[i:=reading sensor s]> (T1 s)) (Z.of_nat i - 1) = Ok pvl
    /\ pid sp (reading sensor s) pvl (ierr s) (t - prev_time s) = Ok out
    /\ (i < length (tm s))%nat /\ (i < length (T1 s))%nat
    /\ (i < length (Qpid s))%nat
    /\ ((window <= i)%nat ->
        (0 < window)%nat /\ (i < length (Qlstm s))%nat
        /\ (i <= length (Tsp s))%nat)
    /\ s' = mk_nb (<[i:=reading sensor s]> (T1 s)) (Q1 s)
                  (<[i:=Pid.op out]> (Qpid s)) (Qlstm_after s i)
                  (<[i:=t]> (tm s)) (Tsp1 s) (Tsp s)
                  (Pid.I out) (iae s + Qabs (sp - reading sensor s)) t
                  (model_events s i ++ pid_events s t sp pvl out ++ log s).

(** The same for a tick of Part B. *)
Definition partB_stored (s : nb) (i : nat) (t : Q) (s' : nb) : Prop :=
  exists q,
    Qlstm_after s i !! i = Some q
    /\ (i < length (tm s))%nat /\ (i < length (T1 s))%nat
    /\ ((window <= i)%nat ->
        (0 < window)%nat /\ (i <= length (Tsp s))%nat)
    /\ s' = mk_nb (<[i:=reading sensor s]> (T1 s)) (Q1 s) (Qpid s)
                  (Qlstm_after s i) (<[i:=t]> (tm s)) (Tsp1 s) (Tsp s)
                  (ierr s) (iae s) t
                  (WriteQ1 q :: model_events s i
                     ++ ReadT1 (reading sensor s) :: log s).

End Stored.

(** The time of the last tick done, [0] before the first: the value of
    [prev_time] between two ticks. *)
Definition last_time (done : list Q) : Q := default 0 (last done).

Section Recorded.

Variable predict : list (Q * Q) -> Q.
Variable s_x : Scaler.feature * Scaler.feature.
Variable s_y : Scaler.feature.
Variable window : nat.

(** What the arrays hold after the ticks [done] of the data collection:
    the times, the temperatures read and the heater commands, tick by
    tick.  [sp0] is the schedule the run started with. *)
Definition collect_recorded (sp0 : list Q) (done : list Q) (s : nb) : Prop :=
  let i := length done in
  (i <= length (tm s))%nat /\ (i <= length (T1 s))%nat
  /\ (i <= length (Q1 s))%nat /\ (i <= length (Tsp1 s))%nat
  /\ Tsp1 s = sp0
  /\ take i (tm s) = done
  /\ take i (T1 s) = rev (readings (log s))
  /\ take i (Q1 s) = rev (heater_writes (log s))
  /\ prev_time s = last_time done.

(** The same for Part A, whose heater commands are in [Qpid]; [Qlstm]
    holds, from index [window] on, what the model would have commanded. *)
Definition partA_recorded (done : list Q) (s : nb) : Prop :=
  let i := length done in
  (i <= length (tm s))%nat /\ (i <= length (Qpid s))%nat
  /\ take i (tm s) = done
  /\ take i (Qpid s) = rev (heater_writes (log s))
  /\ (forall k, (window <= k < i)%nat ->
        Qlstm s !! k = Some (model_command predict s_x s_y window s k))
  /\ prev_time s = last_time done.

(** The same for Part B, whose heater commands are in [Qlstm]. *)
Definition partB_recorded (done : list Q) (s : nb) : Prop :=
  let i := length done in
  (i <= length (tm s))%nat /\ (i <= length (Qlstm s))%nat
  /\ take i (tm s) = done
  /\ take i (Qlstm s) = rev (heater_writes (log s))
  /\ (forall k, (window <= k < i)%nat ->
        Qlstm s !! k = Some (model_command predict s_x s_y window s k))
  /\ prev_time s = last_time done.

End Recorded.



(** The integral that a call of [pid] is to be given after the log [l]: the
    one the last call returned, [0] before the first call. *)
Definition carried_integral (l : list event) (ie : Q) : Prop :=
  match pid_calls l with
  | [] => ie = 0
  | (sp, pv, pv_last, ie0, dt) :: _ =>
      exists out, pid sp pv pv_last ie0 dt = Ok out /\ ie = Pid.I out
  end.

(** The inputs of the calls of [pid] in a log, [tsp] being the schedule of
    the run.  At each call, [l1] is the log up to the call, most recent
    first: the set point is the one of the current tick, the measurement is
    the temperature just read, the previous measurement is the temperature
    read at the tick before, if there is one, the integral is the one the
    last call returned, and the time step is the time since the tick
    before, or since [0]. *)
Definition pid_inputs_ok (tsp : list Q) (l : list event) : Prop :=
  forall l2 sp pv pv_last ie dt l1,
    l = l2 ++ CallPid sp pv pv_last ie dt :: l1 ->
    tsp !! (length (ticks l1) - 1)%nat = Some sp
    /\ readings l1 !! 0%nat = Some pv
    /\ (forall r, readings l1 !! 1%nat = Some r -> pv_last = r)
    /\ carried_integral l1 ie
    /\ exists t, ticks l1 !! 0%nat = Some t
                 /\ dt = t - default 0 (ticks l1 !! 1%nat).

(** Between two ticks of a loop that calls [pid], [i] ticks being done. *)
Definition pid_threaded (tsp : list Q) (get_tsp : nb -> list Q) (i : nat)
    (s : nb) : Prop :=
  get_tsp s = tsp
  /\ length (ticks (log s)) = i /\ length (readings (log s)) = i
  /\ take i (T1 s) = rev (readings (log s))
  /\ pid_inputs_ok tsp (log s)
  /\ carried_integral (log s) (ierr s)
  /\ prev_time s = default 0 (ticks (log s) !! 0%nat).

Definition is_call (e : event) : bool :=
  match e with
  | CallPid _ _ _ _ _ => true
  | _ => false
  end.

(** The integral absolute error between two ticks, [i] ticks being done:
    the sum of [|sp - T1|] over the samples taken. *)
Definition iae_summed (tsp : list Q) (get_tsp : nb -> list Q) (i : nat)
    (s : nb) : Prop :=
  get_tsp s = tsp
  /\ 0 <= iae s
  /\ iae s == Qsum (take i (abs_errors tsp (T1 s))).

(** * The notebook over IEEE doubles

    The same code once more, with the numbers the notebook computes with:
    binary64 floats, where sums and products round, a sum of finite numbers
    can be infinite, and NaN compares false with everything.  The
    collaborators validate as the libraries do: the scalers reject an array
    that holds an infinity, and [np.clip] lets NaN through. *)

Module Ieee.

Import PrimFloat.
Local Open Scope float_scope.

(** ** The built-ins [min], [max], [np.clip] and the division *)

(** [min(a, b)]: the first argument unless the second is strictly smaller;
    a comparison with NaN is false. *)
Definition py_min (a b : float) : float := if b <? a then b else a.

(** [max(a, b)]: the first argument unless the second is strictly larger. *)
Definition py_max (a b : float) : float := if a <? b then b else a.

(** [np.maximum] and [np.minimum] return their first argument when it is NaN
    and compare otherwise. *)
Definition np_maximum (a b : float) : float :=
  if is_nan a then a else if b <? a then a else b.

Definition np_minimum (a b : float) : float :=
  if is_nan a then a else if a <? b then a else b.

(** [np.clip(x, lo, hi)] is [minimum(maximum(x, lo), hi)]. *)
Definition np_clip (x lo hi : float) : float :=
  np_minimum (np_maximum x lo) hi.

(** [x / y] on Python floats: a zero divisor raises. *)
Definition pydiv (x y : float) : result float :=
  if y =? 0 then Raise ZeroDivisionError else Ok (x / y).

(** ** The PID controller (cell "Program PID controller") *)

(** [return [op,P,I,D]] *)
Record output : Type := mk_output { op : float; P : float; I : float; D : float }.

(** The tuning of the notebook: [Kc = 6.0], [tauI = 75.0], [tauD = 0.0]. *)
Definition Kc : float := 6.
Definition tauI : float := 75.
Definition tauD : float := 0.

Definition pid (sp pv pv_last ierr dt : float) : result output :=
  (* PID coefficients in terms of tuning parameters *)
  let KP := Kc in
  KI ← pydiv Kc tauI;
  let KD := Kc * tauD in
  (* ubias for controller (initial heater) *)
  let op0 := 0 in
  (* upper and lower bounds on heater level *)
  let ophi := 100 in
  let oplo := 0 in
  (* calculate the error *)
  let error := sp - pv in
  (* calculate the integral error *)
  let ierr := ierr + KI * error * dt in
  (* calculate the measurement derivative *)
  dpv ← (if 1e-8 <=? dt then pydiv (pv - pv_last) dt else Ok 0);
  (* calculate the PID output *)
  let P := KP * error in
  let I := ierr in
  let D := - KD * dpv in
  let op := op0 + P + I + D in
  (* implement anti-reset windup *)
  if (op <? oplo) || (ophi <? op) then
    let I := I - KI * error * dt in
    (* clip output *)
    let op := py_max oplo (py_min ophi op) in
    Ok (mk_output op P I D)
  else
    Ok (mk_output op P I D).

(** The integral coefficient [KI = Kc/tauI] of the notebook's tuning. *)
Definition KI : float := Kc / tauI.

(** The measurement derivative [dpv] of a call. *)
Definition dpv_of (pv pv_last dt : float) : float :=
  if 1e-8 <=? dt then (pv - pv_last) / dt else 0.

(** The increment [KI * error * dt] of the integral in a call. *)
Definition increment (sp pv dt : float) : float := KI * (sp - pv) * dt.

(** The raw output of a call, [op0 + P + I + D] before the anti-reset-windup
    test. *)
Definition raw_output (sp pv pv_last ierr dt : float) : float :=
  0 + Kc * (sp - pv) + (ierr + increment sp pv dt)
  + - (Kc * tauD) * dpv_of pv pv_last dt.

(** The anti-reset-windup test [if op < oplo or op > ophi]. *)
Definition out_of_bounds (raw : float) : bool := (raw <? 0) || (100 <? raw).

(** ** numpy arrays of doubles *)

(** [a - b] on one-dimensional arrays: elementwise, an array of one element
    is broadcast, any other mismatch of shapes is a [ValueError]. *)
Definition np_sub (a b : list float) : result (list float) :=
  if (length a =? length b)%nat then Ok (zip_with sub a b)
  else match a, b with
       | [x], _ => Ok (map (fun y => x - y) b)
       | _, [y] => Ok (map (fun x => x - y) a)
       | _, _ => Raise ValueError
       end.

(** [np.vstack((a, b)).T]: the rows [(a[j], b[j])]; the two arrays must have
    the same length. *)
Definition vstack_T (a b : list float) : result (list (float * float)) :=
  if (length a =? length b)%nat then Ok (zip a b) else Raise ValueError.

(** ** The scalers (scikit-learn's [MinMaxScaler], already fitted)

    [transform] and [inverse_transform] validate their input before they
    compute: an array without rows or an array that holds an infinity is
    rejected with a [ValueError]; NaN is accepted.  Keras answers in single
    precision and the scaler then unscales in single precision; here the
    unscaling is done in double precision, and the validation is as in the
    library. *)

Module Scaler.

Record feature : Type := mk_feature { scale_ : float; min_ : float }.

Definition transform1 (f : feature) (x : float) : float :=
  x * scale_ f + min_ f.

Definition inverse_transform1 (f : feature) (x : float) : float :=
  (x - min_ f) / scale_ f.

(** The input scaler has the two features [Tsp] and [err]. *)
Definition transform_row (s : feature * feature) (r : float * float)
  : float * float :=
  (transform1 (fst s) (fst r), transform1 (snd s) (snd r)).

(** The validation: no entry of the array is infinite. *)
Definition row_finite (r : float * float) : bool :=
  negb (is_infinity (fst r)) && negb (is_infinity (snd r)).

Definition transform (s : feature * feature) (X : list (float * float))
  : result (list (float * float)) :=
  match X with
  | [] => Raise ValueError
  | _ => if forallb row_finite X then Ok (map (transform_row s) X)
         else Raise ValueError
  end.

(** [inverse_transform] on the one-by-one array that holds [x]. *)
Definition inverse_transform (f : feature) (x : float) : result float :=
  if is_infinity x then Raise ValueError else Ok (inverse_transform1 f x).

End Scaler.

(** ** The notebook's state and its effects *)

Inductive event : Type :=
| Tick (t : float)
| ReadT1 (v : float)
| CallPid (sp pv pv_last ierr dt : float)
| WriteQ1 (q : float)
| Predict (Xs : list (float * float)).

Record nb : Type := mk_nb {
  T1 : list float;
  Q1 : list float;
  Qpid : list float;
  Qlstm : list float;
  tm : list float;
  Tsp1 : list float;
  Tsp : list float;
  ierr : float;
  iae : float;
  prev_time : float;
  log : list event
}.

Definition get_var (x : var) (s : nb) : list float :=
  match x with
  | vT1 => T1 s | vQ1 => Q1 s | vQpid => Qpid s | vQlstm => Qlstm s
  | vtm => tm s | vTsp1 => Tsp1 s | vTsp => Tsp s
  end.

Definition set_var (x : var) (a : list float) (s : nb) : nb :=
  match x with
  | vT1 => mk_nb a (Q1 s) (Qpid s) (Qlstm s) (tm s) (Tsp1 s) (Tsp s)
                 (ierr s) (iae s) (prev_time s) (log s)
  | vQ1 => mk_nb (T1 s) a (Qpid s) (Qlstm s) (tm s) (Tsp1 s) (Tsp s)
                 (ierr s) (iae s) (prev_time s) (log s)
  | vQpid => mk_nb (T1 s) (Q1 s) a (Qlstm s) (tm s) (Tsp1 s) (Tsp s)
                   (ierr s) (iae s) (prev_time s) (log s)
  | vQlstm => mk_nb (T1 s) (Q1 s) (Qpid s) a (tm s) (Tsp1 s) (Tsp s)
                    (ierr s) (iae s) (prev_time s) (log s)
  | vtm => mk_nb (T1 s) (Q1 s) (Qpid s) (Qlstm s) a (Tsp1 s) (Tsp s)
                 (ierr s) (iae s) (prev_time s) (log s)
  | vTsp1 => mk_nb (T1 s) (Q1 s) (Qpid s) (Qlstm s) (tm s) a (Tsp s)
                   (ierr s) (iae s) (prev_time s) (log s)
  | vTsp => mk_nb (T1 s) (Q1 s) (Qpid s) (Qlstm s) (tm s) (Tsp1 s) a
                  (ierr s) (iae s) (prev_time s) (log s)
  end.

Definition set_ierr (v : float) (s : nb) : nb :=
  mk_nb (T1 s) (Q1 s) (Qpid s) (Qlstm s) (tm s) (Tsp1 s) (Tsp s)
        v (iae s) (prev_time s) (log s).

Definition set_iae (v : float) (s : nb) : nb :=
  mk_nb (T1 s) (Q1 s) (Qpid s) (Qlstm s) (tm s) (Tsp1 s) (Tsp s)
        (ierr s) v (prev_time s) (log s).

Definition set_prev_time (v : float) (s : nb) : nb :=
  mk_nb (T1 s) (Q1 s) (Qpid s) (Qlstm s) (tm s) (Tsp1 s) (Tsp s)
        (ierr s) (iae s) v (log s).

Definition set_log (l : list event) (s : nb) : nb :=
  mk_nb (T1 s) (Q1 s) (Qpid s) (Qlstm s) (tm s) (Tsp1 s) (Tsp s)
        (ierr s) (iae s) (prev_time s) l.

(** A statement of the notebook: it changes the globals and either completes
    with a value or raises. *)
Definition M (A : Type) : Type := nb -> result A * nb.

#[export] Instance M_ret : MRet M := fun A a s => (Ok a, s).

#[export] Instance M_bind : MBind M :=
  fun A B (k : A -> M B) (m : M A) s =>
    match m s with
    | (Ok a, s') => k a s'
    | (Raise e, s') => (Raise e, s')
    end.

Definition lift {A : Type} (r : result A) : M A := fun s => (r, s).

Definition gets {A : Type} (f : nb -> A) : M A := fun s => (Ok (f s), s).

Definition modify (f : nb -> nb) : M unit := fun s => (Ok tt, f s).

Definition emit (e : event) : M unit :=
  modify (fun s => set_log (e :: log s) s).

Definition getitem (x : var) (i : Z) : M float :=
  a ← gets (get_var x); lift (PyArr.getitem a i).

Definition setitem (x : var) (i : Z) (v : float) : M unit :=
  a ← gets (get_var x);
  a' ← lift (PyArr.setitem a i v);
  modify (set_var x a').

Definition getslice (x : var) (start stop : Z) : M (list float) :=
  a ← gets (get_var x); mret (PyArr.getslice a start stop).

(** What the process can depend on: the ticks and the heater commands. *)
Definition plant_visible (e : event) : bool :=
  match e with
  | Tick _ | WriteQ1 _ => true
  | _ => false
  end.

Definition plant_view (l : list event) : list event :=
  List.filter plant_visible l.

(** The heater commands of a log, most recent first. *)
Definition heater_writes (l : list event) : list float :=
  omap (fun e => match e with WriteQ1 q => Some q | _ => None end) l.

(** The windows given to the model, most recent first. *)
Definition model_inputs (l : list event) : list (list (float * float)) :=
  omap (fun e => match e with Predict Xs => Some Xs | _ => None end) l.

Fixpoint for_enumerate (body : nat -> float -> M unit) (i : nat)
    (clock : list float) : M unit :=
  match clock with
  | [] => mret tt
  | t :: clock' =>
      _ ← emit (Tick t);
      _ ← body i t;
      for_enumerate body (S i) clock'
  end.

(** ** The sequence-model controller and the clocked loops *)

Section Notebook.

(** The process and the trained model.  The model answers with any double:
    a number, an infinity or NaN. *)
Variable sensor : list event -> float.
Variable predict : list (float * float) -> float.

(** The fitted scalers [s_x] and [s_y]. *)
Variable s_x : Scaler.feature * Scaler.feature.
Variable s_y : Scaler.feature.

(** [window = 15] in the notebook. *)
Variable window : nat.

Definition open_lab : M unit := modify (set_log []).

(** [lab.T1] *)
Definition lab_T1 : M float :=
  l ← gets log;
  let v := sensor (plant_view l) in
  _ ← emit (ReadT1 v);
  mret v.

(** [lab.Q1(q)] *)
Definition lab_Q1 (q : float) : M unit := emit (WriteQ1 q).

(** [model.predict(Xs)] *)
Definition model_predict (Xs : list (float * float)) : M float :=
  _ ← emit (Predict Xs);
  mret (predict Xs).

(** A call of [pid] from a loop. *)
Definition call_pid (sp pv pv_last ierr dt : float) : M output :=
  _ ← emit (CallPid sp pv pv_last ierr dt);
  lift (pid sp pv pv_last ierr dt).

(** The LSTM controller (cell "Part A"). *)
Definition lstm (T1_m Tsp_m : list float) : M float :=
  (* Calculate error (necessary feature for LSTM input) *)
  err ← lift (np_sub Tsp_m T1_m);
  (* Format data for LSTM input *)
  X ← lift (vstack_T Tsp_m err);
  Xs ← lift (Scaler.transform s_x X);
  (* Predict Q for controller and unscale *)
  Q1c_s ← model_predict Xs;
  Q1c ← lift (Scaler.inverse_transform s_y Q1c_s);
  (* Ensure Q1c is between 0 and 100 *)
  let Q1c := np_clip Q1c 0 100 in
  mret Q1c.

(** The body of the data collection loop. *)
Definition collect_tick (i : nat) (t : float) : M unit :=
  let i := Z.of_nat i in
  _ ← setitem vtm i t;
  pt ← gets prev_time;
  let dt := t - pt in
  v ← lab_T1;
  _ ← setitem vT1 i v;
  (* Integral absolute error *)
  sp ← getitem vTsp1 i;
  pv ← getitem vT1 i;
  _ ← modify (fun s => set_iae (iae s + abs (sp - pv)) s);
  (* Calculate PID output *)
  sp ← getitem vTsp1 i;
  pv ← getitem vT1 i;
  pv_last ← getitem vT1 (i - 1);
  ie ← gets ierr;
  r ← call_pid sp pv pv_last ie dt;
  _ ← setitem vQ1 i (op r);
  _ ← modify (set_ierr (I r));
  (* Write heater output (0-100) *)
  q ← getitem vQ1 i;
  _ ← lab_Q1 q;
  modify (set_prev_time t).

(** [Qlstm[i] = lstm(T1[i-window:i], Tsp[i-window:i])] under the guard
    [if i >= window:]. *)
Definition run_lstm (i : nat) : M unit :=
  if (window <=? i)%nat then
    let i := Z.of_nat i in
    (* Load data for model *)
    T1_m ← getslice vT1 (i - Z.of_nat window) i;
    Tsp_m ← getslice vTsp (i - Z.of_nat window) i;
    (* Predict and store LSTM value for comparison *)
    q ← lstm T1_m Tsp_m;
    setitem vQlstm i q
  else mret tt.

(** The body of the loop of Part A. *)
Definition partA_tick (i : nat) (t : float) : M unit :=
  let iz := Z.of_nat i in
  _ ← setitem vtm iz t;
  pt ← gets prev_time;
  let dt := t - pt in
  (* Read temperature (C) *)
  v ← lab_T1;
  _ ← setitem vT1 iz v;
  (* Integral absolute error *)
  sp ← getitem vTsp iz;
  pv ← getitem vT1 iz;
  _ ← modify (fun s => set_iae (iae s + abs (sp - pv)) s);
  (* Calculate PID output *)
  sp ← getitem vTsp iz;
  pv ← getitem vT1 iz;
  pv_last ← getitem vT1 (iz - 1);
  ie ← gets ierr;
  r ← call_pid sp pv pv_last ie dt;
  _ ← setitem vQpid iz (op r);
  _ ← modify (set_ierr (I r));
  (* Write heater output (0-100) *)
  q ← getitem vQpid iz;
  _ ← lab_Q1 q;
  (* Run LSTM model to get Q1 value for control *)
  _ ← run_lstm i;
  modify (set_prev_time t).

(** The body of the loop of Part B. *)
Definition partB_tick (i : nat) (t : float) : M unit :=
  let iz := Z.of_nat i in
  _ ← setitem vtm iz t;
  (* Read temperature (C) *)
  v ← lab_T1;
  _ ← setitem vT1 iz v;
  (* Run LSTM model to get Q1 value for control *)
  _ ← run_lstm i;
  (* Write heater output (0-100) *)
  q ← getitem vQlstm iz;
  _ ← lab_Q1 q;
  modify (set_prev_time t).

Definition data_collection (clock : list float) : M unit :=
  _ ← open_lab;
  _ ← modify (set_ierr 0);
  _ ← modify (set_iae 0);
  _ ← modify (set_prev_time 0);
  for_enumerate collect_tick 0 clock.

Definition partA (clock : list float) : M unit :=
  _ ← open_lab;
  _ ← modify (set_ierr 0);
  _ ← modify (set_iae 0);
  _ ← modify (set_prev_time 0);
  for_enumerate partA_tick 0 clock.

Definition partB (clock : list float) : M unit :=
  _ ← open_lab;
  _ ← modify (set_prev_time 0);
  for_enumerate partB_tick 0 clock.

End Notebook.

(** ** The vocabulary of the properties over doubles *)

Definition wp {A : Type} (m : M A) (Q : result A -> nb -> Prop) (s : nb)
  : Prop :=
  Q (fst (m s)) (snd (m s)).

(** The state in which the loop of Part A and of Part B starts. *)
Definition partA_start (s : nb) : nb :=
  set_prev_time 0 (set_iae 0 (set_ierr 0 (set_log [] s))).

Definition partB_start (s : nb) : nb := set_prev_time 0 (set_log [] s).

(** Every event of a log satisfies [ok] with the event before it. *)
Definition follows (ok : event -> option event -> Prop) (l : list event)
  : Prop :=
  forall l2 e l1, l = l2 ++ e :: l1 -> ok e (head l1).

(** Part A: a heater command is the output of the [pid] call just before it,
    and the model is invoked only right after a heater command. *)
Definition okA (e : event) (prev : option event) : Prop :=
  match e with
  | WriteQ1 q =>
      exists sp pv pv_last ie dt r,
        prev = Some (CallPid sp pv pv_last ie dt) /\
        pid sp pv pv_last ie dt = Ok r /\ q = op r
  | Predict _ => exists q, prev = Some (WriteQ1 q)
  | _ => True
  end.

(** What a tick that calls [pid] leaves behind, given the set point [sp],
    the measurement [pv] and the previous measurement [pv_last] of the call:
    the state [s'] carries the integral and [q] is the heater level.  When
    the raw output is below 0 or above 100 the integral is the one the tick
    started with, with the increment added and subtracted again, and the
    level is the bound that was crossed; otherwise the integral has grown by
    the increment and the level is the raw output. *)
Definition tick_integral (s s' : nb) (dt sp pv pv_last q : float) : Prop :=
  let raw := raw_output sp pv pv_last (ierr s) dt in
  let inc := increment sp pv dt in
  (out_of_bounds raw = true ->
   ierr s' = ierr s + inc - inc
   /\ ((raw <? 0) = true -> q = 0) /\ ((100 <? raw) = true -> q = 100))
  /\ (out_of_bounds raw = false -> ierr s' = ierr s + inc /\ q = raw).

(** A heater level that is NaN or lies in [0,100]. *)
Definition in_range_or_nan (q : float) : Prop :=
  is_nan q = true \/ ((0 <=? q) = true /\ (q <=? 100) = true).

(** The events a run shares with a run that has another model. *)
Definition not_predict (e : event) : bool :=
  match e with
  | Predict _ => false
  | _ => true
  end.

Definition erase (l : list event) : list event := List.filter not_predict l.

(** Two states that differ in what the model produced only: the array
    [Qlstm] and the [Predict] events of the log. *)
Definition agree (s1 s2 : nb) : Prop :=
  T1 s1 = T1 s2 /\ Q1 s1 = Q1 s2 /\ Qpid s1 = Qpid s2 /\
  length (Qlstm s1) = length (Qlstm s2) /\
  tm s1 = tm s2 /\ Tsp1 s1 = Tsp1 s2 /\ Tsp s1 = Tsp s2 /\
  ierr s1 = ierr s2 /\ iae s1 = iae s2 /\ prev_time s1 = prev_time s2 /\
  erase (log s1) = erase (log s2).

(** Two statements that keep two such states in step. *)
Definition sim {A : Type} (R : A -> A -> Prop) (m1 m2 : M A) : Prop :=
  forall s1 s2, agree s1 s2 ->
    agree (snd (m1 s1)) (snd (m2 s2)) /\
    match fst (m1 s1), fst (m2 s2) with
    | Ok a1, Ok a2 => R a1 a2
    | Raise e1, Raise e2 => e1 = e2
    | _, _ => False
    end.

(** Two states that agree but for [prev_time], which a tick sets last. *)
Definition agree_but_time (s1 s2 : nb) : Prop :=
  agree (set_prev_time 0 s1) (set_prev_time 0 s2).

(** Two ticks of which one may be ended by its model: what the ticks share
    stays in step whatever the model does, the states agree when both ticks
    complete, and the outcomes differ only when one of them is the
    [ValueError] raised on the model's answer. *)
Definition sim_until_model (m1 m2 : M unit) : Prop :=
  forall s1 s2, agree s1 s2 ->
    agree_but_time (snd (m1 s1)) (snd (m2 s2)) /\
    (fst (m1 s1) = Ok tt -> fst (m2 s2) = Ok tt ->
     agree (snd (m1 s1)) (snd (m2 s2))) /\
    (fst (m1 s1) = fst (m2 s2) \/ fst (m1 s1) = Raise ValueError \/
     fst (m2 s2) = Raise ValueError).

End Ieee.

(** * Properties *)

(** ** Comparisons, clipping and division *)

Lemma Qlt_bool_iff (x y : Q) : Qlt_bool x y = true <-> x < y.
Proof.
  unfold Qlt_bool. rewrite negb_true_iff, <- not_true_iff_false, Qle_bool_iff.
  split; intros H; lra.
Qed.

Lemma Qlt_bool_false (x y : Q) : Qlt_bool x y = false <-> y <= x.
Proof.
  unfold Qlt_bool. rewrite negb_false_iff, Qle_bool_iff. tauto.
Qed.

Lemma Qle_bool_false (x y : Q) : Qle_bool x y = false <-> y < x.
Proof.
  rewrite <- not_true_iff_false, Qle_bool_iff. split; intros H; lra.
Qed.

Lemma py_min_spec (a b : Q) :
  (b < a /\ py_min a b = b) \/ (a <= b /\ py_min a b = a).
Proof.
  unfold py_min. destruct (Qlt_bool b a) eqn:E.
  - left. apply Qlt_bool_iff in E. auto.
  - right. apply Qlt_bool_false in E. auto.
Qed.

Lemma py_max_spec (a b : Q) :
  (a < b /\ py_max a b = b) \/ (b <= a /\ py_max a b = a).
Proof.
  unfold py_max. destruct (Qlt_bool a b) eqn:E.
  - left. apply Qlt_bool_iff in E. auto.
  - right. apply Qlt_bool_false in E. auto.
Qed.

Lemma np_clip_bounds (x lo hi : Q) :
  lo <= hi -> lo <= np_clip x lo hi /\ np_clip x lo hi <= hi.
Proof.
  intros Hb. unfold np_clip.
  destruct (py_max_spec x lo) as [[H1 E1]|[H1 E1]]; rewrite E1;
    destruct (py_min_spec (if Qlt_bool x lo then lo else x) hi); unfold py_max in *.
  all: destruct (py_min_spec lo hi) as [[H2 E2]|[H2 E2]];
       destruct (py_min_spec x hi) as [[H3 E3]|[H3 E3]];
       try rewrite E2; try rewrite E3; lra.
Qed.

Lemma pydiv_nonzero (x y : Q) : ~ y == 0 -> pydiv x y = Ok (x / y).
Proof.
  intros H. unfold pydiv. destruct (Qeq_bool y 0) eqn:E; [|reflexivity].
  apply Qeq_bool_iff in E. contradiction.
Qed.


Lemma clip_outer_low (x : Q) : x < 0 -> py_max 0 (py_min 100 x) == 0.
Proof.
  intros Hx.
  destruct (py_min_spec 100 x) as [[H1 E1]|[H1 E1]]; [|lra].
  rewrite E1. destruct (py_max_spec 0 x) as [[H2 E2]|[H2 E2]]; [lra|].
  rewrite E2. reflexivity.
Qed.

Lemma clip_outer_high (x : Q) : 100 < x -> py_max 0 (py_min 100 x) == 100.
Proof.
  intros Hx.
  destruct (py_min_spec 100 x) as [[H1 E1]|[H1 E1]]; [lra|].
  rewrite E1. destruct (py_max_spec 0 100) as [[H2 E2]|[H2 E2]]; rewrite E2; lra.
Qed.

(** ** The PID controller, for any tuning with [tauI] different from zero *)

Module PidFacts.

Import Pid.

Section Tuning.

Variables (Kc tauI tauD : Q).
Hypothesis tauI_nonzero : ~ tauI == 0.

Lemma eps_pos : 0 < eps.
Proof. unfold eps. reflexivity. Qed.

Lemma dpv_total (pv pv_last dt : Q) :
  (if Qle_bool eps dt then pydiv (pv - pv_last) dt else Ok 0)
  = Ok (dpv_of pv pv_last dt).
Proof.
  unfold dpv_of. destruct (Qle_bool eps dt) eqn:E; [|reflexivity].
  apply Qle_bool_iff in E. apply pydiv_nonzero.
  pose proof eps_pos. intros H0. rewrite H0 in E. lra.
Qed.

Lemma raw_output_eq (sp pv pv_last ierr dt : Q) :
  raw_output Kc tauI tauD sp pv pv_last ierr dt
  = 0 + Kc * (sp - pv) + (ierr + Kc / tauI * (sp - pv) * dt)
    + - (Kc * tauD) * dpv_of pv pv_last dt.
Proof. reflexivity. Qed.

(** [pid] unfolded: it always returns, and what it returns. *)
Lemma pid_unfold (sp pv pv_last ierr dt : Q) :
  let raw := raw_output Kc tauI tauD sp pv pv_last ierr dt in
  let inc := Kc / tauI * (sp - pv) * dt in
  pid Kc tauI tauD sp pv pv_last ierr dt =
    if Qlt_bool raw 0 || Qlt_bool 100 raw then
      Ok (mk_output (py_max 0 (py_min 100 raw)) (Kc * (sp - pv))
            (ierr + inc - inc) (- (Kc * tauD) * dpv_of pv pv_last dt))
    else
      Ok (mk_output raw (Kc * (sp - pv)) (ierr + inc)
            (- (Kc * tauD) * dpv_of pv pv_last dt)).
Proof.
  intros raw inc. unfold pid.
  rewrite (pydiv_nonzero Kc tauI tauI_nonzero). cbn [mbind result_bind].
  rewrite dpv_total. reflexivity.
Qed.

Lemma pid_total (sp pv pv_last ierr dt : Q) :
  exists r, pid Kc tauI tauD sp pv pv_last ierr dt = Ok r.
Proof.
  rewrite pid_unfold.
  destruct (_ || _); eexists; reflexivity.
Qed.

Lemma saturated_iff (raw : Q) :
  Qlt_bool raw 0 || Qlt_bool 100 raw = true <-> raw < 0 \/ 100 < raw.
Proof. rewrite orb_true_iff, !Qlt_bool_iff. tauto. Qed.


(** Saturated: the integral comes back as it went in, the output is the
    bound that was crossed. *)
Lemma saturated (sp pv pv_last ierr dt : Q) :
  let raw := raw_output Kc tauI tauD sp pv pv_last ierr dt in
  raw < 0 \/ 100 < raw ->
  exists r, pid Kc tauI tauD sp pv pv_last ierr dt = Ok r
            /\ I r == ierr
            /\ (raw < 0 -> op r == 0) /\ (100 < raw -> op r == 100).
Proof.
  intros raw Hsat. rewrite pid_unfold. fold raw.
  apply saturated_iff in Hsat as ->.
  eexists; split; [reflexivity|]. cbn [op I]. split; [ring|].
  split; [apply clip_outer_low | apply clip_outer_high].
Qed.


Lemma terms (sp pv pv_last ierr dt : Q) :
  exists r, pid Kc tauI tauD sp pv pv_last ierr dt = Ok r
            /\ P r = Kc * (sp - pv)
            /\ D r = - (Kc * tauD) * dpv_of pv pv_last dt.
Proof.
  rewrite pid_unfold. destruct (_ || _); eexists; split; try reflexivity;
    cbn [P D]; split; reflexivity.
Qed.


End Tuning.


End PidFacts.

Lemma tauI_nonzero : ~ tauI == 0.
Proof. unfold tauI. intros H. discriminate H. Qed.

(** ** The PID controller as the notebook tunes it *)


(** C6 (near-zero [dt]): a call of [pid] whose [dt] is below [1e-8] does not
    divide by [dt]: the measurement derivative is set to zero, the call
    returns normally and its derivative term is zero.  No call of [pid]
    raises, whatever [dt] is: the division by [dt] is only reached with
    [dt >= 1e-8].  This holds as the notebook is tuned and for any other
    tuning with a non-zero [tauI]. *)
Theorem pid_small_dt :
  (forall sp pv pv_last ierr dt : Q,
     (exists r, pid sp pv pv_last ierr dt = Ok r)
     /\ (dt < Pid.eps ->
         exists r, pid sp pv pv_last ierr dt = Ok r /\ Pid.D r == 0))
  /\
  (forall Kc tauI tauD sp pv pv_last ierr dt : Q,
     ~ tauI == 0 ->
     (exists r, Pid.pid Kc tauI tauD sp pv pv_last ierr dt = Ok r)
     /\ (dt < Pid.eps ->
         Pid.dpv_of pv pv_last dt = 0
         /\ exists r, Pid.pid Kc tauI tauD sp pv pv_last ierr dt = Ok r
                      /\ Pid.D r == 0)).
Proof.
  assert (G : forall Kc tauI tauD sp pv pv_last ierr dt : Q,
     ~ tauI == 0 ->
     (exists r, Pid.pid Kc tauI tauD sp pv pv_last ierr dt = Ok r)
     /\ (dt < Pid.eps ->
         Pid.dpv_of pv pv_last dt = 0
         /\ exists r, Pid.pid Kc tauI tauD sp pv pv_last ierr dt = Ok r
                      /\ Pid.D r == 0)).
  { intros Kc0 tauI0 tauD0 sp pv pv_last ierr dt Hnz. split.
    - apply PidFacts.pid_total, Hnz.
    - intros Hdt.
      assert (Hdpv : Pid.dpv_of pv pv_last dt = 0).
      { unfold Pid.dpv_of. apply Qle_bool_false in Hdt. rewrite Hdt. reflexivity. }
      split; [exact Hdpv|].
      destruct (PidFacts.terms Kc0 tauI0 tauD0 Hnz sp pv pv_last ierr dt)
        as (r & Hr & _ & HD).
      exists r. split; [exact Hr|]. rewrite HD, Hdpv. ring. }
  split; [|exact G].
  intros sp pv pv_last ierr dt.
  destruct (G Kc tauI tauD sp pv pv_last ierr dt tauI_nonzero) as [Ht Hs].
  split; [exact Ht|]. intros Hdt. apply Hs, Hdt.
Qed.

Lemma pid_small_dt_witness :
  (exists r, Pid.pid 2 10 3 40 30 20 5 0 = Ok r)
  /\ Pid.dpv_of 30 20 0 = 0
  /\ exists r, Pid.pid 2 10 3 40 30 20 5 0 = Ok r /\ Pid.D r == 0.
Proof.
  destruct pid_small_dt as [_ G].
  destruct (G 2 10 3 40 30 20 5 0) as [Ht Hs].
  - intros H. discriminate H.
  - split; [exact Ht|]. apply Hs. vm_compute. reflexivity.
Defined.


(** ** The sequence-model controller *)

Section LstmFacts.

Variable predict : list (Q * Q) -> Q.
Variable s_x : Scaler.feature * Scaler.feature.
Variable s_y : Scaler.feature.

(** [lstm] step by step: it raises where the shapes do not fit or the window
    is empty, and otherwise asks the model once and clips the answer. *)
Lemma lstm_run (T1_m Tsp_m : list Q) (s : nb) :
  lstm predict s_x s_y T1_m Tsp_m s =
    match PyArr.np_sub Tsp_m T1_m with
    | Raise e => (Raise e, s)
    | Ok err =>
        match PyArr.vstack_T Tsp_m err with
        | Raise e => (Raise e, s)
        | Ok X =>
            match Scaler.transform s_x X with
            | Raise e => (Raise e, s)
            | Ok Xs =>
                (Ok (np_clip (Scaler.inverse_transform1 s_y (predict Xs)) 0 100),
                 set_log (Predict Xs :: log s) s)
            end
        end
    end.
Proof.
  unfold lstm, lift, model_predict, emit, modify, mbind, M_bind, mret, M_ret.
  destruct (PyArr.np_sub Tsp_m T1_m) as [err|e]; [|reflexivity].
  destruct (PyArr.vstack_T Tsp_m err) as [X|e]; [|reflexivity].
  destruct (Scaler.transform s_x X) as [Xs|e]; reflexivity.
Qed.

Lemma lstm_returned_bounds (T1_m Tsp_m : list Q) (s s' : nb) (q : Q) :
  lstm predict s_x s_y T1_m Tsp_m s = (Ok q, s') -> 0 <= q /\ q <= 100.
Proof.
  rewrite lstm_run.
  destruct (PyArr.np_sub Tsp_m T1_m) as [err|e]; [|discriminate].
  destruct (PyArr.vstack_T Tsp_m err) as [X|e]; [|discriminate].
  destruct (Scaler.transform s_x X) as [Xs|e]; [|discriminate].
  intros H. injection H as <- _. apply np_clip_bounds. lra.
Qed.

Lemma lstm_same_length (T1_m Tsp_m : list Q) (s : nb) :
  length T1_m = length Tsp_m -> Tsp_m <> [] ->
  lstm predict s_x s_y T1_m Tsp_m s =
    (Ok (np_clip (Scaler.inverse_transform1 s_y
                    (predict (window_rows s_x T1_m Tsp_m))) 0 100),
     set_log (Predict (window_rows s_x T1_m Tsp_m) :: log s) s).
Proof.
  intros Hlen Hne. rewrite lstm_run. unfold PyArr.np_sub.
  rewrite <- Hlen, Nat.eqb_refl. unfold PyArr.vstack_T.
  rewrite length_zip_with, <- Hlen, Nat.min_id, Hlen, Nat.eqb_refl.
  unfold Scaler.transform, window_rows.
  destruct Tsp_m as [|x Tsp_m]; [contradiction|].
  destruct T1_m as [|y T1_m]; [discriminate|]. reflexivity.
Qed.

(** When [lstm] gets as far as the model with a window of set points that
    is not longer than the window of measurements, the two have the same
    length, are not empty, and the model is given their rows. *)
Lemma model_input_rows (T1_m Tsp_m err : list Q) (X Xs : list (Q * Q)) :
  PyArr.np_sub Tsp_m T1_m = Ok err ->
  PyArr.vstack_T Tsp_m err = Ok X ->
  Scaler.transform s_x X = Ok Xs ->
  (length Tsp_m <= length T1_m)%nat ->
  length T1_m = length Tsp_m /\ Tsp_m <> [] /\ Xs = window_rows s_x T1_m Tsp_m.
Proof.
  unfold PyArr.np_sub, PyArr.vstack_T.
  destruct (Nat.eqb_spec (length Tsp_m) (length T1_m)) as [Hlen|Hlen].
  - intros [= <-]. rewrite length_zip_with, <- Hlen, Nat.min_id, Nat.eqb_refl.
    intros [= <-]. unfold Scaler.transform, window_rows.
    destruct Tsp_m as [|x Tsp_m].
    + destruct T1_m; discriminate.
    + destruct T1_m as [|y T1_m]; [discriminate|].
      cbn [zip_with]. intros [= <-] _.
      split; [congruence|]. split; [discriminate|reflexivity].
  - destruct Tsp_m as [|x [|x' Tsp_m]].
    + destruct T1_m as [|y [|y' T1_m]]; try discriminate.
      cbn. intros [= <-]. cbn. intros [= <-]. cbn. discriminate.
    + intros [= <-]. rewrite length_map.
      destruct (Nat.eqb_spec (length [x]) (length T1_m)); [contradiction|].
      discriminate.
    + destruct T1_m as [|y [|y' T1_m]]; try discriminate.
      intros _ _ _ Hle. cbn in Hle. lia.
Qed.

End LstmFacts.

(** ** Arrays *)

Section ArrayFacts.

Context {A : Type}.
Implicit Types (a : list A) (i n : nat).

Lemma norm_index_nat n i :
  PyArr.norm_index n (Z.of_nat i) = if (i <? n)%nat then Some i else None.
Proof.
  unfold PyArr.norm_index.
  destruct (Z.ltb_spec (Z.of_nat i) 0) as [H|H]; [lia|].
  destruct (Nat.ltb_spec i n) as [Hi|Hi].
  - destruct (Z.leb_spec 0 (Z.of_nat i)); [|lia].
    destruct (Z.ltb_spec (Z.of_nat i) (Z.of_nat n)); [|lia].
    cbn [andb]. rewrite Nat2Z.id. reflexivity.
  - destruct (Z.ltb_spec (Z.of_nat i) (Z.of_nat n)); [lia|].
    rewrite andb_false_r. reflexivity.
Qed.

(** The index [-1] is the last element. *)
Lemma norm_index_minus_one n :
  PyArr.norm_index n (Z.of_nat 0 - 1)
  = if (0 <? n)%nat then Some (n - 1)%nat else None.
Proof.
  unfold PyArr.norm_index.
  change (Z.of_nat 0 - 1 <? 0)%Z with true. cbv iota.
  change (Z.of_nat 0 - 1)%Z with (-1)%Z.
  destruct (Nat.ltb_spec 0 n) as [Hn|Hn].
  - destruct (Z.leb_spec 0 (-1 + Z.of_nat n)); [|lia].
    destruct (Z.ltb_spec (-1 + Z.of_nat n) (Z.of_nat n)); [|lia].
    cbn [andb]. f_equal. lia.
  - destruct (Z.leb_spec 0 (-1 + Z.of_nat n)); [lia|]. reflexivity.
Qed.

Lemma getitem_nat a i :
  PyArr.getitem a (Z.of_nat i)
  = match a !! i with Some x => Ok x | None => Raise IndexError end.
Proof.
  unfold PyArr.getitem. rewrite norm_index_nat.
  destruct (Nat.ltb_spec i (length a)) as [Hi|Hi]; [reflexivity|].
  rewrite (proj2 (lookup_ge_None a i)) by lia. reflexivity.
Qed.

Lemma getitem_nat_Ok a i x :
  PyArr.getitem a (Z.of_nat i) = Ok x <-> a !! i = Some x.
Proof.
  rewrite getitem_nat. destruct (a !! i); split; intros H;
    try discriminate; congruence.
Qed.

Lemma getitem_minus_one a :
  PyArr.getitem a (Z.of_nat 0 - 1)
  = match a !! (length a - 1)%nat with
    | Some x => Ok x
    | None => Raise IndexError
    end.
Proof.
  unfold PyArr.getitem. rewrite norm_index_minus_one.
  destruct (Nat.ltb_spec 0 (length a)) as [Hn|Hn]; [reflexivity|].
  destruct a; [reflexivity|cbn in Hn; lia].
Qed.

Lemma setitem_nat a i (v : A) :
  PyArr.setitem a (Z.of_nat i) v
  = if (i <? length a)%nat then Ok (<[i:=v]> a) else Raise IndexError.
Proof.
  unfold PyArr.setitem. rewrite norm_index_nat.
  destruct (i <? length a)%nat; reflexivity.
Qed.

Lemma setitem_length a (z : Z) (v : A) a' :
  PyArr.setitem a z v = Ok a' -> length a' = length a.
Proof.
  unfold PyArr.setitem. destruct (PyArr.norm_index (length a) z); [|discriminate].
  intros H. injection H as <-. apply length_insert.
Qed.

Lemma slice_bound_nat n i : PyArr.slice_bound n (Z.of_nat i) = Nat.min i n.
Proof.
  unfold PyArr.slice_bound.
  destruct (Z.ltb_spec (Z.of_nat i) 0); [lia|]. rewrite Nat2Z.id. reflexivity.
Qed.

Lemma slice_bound_le n (z : Z) : (PyArr.slice_bound n z <= n)%nat.
Proof.
  unfold PyArr.slice_bound. destruct (Z.ltb_spec z 0); lia.
Qed.

(** [a[i-w:i]] for [w <= i]: the elements of the array with an index from
    [i-w] up to, and excluding, [i]. *)
Lemma getslice_window a (w i : nat) :
  (w <= i)%nat ->
  PyArr.getslice a (Z.of_nat i - Z.of_nat w) (Z.of_nat i)
  = take w (drop (i - w) a).
Proof.
  intros Hw. unfold PyArr.getslice.
  replace (Z.of_nat i - Z.of_nat w)%Z with (Z.of_nat (i - w)) by lia.
  rewrite !slice_bound_nat.
  destruct (Nat.le_gt_cases i (length a)) as [Hi|Hi].
  - replace (Nat.min (i - w) (length a)) with (i - w)%nat by lia.
    replace (Nat.min i (length a)) with i by lia.
    f_equal. lia.
  - destruct (Nat.le_gt_cases (i - w) (length a)) as [Hl|Hl].
    + replace (Nat.min (i - w) (length a)) with (i - w)%nat by lia.
      replace (Nat.min i (length a)) with (length a) by lia.
      rewrite !take_ge by (rewrite length_drop; lia). reflexivity.
    + replace (Nat.min (i - w) (length a)) with (length a) by lia.
      replace (Nat.min i (length a)) with (length a) by lia.
      rewrite Nat.sub_diag, take_0, (drop_ge a (i - w)) by lia.
      destruct w; reflexivity.
Qed.

Lemma window_length a (w i : nat) :
  (w <= i)%nat -> (i <= length a)%nat ->
  length (take w (drop (i - w) a)) = w.
Proof. intros Hw Hi. rewrite length_take, length_drop. lia. Qed.

Lemma window_length_le a (w i : nat) :
  (length (take w (drop (i - w) a)) <= w)%nat.
Proof. rewrite length_take. lia. Qed.

Lemma window_full a (w i : nat) :
  (w <= i)%nat -> (0 < w)%nat ->
  length (take w (drop (i - w) a)) = w -> (i <= length a)%nat.
Proof. intros Hw Hp. rewrite length_take, length_drop. lia. Qed.

Lemma window_lookup a (w i k : nat) :
  (k < w)%nat -> take w (drop (i - w) a) !! k = a !! (i - w + k)%nat.
Proof.
  intros Hk. rewrite lookup_take_lt by assumption. apply lookup_drop.
Qed.

(** The element written at index [i] is not part of the window before [i]. *)
Lemma window_insert a (w i : nat) (v : A) :
  (w <= i)%nat ->
  take w (drop (i - w) (<[i:=v]> a)) = take w (drop (i - w) a).
Proof.
  intros Hw. rewrite drop_insert_ge by lia.
  apply take_insert_ge. lia.
Qed.

Lemma setslice_length a (start stop : Z) (v : A) :
  length (PyArr.setslice a start stop v) = length a.
Proof.
  unfold PyArr.setslice.
  set (lo := PyArr.slice_bound (length a) start).
  set (hi := PyArr.slice_bound (length a) stop).
  assert (Hlo : (lo <= length a)%nat) by apply slice_bound_le.
  assert (Hhi : (hi <= length a)%nat) by apply slice_bound_le.
  rewrite !length_app, length_take, length_replicate, length_drop. lia.
Qed.

(** [a[start:stop] = v] with natural bounds: the elements from [start] up
    to, and excluding, [stop] become [v], as far as the array reaches. *)
Lemma setslice_lookup a (start stop j : nat) (v : A) :
  PyArr.setslice a (Z.of_nat start) (Z.of_nat stop) v !! j
  = if ((start <=? j) && (j <? stop) && (j <? length a))%nat
    then Some v else a !! j.
Proof.
  destruct (Nat.ltb_spec j (length a)) as [Hj|Hj].
  - rewrite andb_true_r.
    unfold PyArr.setslice. rewrite !slice_bound_nat.
    set (lo := Nat.min start (length a)).
    set (hi := Nat.min stop (length a)).
    destruct (Nat.leb_spec start j) as [Hs|Hs]; cbn [andb].
    + destruct (Nat.ltb_spec j stop) as [He|He].
      * rewrite lookup_app_r by (rewrite length_take; lia).
        rewrite length_take.
        rewrite lookup_app_l by (rewrite length_replicate; lia).
        apply lookup_replicate_2. lia.
      * rewrite lookup_app_r by (rewrite length_take; lia).
        rewrite length_take.
        rewrite lookup_app_r by (rewrite length_replicate; lia).
        rewrite length_replicate, lookup_drop. f_equal. lia.
    + rewrite lookup_app_l by (rewrite length_take; lia).
      apply lookup_take_lt. lia.
  - rewrite andb_false_r.
    rewrite (proj2 (lookup_ge_None a j)) by lia.
    apply lookup_ge_None. rewrite setslice_length. lia.
Qed.

(** [a[start:] = v] with a negative [start]: the last [-start] elements
    become [v]. *)
Lemma setslice_from_length a (start : Z) (v : A) :
  length (PyArr.setslice_from a start v) = length a.
Proof. apply setslice_length. Qed.

Lemma setslice_from_back_lookup a (back j : nat) (v : A) :
  (0 < back)%nat ->
  PyArr.setslice_from a (- Z.of_nat back) v !! j
  = if ((length a - back <=? j) && (j <? length a))%nat
    then Some v else a !! j.
Proof.
  intros Hb. unfold PyArr.setslice_from, PyArr.setslice.
  rewrite slice_bound_nat, Nat.min_id.
  assert (Hlo : PyArr.slice_bound (length a) (- Z.of_nat back)
                = (length a - back)%nat).
  { unfold PyArr.slice_bound.
    destruct (Z.ltb_spec (- Z.of_nat back) 0); lia. }
  rewrite Hlo.
  destruct (Nat.ltb_spec j (length a)) as [Hj|Hj].
  - rewrite andb_true_r. destruct (Nat.leb_spec (length a - back) j) as [Hs|Hs].
    + rewrite lookup_app_r by (rewrite length_take; lia).
      rewrite length_take.
      rewrite lookup_app_l by (rewrite length_replicate; lia).
      apply lookup_replicate_2. lia.
    + rewrite lookup_app_l by (rewrite length_take; lia).
      apply lookup_take_lt. lia.
  - rewrite andb_false_r.
    rewrite (proj2 (lookup_ge_None a j)) by lia.
    apply lookup_ge_None.
    rewrite !length_app, length_take, length_replicate, length_drop. lia.
Qed.

End ArrayFacts.

(** ** The set point schedules *)

Section ScheduleFacts.

Variable rnd : nat -> nat.

Lemma randint_range (lo hi r : nat) :
  (lo <= hi)%nat -> (lo <= randint lo hi r /\ randint lo hi r <= hi)%nat.
Proof.
  intros H. unfold randint.
  pose proof (Nat.mod_upper_bound r (hi - lo + 1)). lia.
Qed.

Lemma hold_duration_range (k m : nat) :
  (240 <= hold_duration rnd k m /\ hold_duration rnd k m <= 600)%nat.
Proof. apply randint_range. lia. Qed.

Lemma hold_level_range (k m : nat) :
  30 <= hold_level rnd k m /\ hold_level rnd k m <= 70.
Proof.
  unfold hold_level.
  destruct (randint_range 30 70 (rnd (S (k + 2 * m)))) as [H1 H2]; [lia|].
  split.
  - change 30 with (inject_Z (Z.of_nat 30)). rewrite <- Zle_Qle. lia.
  - change 70 with (inject_Z (Z.of_nat 70)). rewrite <- Zle_Qle. lia.
Qed.

Lemma hold_start_shift (e0 k m : nat) :
  hold_start rnd e0 k (S m)
  = hold_start rnd (e0 + randint 240 600 (rnd k)) (S (S k)) m.
Proof.
  induction m as [|m IH].
  - cbn [hold_start]. unfold hold_duration. rewrite Nat.mul_0_r, Nat.add_0_r.
    reflexivity.
  - change (hold_start rnd e0 k (S (S m)))
      with (hold_start rnd e0 k (S m) + hold_duration rnd k (S m))%nat.
    rewrite IH. cbn [hold_start]. f_equal.
    unfold hold_duration. do 2 f_equal. lia.
Qed.

Lemma hold_level_shift (k m : nat) :
  hold_level rnd k (S m) = hold_level rnd (S (S k)) m.
Proof. unfold hold_level. do 4 f_equal. lia. Qed.

Lemma hold_start_ge (e0 k m : nat) : (e0 <= hold_start rnd e0 k m)%nat.
Proof. induction m; cbn [hold_start]; lia. Qed.

(** What the loop does to the array: elements before [end] are kept, and
    from [end] on each element below [loops] holds the level of the hold it
    falls in. *)
Lemma vary_setpoint_spec (loops e k : nat) (a : list Q) :
  length (vary_setpoint loops rnd e k a) = length a
  /\ (forall j, (j < e)%nat -> vary_setpoint loops rnd e k a !! j = a !! j)
  /\ (forall m j,
        (hold_start rnd e k m <= j < hold_start rnd e k (S m))%nat ->
        (j < loops)%nat -> (j < length a)%nat ->
        vary_setpoint loops rnd e k a !! j = Some (hold_level rnd k m)).
Proof.
  funelim (vary_setpoint loops rnd e k a).
  - destruct H as (Hlen & Hpre & Hseg).
    rewrite setslice_length in Hlen, Hseg.
    assert (Hend : (end_ < end_ + randint 240 600 (rnd k))%nat).
    { pose proof (randint_range 240 600 (rnd k)). lia. }
    split; [exact Hlen|]. split.
    + intros j Hj. rewrite Hpre by lia.
      rewrite setslice_lookup.
      destruct (Nat.leb_spec end_ j); [lia|]. reflexivity.
    + intros [|m] j Hj Hloops Hja.
      * cbn [hold_start] in Hj. unfold hold_duration in Hj.
        rewrite Nat.mul_0_r, Nat.add_0_r in Hj.
        rewrite Hpre by lia. rewrite setslice_lookup.
        destruct (Nat.leb_spec end_ j); [|lia].
        destruct (Nat.ltb_spec j (end_ + randint 240 600 (rnd k))); [|lia].
        destruct (Nat.ltb_spec j (length a)); [|lia].
        cbn [andb]. unfold hold_level.
        rewrite Nat.mul_0_r, Nat.add_0_r. reflexivity.
      * rewrite (hold_start_shift end_ k (S m)), (hold_start_shift end_ k m) in Hj.
        rewrite hold_level_shift. apply Hseg; assumption.
  - split; [reflexivity|]. split; [reflexivity|].
    intros m j Hj Hloops _. pose proof (hold_start_ge end_ k m). lia.
Qed.

(** The training schedule [Tsp1], for every run length: its length is the
    run length, the first 30 elements (or all of them, in a shorter run)
    hold the room temperature, and each later element holds the level of
    the hold it falls in.  The hold that is still running at the end of the
    run is cut at the run length. *)
Lemma Tsp1_schedule_spec (loops : nat) (room : Q) :
  let a := Tsp1_schedule loops room rnd in
  length a = loops
  /\ (forall j, (j < 30)%nat -> (j < loops)%nat -> a !! j = Some (1 * room))
  /\ (forall m j,
        (hold_start rnd 30 0 m <= j < hold_start rnd 30 0 (S m))%nat ->
        (j < loops)%nat -> a !! j = Some (hold_level rnd 0 m))
  /\ (forall m,
        (hold_start rnd 30 0 m <= loops < hold_start rnd 30 0 (S m))%nat ->
        drop (hold_start rnd 30 0 m) a
        = replicate (loops - hold_start rnd 30 0 m) (hold_level rnd 0 m)).
Proof.
  intros a. unfold a, Tsp1_schedule.
  destruct (vary_setpoint_spec loops 30 0 (replicate loops (1 * room)))
    as (Hlen & Hpre & Hseg).
  rewrite length_replicate in Hlen, Hseg.
  split; [exact Hlen|]. split; [|split].
  - intros j Hj Hl. rewrite Hpre by exact Hj. apply lookup_replicate_2, Hl.
  - intros m j Hj Hl. apply Hseg; assumption.
  - intros m Hm. apply list_eq. intros j.
    rewrite lookup_drop.
    destruct (Nat.lt_ge_cases j (loops - hold_start rnd 30 0 m)) as [Hj|Hj].
    + rewrite lookup_replicate_2 by exact Hj. apply Hseg; lia.
    + rewrite (proj2 (lookup_ge_None _ _)) by (rewrite Hlen; lia).
      symmetry. apply lookup_ge_None. rewrite length_replicate. lia.
Qed.

(** The test schedule [Tsp], for every run of at least one tick: its length
    is the run length, the first [window + 15] elements and the last 120
    hold the room temperature, and each element in between holds the level
    of the hold it falls in. *)
Lemma Tsp_schedule_spec (window loops : nat) (room : Q) :
  (0 < loops)%nat ->
  exists a, Tsp_schedule window loops room rnd = Ok a
    /\ length a = loops
    /\ (forall j, (j < window + 15)%nat -> (j < loops)%nat ->
                  a !! j = Some (1 * room))
    /\ (forall j, (loops - 120 <= j)%nat -> (j < loops)%nat ->
                  a !! j = Some (1 * room))
    /\ (forall m j,
          (hold_start rnd (window + 15) 0 m <= j
           < hold_start rnd (window + 15) 0 (S m))%nat ->
          (j < loops - 120)%nat -> a !! j = Some (hold_level rnd 0 m)).
Proof.
  intros Hpos. unfold Tsp_schedule.
  destruct (vary_setpoint_spec loops (window + 15) 0 (replicate loops (1 * room)))
    as (Hlen & Hpre & Hseg).
  rewrite length_replicate in Hlen, Hseg.
  set (b := vary_setpoint loops rnd (window + 15) 0 (replicate loops (1 * room)))
    in *.
  assert (H0 : b !! 0%nat = Some (1 * room)).
  { rewrite Hpre by lia. apply lookup_replicate_2, Hpos. }
  change 0%Z with (Z.of_nat 0). rewrite getitem_nat, H0.
  cbn [mbind result_bind].
  eexists. split; [reflexivity|].
  change (-120)%Z with (- Z.of_nat 120)%Z.
  split; [rewrite setslice_from_length; exact Hlen|].
  split; [|split].
  - intros j Hj Hl. rewrite setslice_from_back_lookup by lia. rewrite Hlen.
    destruct (_ && _); [reflexivity|].
    rewrite Hpre by exact Hj. apply lookup_replicate_2, Hl.
  - intros j Hj Hl. rewrite setslice_from_back_lookup by lia. rewrite Hlen.
    destruct (Nat.leb_spec (loops - 120) j); [|lia].
    destruct (Nat.ltb_spec j loops); [|lia]. reflexivity.
  - intros m j Hj Hl. rewrite setslice_from_back_lookup by lia. rewrite Hlen.
    destruct (Nat.leb_spec (loops - 120) j); [lia|]. cbn [andb].
    apply Hseg; [exact Hj|lia|lia].
Qed.

(** A run of no tick at all: [Tsp[0]] does not exist. *)
Lemma Tsp_schedule_no_tick (window : nat) (room : Q) :
  Tsp_schedule window 0 room rnd = Raise IndexError.
Proof.
  unfold Tsp_schedule.
  destruct (vary_setpoint_spec 0 (window + 15) 0 (replicate 0 (1 * room)))
    as (Hlen & _ & _).
  destruct (vary_setpoint 0 rnd (window + 15) 0 (replicate 0 (1 * room)));
    [reflexivity|discriminate Hlen].
Qed.

End ScheduleFacts.

(** ** Reasoning about statements of the notebook *)

Section WpRules.

Context {A B : Type}.

Lemma wp_bind (m : M A) (k : A -> M B) (Q : result B -> nb -> Prop) (s : nb) :
  wp m (fun r s' => match r with
                    | Ok a => wp (k a) Q s'
                    | Raise e => Q (Raise e) s'
                    end) s ->
  wp (m ≫= k) Q s.
Proof.
  unfold wp, mbind, M_bind. destruct (m s) as [[a|e] s']; cbn; auto.
Qed.

Lemma wp_ret (a : A) (Q : result A -> nb -> Prop) (s : nb) :
  Q (Ok a) s -> wp (mret a) Q s.
Proof. auto. Qed.

Lemma wp_lift (r : result A) (Q : result A -> nb -> Prop) (s : nb) :
  Q r s -> wp (lift r) Q s.
Proof. auto. Qed.

Lemma wp_gets (f : nb -> A) (Q : result A -> nb -> Prop) (s : nb) :
  Q (Ok (f s)) s -> wp (gets f) Q s.
Proof. auto. Qed.

End WpRules.

Lemma wp_modify (f : nb -> nb) (Q : result unit -> nb -> Prop) (s : nb) :
  Q (Ok tt) (f s) -> wp (modify f) Q s.
Proof. auto. Qed.

Lemma wp_emit (e : event) (Q : result unit -> nb -> Prop) (s : nb) :
  Q (Ok tt) (set_log (e :: log s) s) -> wp (emit e) Q s.
Proof. auto. Qed.

Lemma wp_getitem (x : var) (i : Z) (Q : result Q -> nb -> Prop) (s : nb) :
  Q (PyArr.getitem (get_var x s) i) s -> wp (getitem x i) Q s.
Proof. auto. Qed.

Lemma wp_setitem (x : var) (i : Z) (v : Q) (Q : result unit -> nb -> Prop) (s : nb) :
  match PyArr.setitem (get_var x s) i v with
  | Ok a' => Q (Ok tt) (set_var x a' s)
  | Raise e => Q (Raise e) s
  end ->
  wp (setitem x i v) Q s.
Proof.
  unfold wp, setitem, gets, lift, modify, mbind, M_bind.
  destruct (PyArr.setitem (get_var x s) i v); auto.
Qed.

Lemma wp_getslice (x : var) (lo hi : Z) (Q : result (list Q) -> nb -> Prop) (s : nb) :
  Q (Ok (PyArr.getslice (get_var x s) lo hi)) s -> wp (getslice x lo hi) Q s.
Proof. auto. Qed.

Lemma wp_lab_T1 (sensor : list event -> Q) (Q : result Q -> nb -> Prop) (s : nb) :
  (let v := sensor (plant_view (log s)) in
   Q (Ok v) (set_log (ReadT1 v :: log s) s)) ->
  wp (lab_T1 sensor) Q s.
Proof. auto. Qed.

Lemma wp_lab_Q1 (q : Q) (Q : result unit -> nb -> Prop) (s : nb) :
  Q (Ok tt) (set_log (WriteQ1 q :: log s) s) -> wp (lab_Q1 q) Q s.
Proof. auto. Qed.

Lemma wp_call_pid (sp pv pv_last ie dt : Q)
    (Q : result Pid.output -> nb -> Prop) (s : nb) :
  Q (pid sp pv pv_last ie dt) (set_log (CallPid sp pv pv_last ie dt :: log s) s) ->
  wp (call_pid sp pv pv_last ie dt) Q s.
Proof. auto. Qed.

Lemma wp_lstm predict s_x s_y (T1_m Tsp_m : list Q)
    (Q : result Q -> nb -> Prop) (s : nb) :
  match PyArr.np_sub Tsp_m T1_m with
  | Raise e => Q (Raise e) s
  | Ok err =>
      match PyArr.vstack_T Tsp_m err with
      | Raise e => Q (Raise e) s
      | Ok X =>
          match Scaler.transform s_x X with
          | Raise e => Q (Raise e) s
          | Ok Xs =>
              Q (Ok (np_clip (Scaler.inverse_transform1 s_y (predict Xs)) 0 100))
                (set_log (Predict Xs :: log s) s)
          end
      end
  end ->
  wp (lstm predict s_x s_y T1_m Tsp_m) Q s.
Proof.
  unfold wp. rewrite lstm_run.
  destruct (PyArr.np_sub Tsp_m T1_m) as [err|e]; [|auto].
  destruct (PyArr.vstack_T Tsp_m err) as [X|e]; [|auto].
  destruct (Scaler.transform s_x X) as [Xs|e]; auto.
Qed.

Lemma wp_if {A : Type} (b : bool) (m1 m2 : M A) (Q : result A -> nb -> Prop) (s : nb) :
  (if b then wp m1 Q s else wp m2 Q s) -> wp (if b then m1 else m2) Q s.
Proof. destruct b; auto. Qed.

(** One step of symbolic execution. *)
Ltac wp_step :=
  lazymatch goal with
  | |- wp (mbind _ _) _ _ => apply wp_bind
  | |- wp (mret _) _ _ => apply wp_ret
  | |- wp (lift _) _ _ => apply wp_lift
  | |- wp (gets _) _ _ => apply wp_gets
  | |- wp (modify _) _ _ => apply wp_modify
  | |- wp (emit _) _ _ => apply wp_emit
  | |- wp (getitem _ _) _ _ => apply wp_getitem
  | |- wp (setitem _ _ _) _ _ => apply wp_setitem
  | |- wp (getslice _ _ _) _ _ => apply wp_getslice
  | |- wp (lab_T1 _) _ _ => apply wp_lab_T1
  | |- wp (lab_Q1 _) _ _ => apply wp_lab_Q1
  | |- wp (call_pid _ _ _ _ _) _ _ => apply wp_call_pid
  | |- wp (lstm _ _ _ _ _) _ _ => apply wp_lstm
  | |- wp (if (?a <=? ?b)%nat then _ else _) _ _ =>
      apply wp_if; destruct (Nat.leb_spec a b)
  end.

Ltac wp_case :=
  lazymatch goal with
  | |- match ?r with Ok _ => _ | Raise _ => _ end =>
      let E := fresh "E" in destruct r eqn:E
  end.

Ltac nb_simpl :=
  cbv beta iota zeta;
  cbn [get_var set_var set_log set_ierr set_iae set_prev_time
       T1 Q1 Qpid Qlstm tm Tsp1 Tsp ierr iae prev_time log].

(** Symbolic execution of a statement, one goal for each way it can end. *)
Ltac wp_run := repeat (first [wp_step | wp_case]; nb_simpl).

(** The recorded outcomes of array accesses as facts about lists. *)
Ltac norm_access :=
  repeat match goal with
  | H : Ok _ = Ok _ |- _ => injection H as H; try subst
  | H : Ok _ = Raise _ |- _ => discriminate H
  | H : Raise _ = Ok _ |- _ => discriminate H
  | H : PyArr.setitem ?a (Z.of_nat ?i) _ = _ |- _ =>
      rewrite setitem_nat in H;
      let L := fresh "L" in
      destruct (Nat.ltb_spec i (length a)) as [L|L]
  | H : PyArr.getitem _ (Z.of_nat ?i) = Ok _ |- _ =>
      apply getitem_nat_Ok in H
  | H : <[?i:=_]> ?a !! ?i = Some _ |- _ =>
      rewrite list_lookup_insert_eq in H by assumption
  | H : Some _ = Some _ |- _ => injection H as H; try subst
  end.

(** The events a statement added to the log. *)
Ltac log_split :=
  lazymatch goal with
  | |- exists evs, ?l = evs ++ ?l0 /\ _ =>
      first [ exists []; split; [reflexivity|]
            | eexists [_]; split; [reflexivity|]
            | eexists [_; _]; split; [reflexivity|]
            | eexists [_; _; _]; split; [reflexivity|]
            | eexists [_; _; _; _]; split; [reflexivity|] ]
  end.

(** A loop keeps what each of its ticks keeps: [Inv i] holds before the tick
    of index [i], and [Err] once an exception has ended the loop. *)
Lemma for_enumerate_wp (body : nat -> Q -> M unit)
    (Inv : nat -> nb -> Prop) (Err : nb -> Prop) :
  (forall i t s, Inv i s ->
     wp (body i t)
        (fun r s' => match r with Ok _ => Inv (S i) s' | Raise _ => Err s' end)
        (set_log (Tick t :: log s) s)) ->
  forall clock i s, Inv i s ->
    wp (for_enumerate body i clock)
       (fun r s' => match r with
                    | Ok _ => Inv (i + length clock)%nat s'
                    | Raise _ => Err s'
                    end) s.
Proof.
  intros Hbody clock. induction clock as [|t clock IH]; intros i s HI.
  - cbn [for_enumerate length]. apply wp_ret. rewrite Nat.add_0_r. exact HI.
  - cbn [for_enumerate length]. apply wp_bind, wp_emit. apply wp_bind.
    specialize (Hbody i t s HI). unfold wp in Hbody |- *.
    destruct (body i t (set_log (Tick t :: log s) s)) as [[[]|e] s'];
      cbn [fst snd] in *; [|exact Hbody].
    specialize (IH (S i) s' Hbody). unfold wp in IH.
    replace (i + S (length clock))%nat with (S i + length clock)%nat by lia.
    exact IH.
Qed.

(** The same for a property that does not depend on how the loop ends. *)
Lemma for_enumerate_always (body : nat -> Q -> M unit) (P : nb -> Prop) :
  (forall i t s, P s ->
     wp (body i t) (fun _ s' => P s') (set_log (Tick t :: log s) s)) ->
  forall clock i s, P s -> P (for_enumerate body i clock s).2.
Proof.
  intros Hbody clock i s HP.
  assert (H : wp (for_enumerate body i clock)
                 (fun r s' => match r with Ok _ => P s' | Raise _ => P s' end) s).
  { apply (for_enumerate_wp body (fun _ => P) P); [|exact HP].
    intros i' t s0 HP0. specialize (Hbody i' t s0 HP0). unfold wp in Hbody |- *.
    destruct (body i' t _) as [[[]|e] s']; exact Hbody. }
  unfold wp in H.
  destruct (for_enumerate body i clock s) as [[[]|e] s']; exact H.
Qed.

(** ** The ticks of the loops *)

Section TickFacts.

Variable sensor : list event -> Q.
Variable predict : list (Q * Q) -> Q.
Variable s_x : Scaler.feature * Scaler.feature.
Variable s_y : Scaler.feature.
Variable window : nat.

Lemma partA_tick_block (i : nat) (t : Q) (s : nb) :
  wp (partA_tick sensor predict s_x s_y window i t)
     (fun r s' => exists evs,
          log s' = evs ++ log s /\ partA_block sensor s_x window s i t (is_ok r) evs) s.
Proof.
  unfold partA_tick, run_lstm. cbv zeta.
  wp_run.
  all: norm_access.
  all: try match goal with
       | E1 : PyArr.np_sub _ _ = Ok _, E2 : PyArr.vstack_T _ _ = Ok _,
         E3 : Scaler.transform _ _ = Ok _ |- _ =>
           repeat rewrite getslice_window in E1 by assumption;
           rewrite getslice_window in E2 by assumption;
           rewrite window_insert in E1 by assumption;
           let Hle := fresh "Hle" in
           assert (Hle : (length (take window (drop (i - window) (Tsp s)))
                          <= length (take window (drop (i - window) (T1 s))))%nat)
             by (rewrite (window_length (T1 s)) by lia; apply window_length_le);
           destruct (model_input_rows _ _ _ _ _ _ E1 E2 E3 Hle) as (Hl & Hne & ->)
       end.
  all: log_split.
  all: try (econstructor; eauto; cbn; intros; first [discriminate | lia]).
  all: assert (0 < window)%nat
    by (destruct window; [exfalso; apply Hne; reflexivity | lia]).
  all: eapply A_predicted; eauto; lia.
Qed.

Ltac frame_solve :=
  unfold tick_frame; nb_simpl;
  repeat split; intros;
  rewrite ?length_insert;
  try reflexivity; try lia; try discriminate;
  try (rewrite list_lookup_insert_ne by lia; reflexivity);
  try (apply list_lookup_insert_eq; assumption).

Lemma partA_tick_frame (i : nat) (t : Q) (s : nb) :
  wp (partA_tick sensor predict s_x s_y window i t) (tick_frame sensor window s i) s.
Proof.
  unfold partA_tick, run_lstm. cbv zeta.
  wp_run.
  all: norm_access.
  all: frame_solve.
Qed.

Lemma partB_tick_block (i : nat) (t : Q) (s : nb) :
  wp (partB_tick sensor predict s_x s_y window i t)
     (fun r s' => exists evs,
          log s' = evs ++ log s /\ partB_block sensor predict s_x s_y window s i t (is_ok r) evs) s.
Proof.
  unfold partB_tick, run_lstm. cbv zeta.
  wp_run.
  all: norm_access.
  all: try match goal with
       | E1 : PyArr.np_sub _ _ = Ok _, E2 : PyArr.vstack_T _ _ = Ok _,
         E3 : Scaler.transform _ _ = Ok _ |- _ =>
           repeat rewrite getslice_window in E1 by assumption;
           rewrite getslice_window in E2 by assumption;
           rewrite window_insert in E1 by assumption;
           let Hle := fresh "Hle" in
           assert (Hle : (length (take window (drop (i - window) (Tsp s)))
                          <= length (take window (drop (i - window) (T1 s))))%nat)
             by (rewrite (window_length (T1 s)) by lia; apply window_length_le);
           destruct (model_input_rows _ _ _ _ _ _ E1 E2 E3 Hle) as (Hl & Hne & ->)
       end.
  all: log_split.
  all: try (econstructor; eauto; cbn; intros; first [discriminate | lia]).
  all: assert (0 < window)%nat
    by (destruct window; [exfalso; apply Hne; reflexivity | lia]).
  all: assert (i <= length (Tsp s))%nat
    by (apply (window_full (Tsp s) window i); [lia|lia|];
        rewrite <- Hl; apply window_length; lia).
  all: first [eapply B_written | eapply B_predicted]; eauto; lia.
Qed.

Lemma partB_tick_frame (i : nat) (t : Q) (s : nb) :
  wp (partB_tick sensor predict s_x s_y window i t) (tick_frame sensor window s i) s.
Proof.
  unfold partB_tick, run_lstm. cbv zeta.
  wp_run.
  all: norm_access.
  all: frame_solve.
Qed.

(** *** Whole runs *)

Lemma wp_mono {A : Type} (m : M A) (Q Q' : result A -> nb -> Prop) (s : nb) :
  (forall r s', Q r s' -> Q' r s') -> wp m Q s -> wp m Q' s.
Proof. unfold wp. auto. Qed.

Lemma wp_and {A : Type} (m : M A) (Q Q' : result A -> nb -> Prop) (s : nb) :
  wp m Q s -> wp m Q' s -> wp m (fun r s' => Q r s' /\ Q' r s') s.
Proof. unfold wp. auto. Qed.

Lemma partA_unfold (clock : list Q) (s : nb) :
  partA sensor predict s_x s_y window clock s
  = for_enumerate (partA_tick sensor predict s_x s_y window) 0 clock
      (partA_start s).
Proof. reflexivity. Qed.

Lemma partB_unfold (clock : list Q) (s : nb) :
  partB sensor predict s_x s_y window clock s
  = for_enumerate (partB_tick sensor predict s_x s_y window) 0 clock
      (partB_start s).
Proof. reflexivity. Qed.

Lemma follows_nil ok : follows ok [].
Proof. intros [|e' l2] e l1 H; discriminate H. Qed.

Lemma follows_cons ok e l :
  ok e (head l) -> follows ok l -> follows ok (e :: l).
Proof.
  intros He Hl [|e' l2] e0 l1 H; injection H as -> ->.
  - exact He.
  - apply (Hl l2 e0 l1). reflexivity.
Qed.

Lemma partA_block_follows s i t done evs l :
  partA_block sensor s_x window s i t done evs -> follows okA l -> follows okA (evs ++ l).
Proof.
  intros Hb Hl. destruct Hb; cbn [app];
    repeat (apply follows_cons; [cbn; eauto 10|]); exact Hl.
Qed.

Lemma partA_log_follows (clock : list Q) (s : nb) :
  follows okA (log (partA sensor predict s_x s_y window clock s).2).
Proof.
  rewrite partA_unfold.
  apply (for_enumerate_always _ (fun s => follows okA (log s))).
  - intros i t s0 H0.
    eapply wp_mono; [|apply partA_tick_block].
    cbn beta. intros r s' (evs & -> & Hb).
    eapply partA_block_follows; [exact Hb|].
    cbn [log set_log]. apply follows_cons; [exact Logic.I|exact H0].
  - apply follows_nil.
Qed.

(** The heater commands of a completed tick. *)
Lemma partA_block_writes s i t evs l :
  partA_block sensor s_x window s i t true evs ->
  exists q, heater_writes (evs ++ l) = q :: heater_writes l.
Proof.
  intros Hb. inversion Hb; subst; cbn; eauto.
Qed.

Lemma partA_completed_writes (clock : list Q) (s s' : nb) :
  partA sensor predict s_x s_y window clock s = (Ok tt, s') ->
  length (heater_writes (log s')) = length clock.
Proof.
  rewrite partA_unfold. intros Hrun.
  assert (Hbody : forall i t s0,
             length (heater_writes (log s0)) = i ->
             wp (partA_tick sensor predict s_x s_y window i t)
                (fun r s1 => match r with
                             | Ok _ => length (heater_writes (log s1)) = S i
                             | Raise _ => True
                             end)
                (set_log (Tick t :: log s0) s0)).
  { intros i t s0 Hi.
    eapply wp_mono; [|apply partA_tick_block].
    cbn beta. intros [[]|e] s1 (evs & Hlog & Hb); [|exact Logic.I].
    cbn [log set_log] in Hlog. rewrite Hlog.
    destruct (partA_block_writes _ _ _ _ (Tick t :: log s0) Hb) as (q & ->).
    cbn. f_equal. exact Hi. }
  pose proof (for_enumerate_wp _ _ _ Hbody clock 0%nat (partA_start s) eq_refl)
    as H.
  unfold wp in H. rewrite Hrun in H. exact H.
Qed.

End TickFacts.

(** ** Part B before the window is full *)

Lemma for_enumerate_app (body : nat -> Q -> M unit) (c1 c2 : list Q) :
  forall i s,
    for_enumerate body i (c1 ++ c2) s
    = match for_enumerate body i c1 s with
      | (Ok _, s') => for_enumerate body (i + length c1) c2 s'
      | (Raise e, s') => (Raise e, s')
      end.
Proof.
  induction c1 as [|t c1 IH]; intros i s.
  - cbn. rewrite Nat.add_0_r. reflexivity.
  - cbn [app for_enumerate length].
    unfold mbind, M_bind, emit, modify.
    destruct (body i t _) as [[[]|e] s']; [|reflexivity].
    rewrite IH. replace (i + S (length c1))%nat with (S i + length c1)%nat by lia.
    reflexivity.
Qed.

Lemma replicate_shift {A : Type} (k : nat) (x : A) (l : list A) :
  replicate k x ++ x :: l = x :: replicate k x ++ l.
Proof. induction k as [|k IH]; cbn; [reflexivity|]. rewrite IH. reflexivity. Qed.

Section PartBIdle.

Variable sensor : list event -> Q.
Variable predict : list (Q * Q) -> Q.
Variable s_x : Scaler.feature * Scaler.feature.
Variable s_y : Scaler.feature.
Variable window : nat.

Lemma test_arrays_idle_zero n s : test_arrays n s -> idle_zero window n s.
Proof.
  intros (HT & _ & HQ & Htm & _). unfold idle_zero.
  rewrite HT, HQ, Htm, !length_replicate. repeat split.
  intros j _ Hj. apply lookup_replicate_2, Hj.
Qed.

Lemma tick_frame_idle_zero n s i r s' :
  tick_frame sensor window s i r s' -> idle_zero window n s -> idle_zero window n s'.
Proof.
  intros (_ & HT & _ & HQ & Htm & _ & Hne & Hlow & _) (H1 & H2 & H3 & H4).
  unfold idle_zero. rewrite HT, HQ, Htm. repeat split; try assumption.
  intros j Hj Hn. destruct (Nat.lt_ge_cases i window) as [Hi|Hi].
  - rewrite (Hlow Hi). apply H4; assumption.
  - rewrite Hne by lia. apply H4; assumption.
Qed.

Lemma partA_keeps_idle_zero n clock s :
  idle_zero window n s ->
  idle_zero window n (partA sensor predict s_x s_y window clock s).2.
Proof.
  intros Hs. rewrite partA_unfold.
  apply (for_enumerate_always _ (idle_zero window n)).
  - intros i t s0 H0. eapply wp_mono; [|apply partA_tick_frame].
    cbn beta. intros r s' Hfr.
    eapply tick_frame_idle_zero; [exact Hfr|exact H0].
  - exact Hs.
Qed.

(** A tick of Part B before the window is full: it completes, it does not
    invoke the model, and it writes [Qlstm[i]] to the heater. *)
Lemma partB_tick_idle (i : nat) (t q : Q) (s : nb) :
  (i < window)%nat -> (i < length (tm s))%nat -> (i < length (T1 s))%nat ->
  Qlstm s !! i = Some q ->
  wp (partB_tick sensor predict s_x s_y window i t)
     (fun r s' => r = Ok tt
                  /\ log s' = WriteQ1 q :: ReadT1 (reading sensor s) :: log s) s.
Proof.
  intros Hw Htm HT Hq. unfold partB_tick, run_lstm. cbv zeta.
  wp_run.
  all: norm_access; try lia.
  all: try match goal with
           | E : PyArr.getitem _ _ = Raise _ |- _ =>
               rewrite getitem_nat, Hq in E; discriminate E
           end.
  match goal with E : _ !! _ = _ |- _ => rewrite Hq in E end.
  norm_access. split; reflexivity.
Qed.

Lemma partB_idle_ticks n (clock : list Q) :
  forall i s,
    (i + length clock <= window)%nat -> (i + length clock <= n)%nat ->
    idle_zero window n s ->
    exists s',
      for_enumerate (partB_tick sensor predict s_x s_y window) i clock s
      = (Ok tt, s')
      /\ idle_zero window n s'
      /\ heater_writes (log s') = replicate (length clock) 0 ++ heater_writes (log s)
      /\ model_inputs (log s') = model_inputs (log s).
Proof.
  induction clock as [|t clock IH]; intros i s Hw Hn Hs.
  - exists s. split; [reflexivity|]. split; [exact Hs|]. split; reflexivity.
  - cbn [length] in Hw, Hn. cbn [for_enumerate].
    unfold mbind at 1, M_bind at 1, emit, modify.
    set (s0 := set_log (Tick t :: log s) s).
    assert (Hs0 : idle_zero window n s0) by exact Hs.
    destruct Hs0 as (H1 & H2 & H3 & H4).
    pose proof (partB_tick_idle i t 0 s0) as Hidle.
    pose proof (partB_tick_frame sensor predict s_x s_y window i t s0) as Hfr.
    unfold wp in Hidle, Hfr. unfold mbind, M_bind.
    destruct (partB_tick sensor predict s_x s_y window i t s0) as [r s1].
    cbn [fst snd] in *.
    destruct Hidle as (-> & Hlog); [lia|lia|lia|apply H4; lia|].
    assert (Hs1 : idle_zero window n s1).
    { eapply tick_frame_idle_zero; [exact Hfr|]. repeat split; assumption. }
    destruct (IH (S i) s1) as (s' & Hrun & Hs' & Hwr & Hmi); [lia|lia|exact Hs1|].
    exists s'. split; [exact Hrun|]. split; [exact Hs'|].
    rewrite Hwr, Hmi, Hlog. split; [|reflexivity].
    change (heater_writes (WriteQ1 0 :: ReadT1 (reading sensor s0) :: log s0))
      with (0 :: heater_writes (log s)).
    cbn [length replicate]. apply replicate_shift.
Qed.

End PartBIdle.

(** C10 (Part B before the window is full): Part B is run on the arrays of
    the test cell, of length [n >= window], after Part A.  Its ticks [i] with
    [i < window] all complete without an exception and without invoking the
    model, and each of them commands the heater with [Qlstm[i]], which still
    holds its initial value [0]: the heater receives zero power during the
    first [window] ticks.  The rest of the run continues from there. *)
Theorem partB_idle_until_window_full
    (sensor : list event -> Q) (predict : list (Q * Q) -> Q)
    (s_x : Scaler.feature * Scaler.feature) (s_y : Scaler.feature)
    (window n : nat) (clockA clockB : list Q) (s0 : nb) :
  test_arrays n s0 -> (window <= n)%nat ->
  let sA := (partA sensor predict s_x s_y window clockA s0).2 in
  let idle := take window clockB in
  exists sB,
    partB sensor predict s_x s_y window idle sA = (Ok tt, sB)
    /\ heater_writes (log sB) = replicate (length idle) 0
    /\ model_inputs (log sB) = []
    /\ partB sensor predict s_x s_y window clockB sA
       = for_enumerate (partB_tick sensor predict s_x s_y window)
           (length idle) (drop window clockB) sB.
Proof.
  intros Harr Hn sA idle.
  assert (HA : idle_zero window n sA).
  { apply partA_keeps_idle_zero, test_arrays_idle_zero, Harr. }
  assert (Hlen : (length idle <= window)%nat).
  { unfold idle. rewrite length_take. lia. }
  destruct (partB_idle_ticks sensor predict s_x s_y window n idle 0%nat
              (partB_start sA)) as (sB & Hrun & _ & Hwr & Hmi);
    [cbn; lia|cbn; lia|exact HA|].
  exists sB. rewrite !partB_unfold. split; [exact Hrun|].
  split; [rewrite Hwr; cbn; apply app_nil_r|].
  split; [rewrite Hmi; reflexivity|].
  rewrite <- (take_drop window clockB) at 1. fold idle.
  rewrite for_enumerate_app, Hrun. reflexivity.
Qed.

Lemma partB_idle_until_window_full_witness :
  let sensor := fun _ : list event => 21 in
  let predict := fun _ : list (Q * Q) => 1 # 2 in
  let s_x := (Scaler.mk_feature 1 0, Scaler.mk_feature 1 0) in
  let s_y := Scaler.mk_feature (1 # 100) 0 in
  let s0 := mk_nb (replicate 4 0) [] (replicate 4 0) (replicate 4 0)
                  (replicate 4 0) [] [21; 50; 50; 21] 0 0 0 [] in
  let sA := (partA sensor predict s_x s_y 2 [0; 1; 2; 3] s0).2 in
  exists sB,
    partB sensor predict s_x s_y 2 [0; 1] sA = (Ok tt, sB)
    /\ heater_writes (log sB) = [0; 0]
    /\ model_inputs (log sB) = []
    /\ partB sensor predict s_x s_y 2 [0; 1; 2] sA
       = for_enumerate (partB_tick sensor predict s_x s_y 2) 2 [2] sB.
Proof.
  intros sensor predict s_x s_y s0 sA.
  apply (partB_idle_until_window_full sensor predict s_x s_y 2 4
           [0; 1; 2; 3] [0; 1; 2] s0).
  - repeat split; reflexivity.
  - lia.
Defined.

(** ** Readiness: the model is only given full windows *)

Section Readiness.

Variable sensor : list event -> Q.
Variable predict : list (Q * Q) -> Q.
Variable s_x : Scaler.feature * Scaler.feature.
Variable s_y : Scaler.feature.
Variable window : nat.








End Readiness.




(** ** The window given to the model and the windows of the training data *)

Section WindowAlignment.

Variable predict : list (Q * Q) -> Q.
Variable s_x : Scaler.feature * Scaler.feature.
Variable s_y : Scaler.feature.
Variable window : nat.

Lemma all_rows_lookup (df_Tsp df_T1 : list Q) (j : nat) (sp pv : Q) :
  df_Tsp !! j = Some sp -> df_T1 !! j = Some pv ->
  all_rows s_x df_Tsp df_T1 !! j = Some (Scaler.transform_row s_x (sp, sp - pv)).
Proof.
  intros Hsp Hpv. unfold all_rows, df_X.
  change (map (Scaler.transform_row s_x)) with (fmap (M:=list) (Scaler.transform_row s_x)).
  rewrite list_lookup_fmap.
  rewrite !lookup_zip_with, Hsp, Hpv. reflexivity.
Qed.

Lemma all_rows_length (df_Tsp df_T1 : list Q) :
  length df_T1 = length df_Tsp ->
  length (all_rows s_x df_Tsp df_T1) = length df_Tsp.
Proof.
  intros H. unfold all_rows, df_X.
  rewrite length_map, !length_zip_with. lia.
Qed.

(** The rows of a window are the window of the rows. *)
Lemma window_rows_slice (df_Tsp df_T1 : list Q) (i : nat) :
  window_rows s_x (take window (drop (i - window) df_T1))
                  (take window (drop (i - window) df_Tsp))
  = take window (drop (i - window) (all_rows s_x df_Tsp df_T1)).
Proof.
  unfold window_rows, all_rows, df_X.
  change (map (Scaler.transform_row s_x)) with (fmap (M:=list) (Scaler.transform_row s_x)).
  rewrite <- fmap_drop, <- fmap_take.
  rewrite !zip_with_drop, !zip_with_take. reflexivity.
Qed.

(** The training windows: [X_lstm[i - window]] is [Xs[i-window:i]] and its
    label [y_lstm[i - window]] is [ys[i]]. *)
Lemma X_lstm_lookup (Xs : list (Q * Q)) (i : nat) :
  (window <= i)%nat -> (i < length Xs)%nat ->
  X_lstm window Xs !! (i - window)%nat
  = Some (take window (drop (i - window) Xs)).
Proof.
  intros Hw Hi. unfold X_lstm.
  change (map ?f) with (fmap (M:=list) f).
  rewrite list_lookup_fmap, lookup_seq_lt by lia.
  cbn [fmap option_fmap option_map].
  replace (window + (i - window))%nat with i by lia.
  rewrite getslice_window by assumption. reflexivity.
Qed.

Lemma y_lstm_drop (ys : list Q) :
  y_lstm window ys = drop window ys.
Proof.
  unfold y_lstm.
  remember (length ys - window)%nat as m eqn:Hm.
  revert Hm. generalize window as w.
  induction m as [|m IH]; intros w Hm.
  - rewrite drop_ge by lia. reflexivity.
  - cbn [seq omap list_omap].
    destruct (lookup_lt_is_Some_2 ys w) as [y Hy]; [lia|].
    rewrite Hy. rewrite (drop_S ys y w Hy). f_equal.
    apply IH. lia.
Qed.

Lemma y_lstm_lookup (ys : list Q) (i : nat) :
  (window <= i)%nat -> y_lstm window ys !! (i - window)%nat = ys !! i.
Proof.
  intros Hw. rewrite y_lstm_drop, lookup_drop. f_equal. lia.
Qed.

(** What [run_lstm] does at a tick [i >= window], the arrays being long
    enough: the model is invoked once, on the rows of the samples
    [i-window .. i-1]. *)
Lemma run_lstm_ready (i : nat) (s : nb) :
  (0 < window <= i)%nat -> (i <= length (T1 s))%nat ->
  (i <= length (Tsp s))%nat ->
  log (run_lstm predict s_x s_y window i s).2
  = Predict (window_at s_x window s i) :: log s.
Proof.
  intros Hw HT HS. unfold run_lstm.
  destruct (Nat.leb_spec window i); [|lia]. cbv zeta.
  assert (Hwp : wp (getslice vT1 (Z.of_nat i - Z.of_nat window) (Z.of_nat i)
                    ≫= λ T1_m,
                      getslice vTsp (Z.of_nat i - Z.of_nat window) (Z.of_nat i)
                      ≫= λ Tsp_m,
                        lstm predict s_x s_y T1_m Tsp_m
                        ≫= λ q, setitem vQlstm (Z.of_nat i) q)
                 (fun _ s' => log s' = Predict (window_at s_x window s i) :: log s)
                 s).
  { wp_step. wp_step. nb_simpl. wp_step. wp_step. nb_simpl. wp_step.
    rewrite !getslice_window by lia.
    unfold wp at 1. rewrite lstm_same_length.
    - cbn [fst snd]. wp_step. nb_simpl.
      destruct (PyArr.setitem _ _ _); reflexivity.
    - rewrite !window_length by lia. reflexivity.
    - intros Hnil. apply (f_equal length) in Hnil.
      rewrite window_length in Hnil by lia. cbn in Hnil. lia. }
  exact Hwp.
Qed.

End WindowAlignment.

(** ** What a completed run has recorded *)

Section RunHistory.

Variable sensor : list event -> Q.
Variable predict : list (Q * Q) -> Q.
Variable s_x : Scaler.feature * Scaler.feature.
Variable s_y : Scaler.feature.
Variable window : nat.

Lemma take_stable (l l' : list Q) (i : nat) :
  (forall j, j <> i -> l' !! j = l !! j) -> take i l' = take i l.
Proof.
  intros H. apply list_eq. intros m.
  destruct (Nat.lt_ge_cases m i) as [Hm|Hm].
  - rewrite !lookup_take_lt by assumption. apply H. lia.
  - rewrite !lookup_take_ge by assumption. reflexivity.
Qed.

Lemma window_stable (l l' : list Q) (i k : nat) :
  (window <= k <= i)%nat ->
  (forall j, j <> i -> l' !! j = l !! j) ->
  take window (drop (k - window) l') = take window (drop (k - window) l).
Proof.
  intros Hk H. apply list_eq. intros m.
  destruct (Nat.lt_ge_cases m window) as [Hm|Hm].
  - rewrite !lookup_take_lt, !lookup_drop by assumption. apply H. lia.
  - rewrite !lookup_take_ge by assumption. reflexivity.
Qed.

Lemma window_at_stable (s s' : nb) (i k : nat) :
  (window <= k <= i)%nat -> Tsp s' = Tsp s ->
  (forall j, j <> i -> T1 s' !! j = T1 s !! j) ->
  window_at s_x window s' k = window_at s_x window s k.
Proof.
  intros Hk HS HT. unfold window_at.
  rewrite HS, (window_stable (T1 s) (T1 s') i k Hk HT). reflexivity.
Qed.

Lemma history_step (s s' : nb) (i : nat) (evs : list event) :
  history s_x window i s ->
  log s' = evs ++ log s ->
  readings (evs ++ log s) = reading sensor s :: readings (log s) ->
  ((i < window)%nat
   /\ model_inputs (evs ++ log s) = model_inputs (log s)
   \/ (window <= i)%nat
      /\ model_inputs (evs ++ log s)
         = window_at s_x window s i :: model_inputs (log s)) ->
  tick_frame sensor window s i (Ok tt) s' ->
  history s_x window (S i) s'.
Proof.
  intros (Hlen & Hrd & Hmi) Hlog Hr Hm
         (HS & HT & _ & _ & _ & Hne & _ & _ & Hi).
  specialize (Hi eq_refl).
  assert (Hlt : (i < length (T1 s'))%nat) by (eapply lookup_lt_Some; exact Hi).
  unfold history. split; [lia|]. rewrite Hlog. split.
  - rewrite Hr, Hrd, (take_S_r _ _ _ Hi), rev_unit.
    rewrite (take_stable (T1 s) (T1 s') i Hne). reflexivity.
  - assert (Hsame : map (window_at s_x window s') (seq window (i - window))
                    = map (window_at s_x window s) (seq window (i - window))).
    { apply map_ext_in. intros k Hk. apply in_seq in Hk.
      apply (window_at_stable s s' i k); [lia|exact HS|exact Hne]. }
    destruct Hm as [[Hi' ->]|[Hi' ->]].
    + rewrite Hmi.
      replace (S i - window)%nat with 0%nat by lia.
      replace (i - window)%nat with 0%nat by lia. reflexivity.
    + replace (S i - window)%nat with (S (i - window)) by lia.
      rewrite seq_S, map_app. cbn [map]. rewrite rev_unit, Hsame, Hmi.
      replace (window + (i - window))%nat with i by lia.
      rewrite (window_at_stable s s' i i); [reflexivity|lia|exact HS|exact Hne].
Qed.

Lemma partA_block_history s i t evs l :
  partA_block sensor s_x window s i t true evs ->
  readings (evs ++ l) = reading sensor s :: readings l
  /\ ((i < window)%nat /\ model_inputs (evs ++ l) = model_inputs l
      \/ (window <= i)%nat
         /\ model_inputs (evs ++ l) = window_at s_x window s i :: model_inputs l).
Proof.
  intros Hb. inversion Hb; subst; (split; [reflexivity|]).
  - left. split; [auto|reflexivity].
  - right. split; [lia|reflexivity].
Qed.

Lemma partB_block_history s i t evs l :
  partB_block sensor predict s_x s_y window s i t true evs ->
  readings (evs ++ l) = reading sensor s :: readings l
  /\ ((i < window)%nat /\ model_inputs (evs ++ l) = model_inputs l
      \/ (window <= i)%nat
         /\ model_inputs (evs ++ l) = window_at s_x window s i :: model_inputs l).
Proof.
  intros Hb. inversion Hb; subst; (split; [reflexivity|]).
  - left. split; [assumption|reflexivity].
  - right. split; [lia|reflexivity].
Qed.

Lemma history_tick (i : nat) (t : Q) (s : nb) :
  history s_x window i s -> history s_x window i (set_log (Tick t :: log s) s).
Proof. intros H. exact H. Qed.

Lemma partA_history (clock : list Q) (s s' : nb) :
  partA sensor predict s_x s_y window clock s = (Ok tt, s') ->
  history s_x window (length clock) s'.
Proof.
  rewrite partA_unfold. intros Hrun.
  assert (Hbody : forall i t s0,
             history s_x window i s0 ->
             wp (partA_tick sensor predict s_x s_y window i t)
                (fun r s1 => match r with
                             | Ok _ => history s_x window (S i) s1
                             | Raise _ => True
                             end)
                (set_log (Tick t :: log s0) s0)).
  { intros i t s0 Hi.
    eapply wp_mono;
      [|apply wp_and; [apply partA_tick_block|apply partA_tick_frame]].
    cbn beta. intros [[]|e] s1 [(evs & Hlog & Hb) Hfr]; [|exact Logic.I].
    cbn [is_ok] in Hb.
    destruct (partA_block_history _ _ _ _
                (log (set_log (Tick t :: log s0) s0)) Hb) as [Hr Hm].
    apply (history_step (set_log (Tick t :: log s0) s0) s1 i evs);
      [apply history_tick, Hi|exact Hlog|exact Hr|exact Hm|exact Hfr]. }
  pose proof (for_enumerate_wp _ _ _ Hbody clock 0%nat (partA_start s)) as H.
  unfold wp in H. rewrite Hrun in H. apply H.
  repeat split; cbn; lia.
Qed.

Lemma partB_history (clock : list Q) (s s' : nb) :
  partB sensor predict s_x s_y window clock s = (Ok tt, s') ->
  history s_x window (length clock) s'.
Proof.
  rewrite partB_unfold. intros Hrun.
  assert (Hbody : forall i t s0,
             history s_x window i s0 ->
             wp (partB_tick sensor predict s_x s_y window i t)
                (fun r s1 => match r with
                             | Ok _ => history s_x window (S i) s1
                             | Raise _ => True
                             end)
                (set_log (Tick t :: log s0) s0)).
  { intros i t s0 Hi.
    eapply wp_mono;
      [|apply wp_and; [apply partB_tick_block|apply partB_tick_frame]].
    cbn beta. intros [[]|e] s1 [(evs & Hlog & Hb) Hfr]; [|exact Logic.I].
    cbn [is_ok] in Hb.
    destruct (partB_block_history _ _ _ _
                (log (set_log (Tick t :: log s0) s0)) Hb) as [Hr Hm].
    apply (history_step (set_log (Tick t :: log s0) s0) s1 i evs);
      [apply history_tick, Hi|exact Hlog|exact Hr|exact Hm|exact Hfr]. }
  pose proof (for_enumerate_wp _ _ _ Hbody clock 0%nat (partB_start s)) as H.
  unfold wp in H. rewrite Hrun in H. apply H.
  repeat split; cbn; lia.
Qed.

Lemma tick_frame_aligned s i r s' :
  tick_frame sensor window s i r s' -> aligned s -> aligned s'.
Proof.
  intros (HS & HT & _) H. unfold aligned in *. rewrite HS, HT. exact H.
Qed.

Lemma partA_aligned (clock : list Q) (s : nb) :
  aligned s -> aligned (partA sensor predict s_x s_y window clock s).2.
Proof.
  intros Hs. rewrite partA_unfold.
  apply (for_enumerate_always _ aligned); [|exact Hs].
  intros i t s0 H0. eapply wp_mono; [|apply partA_tick_frame].
  cbn beta. intros r s1 Hfr. eapply tick_frame_aligned; [exact Hfr|exact H0].
Qed.

Lemma partB_aligned (clock : list Q) (s : nb) :
  aligned s -> aligned (partB sensor predict s_x s_y window clock s).2.
Proof.
  intros Hs. rewrite partB_unfold.
  apply (for_enumerate_always _ aligned); [|exact Hs].
  intros i t s0 H0. eapply wp_mono; [|apply partB_tick_frame].
  cbn beta. intros r s1 Hfr. eapply tick_frame_aligned; [exact Hfr|exact H0].
Qed.

(** The history s_x window of a completed run, in the order of the ticks and in terms
    of the scaled rows [Xs] of the recorded samples. *)
Lemma history_windows (n : nat) (s : nb) :
  history s_x window n s -> aligned s ->
  let Xs := all_rows s_x (Tsp s) (T1 s) in
  rev (readings (log s)) = take n (T1 s)
  /\ rev (model_inputs (log s))
     = map (fun i => take window (drop (i - window) Xs))
           (seq window (n - window))
  /\ (n <= length Xs)%nat.
Proof.
  intros (Hlen & Hrd & Hmi) Hal Xs. split; [|split].
  - rewrite Hrd. apply rev_involutive.
  - rewrite Hmi, rev_involutive. apply map_ext. intros i.
    unfold window_at, Xs. apply window_rows_slice.
  - unfold Xs. rewrite all_rows_length by (symmetry; exact Hal).
    unfold aligned in Hal. lia.
Qed.

End RunHistory.

(** C4 (the window and its alignment with training): in a completed run of
    Part A or of Part B on arrays [Tsp] and [T1] of the same length, [T1]
    holds the temperatures read, one per tick, and with the scaled rows [Xs]
    of the samples (row [j] made of the set point [Tsp[j]] and the error
    [Tsp[j] - T1[j]]), the model is given, from tick [window] on, at each
    tick [i] the rows [Xs[i-window:i]]: exactly [window] rows, those of the
    samples [i-window .. i-1], oldest first.  This is the window that the
    training cell builds for index [i], [X_lstm[i - window]], and the label
    it pairs with it is the output of index [i]. *)
Theorem window_matches_training
    (sensor : list event -> Q) (predict : list (Q * Q) -> Q)
    (s_x : Scaler.feature * Scaler.feature) (s_y : Scaler.feature)
    (window : nat) (clock : list Q) (s0 s' : nb) :
  partA sensor predict s_x s_y window clock s0 = (Ok tt, s')
  \/ partB sensor predict s_x s_y window clock s0 = (Ok tt, s') ->
  length (Tsp s0) = length (T1 s0) ->
  let n := length clock in
  let Xs := all_rows s_x (Tsp s') (T1 s') in
  rev (readings (log s')) = take n (T1 s')
  /\ rev (model_inputs (log s'))
     = map (fun i => take window (drop (i - window) Xs)) (seq window (n - window))
  /\ forall i, (window <= i < n)%nat ->
       X_lstm window Xs !! (i - window)%nat
       = Some (take window (drop (i - window) Xs))
       /\ length (take window (drop (i - window) Xs)) = window
       /\ (forall k, (k < window)%nat ->
             take window (drop (i - window) Xs) !! k = Xs !! (i - window + k)%nat)
       /\ (forall ys : list Q, y_lstm window ys !! (i - window)%nat = ys !! i).
Proof.
  intros Hrun Hal n Xs.
  assert (H : history s_x window n s' /\ aligned s').
  { destruct Hrun as [Hrun|Hrun].
    - split; [eapply partA_history; exact Hrun|].
      pose proof (partA_aligned sensor predict s_x s_y window clock s0 Hal) as Ha.
      rewrite Hrun in Ha. exact Ha.
    - split; [eapply partB_history; exact Hrun|].
      pose proof (partB_aligned sensor predict s_x s_y window clock s0 Hal) as Ha.
      rewrite Hrun in Ha. exact Ha. }
  destruct H as [Hh Ha].
  destruct (history_windows s_x window n s' Hh Ha) as (Hrd & Hmi & Hlen).
  fold Xs in Hmi, Hlen.
  split; [exact Hrd|]. split; [exact Hmi|].
  intros i Hi. split; [|split; [|split]].
  - apply X_lstm_lookup; lia.
  - apply window_length; lia.
  - intros k Hk. apply window_lookup, Hk.
  - intros ys. apply y_lstm_lookup. lia.
Qed.

Lemma window_matches_training_witness :
  let sensor := fun _ : list event => 21 in
  let predict := fun _ : list (Q * Q) => 1 # 2 in
  let s_x := (Scaler.mk_feature 1 0, Scaler.mk_feature 1 0) in
  let s_y := Scaler.mk_feature (1 # 100) 0 in
  let s0 := mk_nb (replicate 4 0) [] (replicate 4 0) (replicate 4 0)
                  (replicate 4 0) [] [21; 50; 50; 21] 0 0 0 [] in
  let s' := (partB sensor predict s_x s_y 2 [0; 1; 2; 3] s0).2 in
  let Xs := all_rows s_x (Tsp s') (T1 s') in
  rev (readings (log s')) = take 4 (T1 s')
  /\ rev (model_inputs (log s'))
     = [take 2 (drop 0 Xs); take 2 (drop 1 Xs)]
  /\ X_lstm 2 Xs !! 1%nat = Some (take 2 (drop 1 Xs)).
Proof.
  intros sensor predict s_x s_y s0 s' Xs.
  destruct (window_matches_training sensor predict s_x s_y 2 [0; 1; 2; 3] s0 s')
    as (Hrd & Hmi & Hw).
  - right. vm_compute. reflexivity.
  - reflexivity.
  - split; [exact Hrd|]. split; [exact Hmi|].
    destruct (Hw 3%nat) as (HX & _); [cbn; lia|]. exact HX.
Defined.

(** ** The first tick of a run *)

Section FirstTick.

Variable sensor : list event -> Q.
Variable predict : list (Q * Q) -> Q.
Variable s_x : Scaler.feature * Scaler.feature.
Variable s_y : Scaler.feature.
Variable window : nat.

(** [T1[-1]] at the first tick of a run on fresh arrays of at least two
    elements: the zero of the last element, not the temperature just
    stored in [T1[0]]. *)
Lemma fresh_last_slot (n : nat) (v : Q) :
  (2 <= n)%nat ->
  PyArr.getitem (<[0%nat:=v]> (replicate n 0)) (Z.of_nat 0 - 1) = Ok 0.
Proof.
  intros Hn. rewrite getitem_minus_one, length_insert, length_replicate.
  rewrite list_lookup_insert_ne by lia.
  rewrite lookup_replicate_2 by lia. reflexivity.
Qed.

(** With a single element, [T1[-1]] is [T1[0]]. *)
Lemma single_last_slot (v : Q) :
  PyArr.getitem (<[0%nat:=v]> (replicate 1 0)) (Z.of_nat 0 - 1) = Ok v.
Proof. reflexivity. Qed.

(** In the first tick of Part A on fresh arrays, every call of [pid] gets
    the temperature just read as [pv] and zero as [pv_last]. *)
Lemma partA_first_tick_pv_last (n : nat) (s : nb) (t : Q) (done : bool)
    (evs : list event) (sp pv pv_last ie dt : Q) :
  (2 <= n)%nat -> T1 s = replicate n 0 ->
  partA_block sensor s_x window s 0 t done evs ->
  CallPid sp pv pv_last ie dt ∈ evs ->
  pv = reading sensor s /\ pv_last = 0.
Proof.
  intros Hn HT Hb Hin.
  assert (Hlast : forall pvl,
             PyArr.getitem (<[0%nat:=reading sensor s]> (T1 s)) (Z.of_nat 0 - 1)
             = Ok pvl -> pvl = 0).
  { intros pvl H. rewrite HT, fresh_last_slot in H by exact Hn. congruence. }
  inversion Hb; subst;
    repeat match goal with
           | H : _ ∈ [] |- _ => apply elem_of_nil in H; contradiction
           | H : _ ∈ _ :: _ |- _ =>
               apply elem_of_cons in H; destruct H as [H|H];
               [try discriminate H|]
           end.
  all: match goal with
       | H : CallPid _ _ _ _ _ = CallPid _ _ _ _ _ |- _ =>
           injection H as -> -> -> -> ->
       end.
  all: split; [reflexivity|eapply Hlast; eassumption].
Qed.

End FirstTick.

(** C8, on the code: at tick 0 of Part A and of the data collection, on
    fresh arrays of three elements and with a first measurement of 21 degrees,
    [pid] is called with [pv = 21] and [pv_last = T1[-1] = 0], not with the
    first measurement as [pv_last].  (The derivative term of that call is
    zero all the same: [dt] is zero and so is [tauD].) *)
Theorem first_tick_previous_measurement :
  let sensor := fun _ : list event => 21 in
  let predict := fun _ : list (Q * Q) => 1 # 2 in
  let s_x := (Scaler.mk_feature 1 0, Scaler.mk_feature 1 0) in
  let s_y := Scaler.mk_feature (1 # 100) 0 in
  let test := mk_nb (replicate 3 0) [] (replicate 3 0) (replicate 3 0)
                    (replicate 3 0) [] [21; 21; 21] 0 0 0 [] in
  let training := mk_nb (replicate 3 0) (replicate 3 0) [] []
                        (replicate 3 0) [21; 21; 21] [] 0 0 0 [] in
  let logA := log (partA sensor predict s_x s_y 15 [0] test).2 in
  let logC := log (data_collection sensor [0] training).2 in
  logA !! 2%nat = Some (ReadT1 21)
  /\ logA !! 1%nat = Some (CallPid 21 21 0 0 0)
  /\ logC !! 2%nat = Some (ReadT1 21)
  /\ logC !! 1%nat = Some (CallPid 21 21 0 0 0)
  /\ ~ 0 == 21
  /\ exists r, pid 21 21 0 0 0 = Ok r /\ Pid.D r == 0.
Proof.
  cbv zeta. repeat split; try (vm_compute; reflexivity).
  - intros H. discriminate H.
  - eexists. split; [vm_compute; reflexivity|]. reflexivity.
Qed.

(** C7, on the code: for a run of no tick the training schedule [Tsp1] is
    generated, empty as it should be, but the generation of the test schedule
    [Tsp] raises [IndexError]: its last statement reads [Tsp[0]], which an
    empty array does not have. *)
Theorem test_schedule_fails_on_empty_run
    (window : nat) (room : Q) (rnd : nat -> nat) :
  Tsp1_schedule 0 room rnd = []
  /\ Tsp_schedule window 0 room rnd = Raise IndexError.
Proof.
  split; [|apply Tsp_schedule_no_tick].
  destruct (Tsp1_schedule_spec rnd 0 room) as (Hlen & _).
  destruct (Tsp1_schedule 0 room rnd); [reflexivity|discriminate Hlen].
Qed.

(** * Further properties of the notebook *)

(** ** The set point schedules, element by element *)

Lemma hold_start_lower (rnd : nat -> nat) (e0 k m : nat) :
  (e0 + 240 * m <= hold_start rnd e0 k m)%nat.
Proof.
  induction m as [|m IH]; cbn [hold_start]; [lia|].
  pose proof (hold_duration_range rnd k m). lia.
Qed.

(** Every index from [e0] on falls in exactly one hold; here, in one. *)
Lemma hold_covering (rnd : nat -> nat) (e0 k j : nat) :
  (e0 <= j)%nat ->
  exists m, (hold_start rnd e0 k m <= j < hold_start rnd e0 k (S m))%nat.
Proof.
  intros Hj.
  assert (H : forall n, (hold_start rnd e0 k n <= j)%nat
                        \/ exists m, (hold_start rnd e0 k m <= j
                                      < hold_start rnd e0 k (S m))%nat).
  { induction n as [|n IH]; [left; exact Hj|].
    destruct IH as [IH|IH]; [|right; exact IH].
    destruct (Nat.le_gt_cases (hold_start rnd e0 k (S n)) j) as [Hle|Hgt].
    - left. exact Hle.
    - right. exists n. lia. }
  destruct (H (S j)) as [Hle|Hm]; [|exact Hm].
  pose proof (hold_start_lower rnd e0 k (S j)). lia.
Qed.

(** X1 (training schedule): for every run length and every sequence of
    draws, [Tsp1] has the length of the run, its first 30 elements (all of
    them in a shorter run) hold the room temperature, every later element
    holds the level of the hold it falls in, and the hold that is running
    when the run ends is cut there. *)
Theorem training_schedule_coverage (rnd : nat -> nat) (loops : nat) (room : Q) :
  let a := Tsp1_schedule loops room rnd in
  length a = loops
  /\ (forall j, (j < 30)%nat -> (j < loops)%nat -> a !! j = Some (1 * room))
  /\ (forall m j,
        (hold_start rnd 30 0 m <= j < hold_start rnd 30 0 (S m))%nat ->
        (j < loops)%nat -> a !! j = Some (hold_level rnd 0 m))
  /\ (forall m,
        (hold_start rnd 30 0 m <= loops < hold_start rnd 30 0 (S m))%nat ->
        drop (hold_start rnd 30 0 m) a
        = replicate (loops - hold_start rnd 30 0 m) (hold_level rnd 0 m)).
Proof. apply Tsp1_schedule_spec. Qed.

(** X2 (test schedule): for every run of at least one tick, the generation
    of [Tsp] succeeds, [Tsp] has the length of the run, its first
    [window + 15] elements and its last 120 hold the room temperature, and
    every element in between holds the level of the hold it falls in. *)
Theorem test_schedule_coverage
    (rnd : nat -> nat) (window loops : nat) (room : Q) :
  (0 < loops)%nat ->
  exists a, Tsp_schedule window loops room rnd = Ok a
    /\ length a = loops
    /\ (forall j, (j < window + 15)%nat -> (j < loops)%nat ->
                  a !! j = Some (1 * room))
    /\ (forall j, (loops - 120 <= j)%nat -> (j < loops)%nat ->
                  a !! j = Some (1 * room))
    /\ (forall m j,
          (hold_start rnd (window + 15) 0 m <= j
           < hold_start rnd (window + 15) 0 (S m))%nat ->
          (j < loops - 120)%nat -> a !! j = Some (hold_level rnd 0 m)).
Proof. apply Tsp_schedule_spec. Qed.

Lemma test_schedule_coverage_witness :
  exists a, Tsp_schedule 15 400 21 (fun k => (7 * k + 3)%nat) = Ok a
    /\ length a = 400%nat
    /\ a !! 29%nat = Some (1 * 21)
    /\ a !! 399%nat = Some (1 * 21)
    /\ a !! 100%nat = Some (hold_level (fun k => (7 * k + 3)%nat) 0 0).
Proof.
  destruct (test_schedule_coverage (fun k => (7 * k + 3)%nat) 15 400 21)
    as (a & Ha & Hlen & Hquiet & Htail & Hhold); [lia|].
  exists a. split; [exact Ha|]. split; [exact Hlen|].
  split; [apply Hquiet; lia|]. split; [apply Htail; lia|].
  apply Hhold; [|lia]. vm_compute. lia.
Defined.

(** X3 (values of the schedules): every element of a generated schedule is
    the room temperature or a whole number of degrees between 30 and 70. *)
Theorem schedule_values (rnd : nat -> nat) (window loops : nat) (room : Q) :
  (forall j v,
      Tsp1_schedule loops room rnd !! j = Some v ->
      v = 1 * room
      \/ exists z : Z, v = inject_Z z /\ (30 <= z <= 70)%Z)
  /\ (forall a j v,
        Tsp_schedule window loops room rnd = Ok a -> a !! j = Some v ->
        v = 1 * room
        \/ exists z : Z, v = inject_Z z /\ (30 <= z <= 70)%Z).
Proof.
  assert (Hlevel : forall e0 m, exists z : Z,
             hold_level rnd e0 m = inject_Z z /\ (30 <= z <= 70)%Z).
  { intros e0 m. unfold hold_level. eexists. split; [reflexivity|].
    pose proof (randint_range 30 70 (rnd (S (e0 + 2 * m)))). lia. }
  split.
  - intros j v Hv.
    destruct (Tsp1_schedule_spec rnd loops room) as (Hlen & Hquiet & Hhold & _).
    assert (Hj : (j < loops)%nat).
    { rewrite <- Hlen. eapply lookup_lt_Some. exact Hv. }
    destruct (Nat.lt_ge_cases j 30) as [Hq|Hq].
    + left. rewrite (Hquiet j Hq Hj) in Hv. congruence.
    + right. destruct (hold_covering rnd 30 0 j Hq) as (m & Hm).
      rewrite (Hhold m j Hm Hj) in Hv. injection Hv as <-. apply Hlevel.
  - intros a j v Ha Hv.
    destruct (Nat.eq_dec loops 0%nat) as [->|Hpos].
    { rewrite Tsp_schedule_no_tick in Ha. discriminate Ha. }
    destruct (Tsp_schedule_spec rnd window loops room) as
      (a' & Ha' & Hlen & Hquiet & Htail & Hhold); [lia|].
    rewrite Ha in Ha'. injection Ha' as <-.
    assert (Hj : (j < loops)%nat).
    { rewrite <- Hlen. eapply lookup_lt_Some. exact Hv. }
    destruct (Nat.lt_ge_cases j (window + 15)) as [Hq|Hq].
    + left. rewrite (Hquiet j Hq Hj) in Hv. congruence.
    + destruct (Nat.le_gt_cases (loops - 120) j) as [Ht|Ht].
      * left. rewrite (Htail j Ht Hj) in Hv. congruence.
      * right. destruct (hold_covering rnd (window + 15) 0 j Hq) as (m & Hm).
        rewrite (Hhold m j Hm Ht) in Hv. injection Hv as <-. apply Hlevel.
Qed.

Lemma schedule_values_witness :
  1 * 21 = 1 * 21
  \/ exists z : Z, 1 * 21 = inject_Z z /\ (30 <= z <= 70)%Z.
Proof.
  destruct (schedule_values (fun k => (7 * k + 3)%nat) 15 400 21) as [H _].
  apply (H 5%nat (1 * 21)). vm_compute. reflexivity.
Defined.

(** ** The PID controller: failure, clipping and direction *)

(** X4 (the only failure of [pid]): a call of [pid] raises exactly when the
    integral time [tauI] is zero, and then it raises [ZeroDivisionError],
    whatever its arguments; with any other tuning every call returns. *)
Theorem pid_raises_iff_tauI_zero (Kc tauI tauD sp pv pv_last ierr dt : Q) :
  (tauI == 0 ->
   Pid.pid Kc tauI tauD sp pv pv_last ierr dt = Raise ZeroDivisionError)
  /\ (~ tauI == 0 ->
      exists r, Pid.pid Kc tauI tauD sp pv pv_last ierr dt = Ok r).
Proof.
  split.
  - intros H0. unfold Pid.pid, pydiv.
    apply Qeq_bool_iff in H0. rewrite H0. reflexivity.
  - intros Hnz. apply PidFacts.pid_total, Hnz.
Qed.

Lemma pid_raises_iff_tauI_zero_witness :
  Pid.pid 6 0 0 50 25 25 0 1 = Raise ZeroDivisionError
  /\ exists r, Pid.pid 6 75 0 50 25 25 0 1 = Ok r.
Proof.
  split.
  - apply (pid_raises_iff_tauI_zero 6 0 0 50 25 25 0 1). reflexivity.
  - apply (pid_raises_iff_tauI_zero 6 75 0 50 25 25 0 1).
    intros H. discriminate H.
Defined.

Lemma clip_outer_inside (x : Q) :
  0 <= x -> x <= 100 -> py_max 0 (py_min 100 x) == x.
Proof.
  intros H0 H1.
  destruct (py_min_spec 100 x) as [[H2 E2]|[H2 E2]]; rewrite E2.
  - destruct (py_max_spec 0 x) as [[H3 E3]|[H3 E3]]; rewrite E3; lra.
  - destruct (py_max_spec 0 100) as [[H3 E3]|[H3 E3]]; rewrite E3; lra.
Qed.

Lemma np_clip_outer (x : Q) : np_clip x 0 100 == py_max 0 (py_min 100 x).
Proof.
  destruct (Qlt_le_dec x 0) as [Hlo|Hlo].
  - rewrite clip_outer_low by exact Hlo. unfold np_clip.
    destruct (py_max_spec x 0) as [[H1 E1]|[H1 E1]]; rewrite E1; [|lra].
    destruct (py_min_spec 0 100) as [[H2 E2]|[H2 E2]]; rewrite E2; lra.
  - destruct (Qlt_le_dec 100 x) as [Hhi|Hhi].
    + rewrite clip_outer_high by exact Hhi. unfold np_clip.
      destruct (py_max_spec x 0) as [[H1 E1]|[H1 E1]]; rewrite E1.
      * destruct (py_min_spec 0 100) as [[H2 E2]|[H2 E2]]; rewrite E2; lra.
      * destruct (py_min_spec x 100) as [[H2 E2]|[H2 E2]]; rewrite E2; lra.
    + rewrite clip_outer_inside by assumption. unfold np_clip.
      destruct (py_max_spec x 0) as [[H1 E1]|[H1 E1]]; rewrite E1.
      * destruct (py_min_spec 0 100) as [[H2 E2]|[H2 E2]]; rewrite E2; lra.
      * destruct (py_min_spec x 100) as [[H2 E2]|[H2 E2]]; rewrite E2; lra.
Qed.





(** ** The sequence-model controller: what it accepts *)

Section LstmShapes.

Variable predict : list (Q * Q) -> Q.
Variable s_x : Scaler.feature * Scaler.feature.
Variable s_y : Scaler.feature.


End LstmShapes.


(** ** The training pairs *)

Section TrainingPairs.

Variable window : nat.

Lemma X_lstm_length (Xs : list (Q * Q)) :
  length (X_lstm window Xs) = (length Xs - window)%nat.
Proof. unfold X_lstm. rewrite length_map, length_seq. reflexivity. Qed.

Lemma X_lstm_at (Xs : list (Q * Q)) (k : nat) :
  (k < length Xs - window)%nat ->
  X_lstm window Xs !! k = Some (take window (drop k Xs)).
Proof.
  intros Hk.
  pose proof (X_lstm_lookup window Xs (k + window)) as H.
  replace (k + window - window)%nat with k in H by lia.
  apply H; lia.
Qed.

(** X9 (shape of the training data): from [n] scaled samples the window
    construction makes [n - window] pairs, none when there are not more
    than [window] samples; there are as many labels as windows, every
    window has exactly [window] rows, window [k] holds the rows
    [k .. k+window-1] and its label is the one of sample [k + window]: the
    sample just after the window. *)
Theorem training_pairs_shape (Xs : list (Q * Q)) (ys : list Q) :
  length ys = length Xs ->
  length (X_lstm window Xs) = (length Xs - window)%nat
  /\ length (y_lstm window ys) = length (X_lstm window Xs)
  /\ (forall k w, X_lstm window Xs !! k = Some w ->
        length w = window
        /\ (forall j, (j < window)%nat -> w !! j = Xs !! (k + j)%nat)
        /\ y_lstm window ys !! k = ys !! (k + window)%nat
        /\ is_Some (ys !! (k + window)%nat)).
Proof.
  intros Hlen. split; [apply X_lstm_length|].
  split; [rewrite y_lstm_drop, length_drop, X_lstm_length; lia|].
  intros k w Hw.
  assert (Hk : (k < length Xs - window)%nat).
  { rewrite <- X_lstm_length. eapply lookup_lt_Some. exact Hw. }
  rewrite X_lstm_at in Hw by exact Hk. injection Hw as <-.
  split; [rewrite length_take, length_drop; lia|].
  split.
  - intros j Hj. rewrite lookup_take_lt by exact Hj. apply lookup_drop.
  - split.
    + rewrite y_lstm_drop, lookup_drop. f_equal. lia.
    + apply lookup_lt_is_Some_2. lia.
Qed.

End TrainingPairs.

Lemma training_pairs_shape_witness :
  length (X_lstm 2 [(1, 0); (2, 0); (3, 0)]) = (3 - 2)%nat
  /\ length (y_lstm 2 [10; 20; 30]) = length (X_lstm 2 [(1, 0); (2, 0); (3, 0)]).
Proof.
  destruct (training_pairs_shape 2 [(1, 0); (2, 0); (3, 0)] [10; 20; 30])
    as (H1 & H2 & _); [reflexivity|].
  split; [exact H1|exact H2].
Defined.

(** ** What a completed tick has stored *)

Section Stores.

Variable sensor : list event -> Q.
Variable predict : list (Q * Q) -> Q.
Variable s_x : Scaler.feature * Scaler.feature.
Variable s_y : Scaler.feature.
Variable window : nat.

Lemma collect_tick_stores (i : nat) (t : Q) (s : nb) :
  wp (collect_tick sensor i t)
     (fun r s' => is_ok r = true -> collect_stored sensor s i t s') s.
Proof.
  unfold collect_tick. cbv zeta.
  wp_run.
  all: try (let X := fresh in intros X; discriminate X).
  all: norm_access.
  all: intros _.
  eexists _, _, _. repeat split; try eassumption.
Qed.

(** The window that [lstm] is given at the tick [i]. *)
Ltac window_rows_solve i s :=
  match goal with
  | E1 : PyArr.np_sub _ _ = Ok _, E2 : PyArr.vstack_T _ _ = Ok _,
    E3 : Scaler.transform _ _ = Ok _ |- _ =>
      repeat rewrite getslice_window in E1 by assumption;
      rewrite getslice_window in E2 by assumption;
      rewrite window_insert in E1 by assumption;
      let Hle := fresh "Hle" in
      assert (Hle : (length (take window (drop (i - window) (Tsp s)))
                     <= length (take window (drop (i - window) (T1 s))))%nat)
        by (rewrite (window_length (T1 s)) by lia; apply window_length_le);
      let Hl := fresh "Hl" in
      let Hne := fresh "Hne" in
      destruct (model_input_rows _ _ _ _ _ _ E1 E2 E3 Hle) as (Hl & Hne & ->);
      assert (0 < window)%nat
        by (destruct window; [exfalso; apply Hne; reflexivity | lia]);
      assert (i <= length (Tsp s))%nat
        by (apply (window_full (Tsp s) window i); [lia|lia|];
            rewrite <- Hl; apply window_length; lia)
  end.

Lemma partA_tick_stores (i : nat) (t : Q) (s : nb) :
  wp (partA_tick sensor predict s_x s_y window i t)
     (fun r s' => is_ok r = true ->
                  partA_stored sensor predict s_x s_y window s i t s') s.
Proof.
  unfold partA_tick, run_lstm. cbv zeta.
  wp_run.
  all: try (let X := fresh in intros X; discriminate X).
  all: norm_access.
  all: intros _.
  - window_rows_solve i s.
    eexists _, _, _. repeat split; try eassumption.
    unfold Qlstm_after, model_events.
    destruct (Nat.leb_spec window i); [|lia]. reflexivity.
  - eexists _, _, _. repeat split; try eassumption; try lia.
    unfold Qlstm_after, model_events.
    destruct (Nat.leb_spec window i); [lia|]. reflexivity.
Qed.

Lemma partB_tick_stores (i : nat) (t : Q) (s : nb) :
  wp (partB_tick sensor predict s_x s_y window i t)
     (fun r s' => is_ok r = true ->
                  partB_stored sensor predict s_x s_y window s i t s') s.
Proof.
  unfold partB_tick, run_lstm. cbv zeta.
  wp_run.
  all: try (let X := fresh in intros X; discriminate X).
  all: norm_access.
  all: intros _.
  - window_rows_solve i s.
    eexists. unfold Qlstm_after, model_events.
    destruct (Nat.leb_spec window i); [|lia].
    split; [apply list_lookup_insert_eq; assumption|].
    repeat split; try eassumption.
  - eexists. unfold Qlstm_after, model_events.
    destruct (Nat.leb_spec window i); [lia|].
    split; [eassumption|].
    repeat split; try eassumption; try lia.
Qed.

End Stores.

(** ** The logs of whole runs *)

Lemma follows_tail ok e l : follows ok (e :: l) -> follows ok l.
Proof. intros H l2 e0 l1 Hl. apply (H (e :: l2) e0 l1). rewrite Hl. reflexivity. Qed.

Lemma follows_head ok e l : follows ok (e :: l) -> ok e (head l).
Proof. intros H. apply (H [] e l). reflexivity. Qed.

Lemma follows_Forall ok (P : event -> Prop) l :
  (forall e prev, ok e prev -> P e) -> follows ok l -> Forall P l.
Proof.
  intros HP. induction l as [|e l IH]; intros Hl; constructor.
  - apply (HP e (head l)), follows_head, Hl.
  - apply IH. eapply follows_tail. exact Hl.
Qed.



Lemma pid_calls_none l :
  Forall (fun e => match e with CallPid _ _ _ _ _ => False | _ => True end) l ->
  pid_calls l = [].
Proof.
  induction 1 as [|e l He _ IH]; [reflexivity|].
  destruct e; cbn; try exact IH. contradiction.
Qed.

Lemma data_collection_unfold sensor (clock : list Q) (s : nb) :
  data_collection sensor clock s
  = for_enumerate (collect_tick sensor) 0 clock (collect_start s).
Proof. reflexivity. Qed.

Section RunLogs.

Variable sensor : list event -> Q.
Variable predict : list (Q * Q) -> Q.
Variable s_x : Scaler.feature * Scaler.feature.
Variable s_y : Scaler.feature.
Variable window : nat.



Lemma partB_block_follows s i t t' done evs l :
  partB_block sensor predict s_x s_y window s i t done evs ->
  follows (okB predict s_y) (Tick t' :: l) ->
  follows (okB predict s_y) (evs ++ Tick t' :: l).
Proof.
  intros Hb Hl. destruct Hb; cbn [app];
    repeat (apply follows_cons; [cbn; eauto 10|]);
    first [exact Hl | exact (follows_tail _ _ _ Hl)].
Qed.

(** X11 (the loop of Part B): in every run of Part B, completed or ended by
    an exception, [pid] is never called, the temperature is read just after
    the clock ticked, the model is only invoked just after the temperature
    was read, and a heater command that follows an invocation of the model
    is the prediction for the window just given to it, unscaled and clipped
    to [0,100]; any other heater command follows the reading of the
    temperature directly. *)
Theorem partB_is_model_only (clock : list Q) (s : nb) :
  let l := log (partB sensor predict s_x s_y window clock s).2 in
  follows (okB predict s_y) l /\ pid_calls l = [].
Proof.
  assert (H : follows (okB predict s_y)
                (log (partB sensor predict s_x s_y window clock s).2)).
  { rewrite partB_unfold.
    apply (for_enumerate_always _ (fun s => follows (okB predict s_y) (log s))).
    - intros i t s0 H0. eapply wp_mono; [|apply partB_tick_block].
      cbn beta. intros r s' (evs & -> & Hb). cbn [log set_log].
      eapply partB_block_follows; [exact Hb|].
      apply follows_cons; [exact Logic.I|exact H0].
    - apply follows_nil. }
  cbv zeta. split; [exact H|].
  apply pid_calls_none. eapply follows_Forall; [|exact H].
  intros [] prev; cbn; intros Hok; try exact Logic.I. exact Hok.
Qed.

End RunLogs.

(** ** What a completed run has stored in the arrays *)

(** A loop rule that keeps track of the ticks done. *)
Lemma for_enumerate_done (body : nat -> Q -> M unit)
    (Inv : list Q -> nb -> Prop) (Err : nb -> Prop) :
  (forall done t s, Inv done s ->
     wp (body (length done) t)
        (fun r s' => match r with
                     | Ok _ => Inv (done ++ [t]) s'
                     | Raise _ => Err s'
                     end)
        (set_log (Tick t :: log s) s)) ->
  forall clock done s, Inv done s ->
    wp (for_enumerate body (length done) clock)
       (fun r s' => match r with
                    | Ok _ => Inv (done ++ clock) s'
                    | Raise _ => Err s'
                    end) s.
Proof.
  intros Hbody clock. induction clock as [|t clock IH]; intros done s HI.
  - cbn [for_enumerate]. apply wp_ret. rewrite app_nil_r. exact HI.
  - cbn [for_enumerate]. apply wp_bind, wp_emit. apply wp_bind.
    specialize (Hbody done t s HI). unfold wp in Hbody |- *.
    destruct (body (length done) t (set_log (Tick t :: log s) s))
      as [[[]|e] s']; cbn [fst snd] in *; [|exact Hbody].
    specialize (IH (done ++ [t]) s' Hbody). unfold wp in IH.
    rewrite length_app in IH. cbn [length] in IH. rewrite Nat.add_1_r in IH.
    rewrite <- app_assoc in IH. exact IH.
Qed.

Lemma take_S_insert (l : list Q) (i : nat) (x : Q) :
  (i < length l)%nat -> take (S i) (<[i:=x]> l) = take i l ++ [x].
Proof.
  intros Hi.
  rewrite (take_S_r _ i x) by (apply list_lookup_insert_eq; exact Hi).
  rewrite take_insert_ge by lia. reflexivity.
Qed.

Lemma take_S_lookup (l : list Q) (i : nat) (x : Q) :
  l !! i = Some x -> take (S i) l = take i l ++ [x].
Proof. intros H. apply take_S_r, H. Qed.

Lemma last_time_snoc (done : list Q) (t : Q) : last_time (done ++ [t]) = t.
Proof. unfold last_time. rewrite last_snoc. reflexivity. Qed.

Lemma length_snoc (done : list Q) (t : Q) :
  length (done ++ [t]) = S (length done).
Proof. rewrite length_app. cbn. lia. Qed.


Section Records.

Variable sensor : list event -> Q.
Variable predict : list (Q * Q) -> Q.
Variable s_x : Scaler.feature * Scaler.feature.
Variable s_y : Scaler.feature.
Variable window : nat.

Lemma collect_recorded_step sp0 done t s s' :
  collect_recorded sp0 done s ->
  collect_stored sensor (set_log (Tick t :: log s) s) (length done) t s' ->
  collect_recorded sp0 (done ++ [t]) s'.
Proof.
  intros (Htm & HlT & HlQ & Hsp & Hsp0 & Ht & HT & HQ & Hp)
         (sp & pvl & out & Esp & Epv & Epid & L1 & L2 & L3 & ->).
  cbn [tm T1 Q1 set_log log] in *.
  unfold collect_recorded. rewrite length_snoc. cbv zeta.
  cbn [tm T1 Q1 Tsp1 prev_time log].
  apply lookup_lt_Some in Esp.
  rewrite !length_insert, !take_S_insert by assumption.
  rewrite Ht, HT, HQ, last_time_snoc.
  repeat split; try lia; try assumption.
Qed.

Lemma model_command_stable (s s' : nb) (i k : nat) :
  (window <= k <= i)%nat -> Tsp s' = Tsp s ->
  (forall j, j <> i -> T1 s' !! j = T1 s !! j) ->
  model_command predict s_x s_y window s' k
  = model_command predict s_x s_y window s k.
Proof.
  intros Hk HS HT. unfold model_command.
  rewrite (window_at_stable s_x window s s' i k Hk HS HT). reflexivity.
Qed.

Lemma Qlstm_after_recorded (s : nb) (i : nat) (v : Q) (s' : nb) :
  Tsp s' = Tsp s -> T1 s' = <[i:=v]> (T1 s) ->
  Qlstm s' = Qlstm_after predict s_x s_y window s i ->
  ((window <= i)%nat -> (i < length (Qlstm s))%nat) ->
  (forall k, (window <= k < i)%nat ->
     Qlstm s !! k = Some (model_command predict s_x s_y window s k)) ->
  forall k, (window <= k < S i)%nat ->
    Qlstm s' !! k = Some (model_command predict s_x s_y window s' k).
Proof.
  intros HS HT HQ Hlen Hold k Hk.
  assert (Hne : forall j, j <> i -> T1 s' !! j = T1 s !! j).
  { intros j Hj. rewrite HT. apply list_lookup_insert_ne. lia. }
  rewrite (model_command_stable s s' i k) by (try lia; assumption).
  rewrite HQ. unfold Qlstm_after.
  destruct (Nat.leb_spec window i) as [Hw|Hw]; [|lia].
  destruct (Nat.eq_dec k i) as [->|Hki].
  - apply list_lookup_insert_eq. apply Hlen, Hw.
  - rewrite list_lookup_insert_ne by lia. apply Hold. lia.
Qed.

Lemma heater_writes_model_events (s : nb) (i : nat) (l : list event) :
  heater_writes (model_events s_x window s i ++ l) = heater_writes l.
Proof. unfold model_events. destruct (window <=? i)%nat; reflexivity. Qed.

Lemma partA_recorded_step done t s s' :
  partA_recorded predict s_x s_y window done s ->
  partA_stored sensor predict s_x s_y window
    (set_log (Tick t :: log s) s) (length done) t s' ->
  partA_recorded predict s_x s_y window (done ++ [t]) s'.
Proof.
  intros (Htm & Hlq & Ht & HQ & HL & Hp)
         (sp & pvl & out & Esp & Epv & Epid & L1 & L2 & L3 & Lw & Hs').
  cbn [tm T1 Qpid Qlstm set_log log] in *.
  unfold partA_recorded. rewrite length_snoc. cbv zeta.
  split; [rewrite Hs'; cbn [tm]; rewrite length_insert; lia|].
  split; [rewrite Hs'; cbn [Qpid]; rewrite length_insert; lia|].
  split; [rewrite Hs'; cbn [tm]; rewrite take_S_insert, Ht by assumption;
          reflexivity|].
  split.
  { rewrite Hs'. cbn [Qpid log].
    rewrite take_S_insert, HQ, heater_writes_model_events by assumption.
    reflexivity. }
  split; [|rewrite Hs'; cbn [prev_time]; symmetry; apply last_time_snoc].
  apply (Qlstm_after_recorded (set_log (Tick t :: log s) s) (length done)
           (reading sensor (set_log (Tick t :: log s) s))).
  - rewrite Hs'. reflexivity.
  - rewrite Hs'. reflexivity.
  - rewrite Hs'. reflexivity.
  - intros Hw. apply Lw, Hw.
  - exact HL.
Qed.

Lemma partB_recorded_step done t s s' :
  partB_recorded predict s_x s_y window done s ->
  partB_stored sensor predict s_x s_y window
    (set_log (Tick t :: log s) s) (length done) t s' ->
  partB_recorded predict s_x s_y window (done ++ [t]) s'.
Proof.
  intros (Htm & Hlq & Ht & HQ & HL & Hp) (q & Eq & L1 & L2 & Lw & Hs').
  cbn [tm T1 Qpid Qlstm set_log log] in *.
  unfold partB_recorded. rewrite length_snoc. cbv zeta.
  assert (Hlen : (length done < length (Qlstm s))%nat).
  { apply lookup_lt_Some in Eq. unfold Qlstm_after in Eq.
    destruct (window <=? length done)%nat;
      [rewrite length_insert in Eq|]; exact Eq. }
  assert (HlenA : length (Qlstm_after predict s_x s_y window
                            (set_log (Tick t :: log s) s) (length done))
                  = length (Qlstm s)).
  { unfold Qlstm_after. destruct (window <=? length done)%nat;
      [apply length_insert|reflexivity]. }
  split; [rewrite Hs'; cbn [tm]; rewrite length_insert; lia|].
  split; [rewrite Hs'; cbn [Qlstm]; rewrite HlenA; lia|].
  split; [rewrite Hs'; cbn [tm]; rewrite take_S_insert, Ht by assumption;
          reflexivity|].
  split.
  { rewrite Hs'. cbn [Qlstm log].
    rewrite (take_S_lookup _ _ _ Eq).
    change (heater_writes (WriteQ1 q :: ?l)) with (q :: heater_writes l).
    rewrite heater_writes_model_events. cbn [rev].
    change (heater_writes (ReadT1 ?v :: Tick t :: log s))
      with (heater_writes (log s)).
    rewrite <- HQ. f_equal.
    unfold Qlstm_after. destruct (window <=? length done)%nat; [|reflexivity].
    apply take_insert_ge. lia. }
  split; [|rewrite Hs'; cbn [prev_time]; symmetry; apply last_time_snoc].
  apply (Qlstm_after_recorded (set_log (Tick t :: log s) s) (length done)
           (reading sensor (set_log (Tick t :: log s) s))).
  - rewrite Hs'. reflexivity.
  - rewrite Hs'. reflexivity.
  - rewrite Hs'. reflexivity.
  - intros _. exact Hlen.
  - exact HL.
Qed.

(** *** Completed runs *)

Lemma data_collection_recorded (clock : list Q) (s s' : nb) :
  data_collection sensor clock s = (Ok tt, s') ->
  collect_recorded (Tsp1 s) clock s'.
Proof.
  rewrite data_collection_unfold. intros Hrun.
  assert (Hbody : forall done t s0,
             collect_recorded (Tsp1 s) done s0 ->
             wp (collect_tick sensor (length done) t)
                (fun r s1 => match r with
                             | Ok _ => collect_recorded (Tsp1 s) (done ++ [t]) s1
                             | Raise _ => True
                             end)
                (set_log (Tick t :: log s0) s0)).
  { intros done t s0 Hi. eapply wp_mono; [|apply collect_tick_stores].
    cbn beta. intros [[]|e] s1 Hst; [|exact Logic.I].
    apply (collect_recorded_step _ done t s0 s1 Hi), Hst. reflexivity. }
  pose proof (for_enumerate_done _ _ _ Hbody clock [] (collect_start s)) as H.
  unfold wp in H. cbn [length app] in H. rewrite Hrun in H. cbn [fst snd] in H.
  apply H. repeat split; cbn; try lia; reflexivity.
Qed.

Lemma partA_run_recorded (clock : list Q) (s s' : nb) :
  partA sensor predict s_x s_y window clock s = (Ok tt, s') ->
  partA_recorded predict s_x s_y window clock s'.
Proof.
  rewrite partA_unfold. intros Hrun.
  assert (Hbody : forall done t s0,
             partA_recorded predict s_x s_y window done s0 ->
             wp (partA_tick sensor predict s_x s_y window (length done) t)
                (fun r s1 => match r with
                             | Ok _ => partA_recorded predict s_x s_y window
                                         (done ++ [t]) s1
                             | Raise _ => True
                             end)
                (set_log (Tick t :: log s0) s0)).
  { intros done t s0 Hi. eapply wp_mono; [|apply partA_tick_stores].
    cbn beta. intros [[]|e] s1 Hst; [|exact Logic.I].
    apply (partA_recorded_step done t s0 s1 Hi), Hst. reflexivity. }
  pose proof (for_enumerate_done _ _ _ Hbody clock [] (partA_start s)) as H.
  unfold wp in H. cbn [length app] in H. rewrite Hrun in H. cbn [fst snd] in H.
  apply H. repeat split; cbn; try lia; try reflexivity.
Qed.

Lemma partB_run_recorded (clock : list Q) (s s' : nb) :
  partB sensor predict s_x s_y window clock s = (Ok tt, s') ->
  partB_recorded predict s_x s_y window clock s'.
Proof.
  rewrite partB_unfold. intros Hrun.
  assert (Hbody : forall done t s0,
             partB_recorded predict s_x s_y window done s0 ->
             wp (partB_tick sensor predict s_x s_y window (length done) t)
                (fun r s1 => match r with
                             | Ok _ => partB_recorded predict s_x s_y window
                                         (done ++ [t]) s1
                             | Raise _ => True
                             end)
                (set_log (Tick t :: log s0) s0)).
  { intros done t s0 Hi. eapply wp_mono; [|apply partB_tick_stores].
    cbn beta. intros [[]|e] s1 Hst; [|exact Logic.I].
    apply (partB_recorded_step done t s0 s1 Hi), Hst. reflexivity. }
  pose proof (for_enumerate_done _ _ _ Hbody clock [] (partB_start s)) as H.
  unfold wp in H. cbn [length app] in H. rewrite Hrun in H. cbn [fst snd] in H.
  apply H. repeat split; cbn; try lia; try reflexivity.
Qed.

(** X12 (what the data collection has recorded): when the data collection
    completes a run of [n] ticks, the first [n] elements of [tm], [T1] and
    [Q1] are the times of the ticks, the temperatures read and the heater
    commands sent, tick by tick; the schedule [Tsp1] is the one the run
    started with, and [prev_time] is the time of the last tick. *)
Theorem data_collection_records (clock : list Q) (s s' : nb) :
  data_collection sensor clock s = (Ok tt, s') ->
  let n := length clock in
  Tsp1 s' = Tsp1 s
  /\ take n (tm s') = clock
  /\ take n (T1 s') = rev (readings (log s'))
  /\ take n (Q1 s') = rev (heater_writes (log s'))
  /\ length (readings (log s')) = n
  /\ length (heater_writes (log s')) = n
  /\ prev_time s' = last_time clock.
Proof.
  intros Hrun.
  destruct (data_collection_recorded clock s s' Hrun)
    as (Htm & HlT & HlQ & Hsp & Hsp0 & Ht & HT & HQ & Hp).
  cbv zeta. repeat split; try assumption.
  - rewrite <- length_rev, <- HT, length_take. lia.
  - rewrite <- length_rev, <- HQ, length_take. lia.
Qed.


(** X14 (what Part A has recorded): when Part A completes a run of [n]
    ticks, the first [n] elements of [tm] are the times of the ticks, the
    first [n] elements of [Qpid] are the heater commands sent, tick by
    tick, and [Qlstm[i]], for every [i] from [window] up to [n-1], is the
    command the model gives for the window of the samples
    [i-window .. i-1]: the command that was computed at tick [i] and not
    sent. *)
Theorem partA_records (clock : list Q) (s s' : nb) :
  partA sensor predict s_x s_y window clock s = (Ok tt, s') ->
  let n := length clock in
  take n (tm s') = clock
  /\ take n (Qpid s') = rev (heater_writes (log s'))
  /\ length (heater_writes (log s')) = n
  /\ (forall i, (window <= i < n)%nat ->
        Qlstm s' !! i = Some (model_command predict s_x s_y window s' i))
  /\ prev_time s' = last_time clock.
Proof.
  intros Hrun.
  destruct (partA_run_recorded clock s s' Hrun) as (Htm & Hlq & Ht & HQ & HL & Hp).
  cbv zeta. repeat split; try assumption.
  rewrite <- length_rev, <- HQ, length_take. lia.
Qed.

(** X15 (what Part B has recorded): when Part B completes a run of [n]
    ticks, the first [n] elements of [tm] are the times of the ticks and the
    first [n] elements of [Qlstm] are the heater commands sent, tick by
    tick; from index [window] on each of them is the command the model
    gives for the window of the samples [i-window .. i-1]. *)
Theorem partB_records (clock : list Q) (s s' : nb) :
  partB sensor predict s_x s_y window clock s = (Ok tt, s') ->
  let n := length clock in
  take n (tm s') = clock
  /\ take n (Qlstm s') = rev (heater_writes (log s'))
  /\ length (heater_writes (log s')) = n
  /\ (forall i, (window <= i < n)%nat ->
        Qlstm s' !! i = Some (model_command predict s_x s_y window s' i))
  /\ prev_time s' = last_time clock.
Proof.
  intros Hrun.
  destruct (partB_run_recorded clock s s' Hrun) as (Htm & Hlq & Ht & HQ & HL & Hp).
  cbv zeta. repeat split; try assumption.
  rewrite <- length_rev, <- HQ, length_take. lia.
Qed.

End Records.

Lemma data_collection_records_witness :
  let sensor := fun _ : list event => 21 in
  let s0 := mk_nb (replicate 3 0) (replicate 3 0) [] [] (replicate 3 0)
                  [21; 50; 50] [] 0 0 0 [] in
  let s' := (data_collection sensor [0; 1; 2] s0).2 in
  take 3 (tm s') = [0; 1; 2]
  /\ take 3 (T1 s') = rev (readings (log s'))
  /\ take 3 (Q1 s') = rev (heater_writes (log s')).
Proof.
  intros sensor s0 s'.
  destruct (data_collection_records sensor [0; 1; 2] s0 s')
    as (_ & Ht & HT & HQ & _).
  - vm_compute. reflexivity.
  - split; [exact Ht|]. split; [exact HT|exact HQ].
Defined.


Lemma partA_records_witness :
  let sensor := fun _ : list event => 21 in
  let predict := fun _ : list (Q * Q) => 1 # 2 in
  let s_x := (Scaler.mk_feature 1 0, Scaler.mk_feature 1 0) in
  let s_y := Scaler.mk_feature (1 # 100) 0 in
  let s0 := mk_nb (replicate 4 0) [] (replicate 4 0) (replicate 4 0)
                  (replicate 4 0) [] [21; 50; 50; 21] 0 0 0 [] in
  let s' := (partA sensor predict s_x s_y 2 [0; 1; 2; 3] s0).2 in
  take 4 (tm s') = [0; 1; 2; 3]
  /\ take 4 (Qpid s') = rev (heater_writes (log s'))
  /\ Qlstm s' !! 3%nat = Some (model_command predict s_x s_y 2 s' 3).
Proof.
  intros sensor predict s_x s_y s0 s'.
  destruct (partA_records sensor predict s_x s_y 2 [0; 1; 2; 3] s0 s')
    as (Ht & HQ & _ & HL & _).
  - vm_compute. reflexivity.
  - split; [exact Ht|]. split; [exact HQ|]. apply HL. cbn. lia.
Defined.

Lemma partB_records_witness :
  let sensor := fun _ : list event => 21 in
  let predict := fun _ : list (Q * Q) => 1 # 2 in
  let s_x := (Scaler.mk_feature 1 0, Scaler.mk_feature 1 0) in
  let s_y := Scaler.mk_feature (1 # 100) 0 in
  let s0 := mk_nb (replicate 4 0) [] (replicate 4 0) (replicate 4 0)
                  (replicate 4 0) [] [21; 50; 50; 21] 0 0 0 [] in
  let s' := (partB sensor predict s_x s_y 2 [0; 1; 2; 3] s0).2 in
  take 4 (tm s') = [0; 1; 2; 3]
  /\ take 4 (Qlstm s') = rev (heater_writes (log s'))
  /\ Qlstm s' !! 3%nat = Some (model_command predict s_x s_y 2 s' 3).
Proof.
  intros sensor predict s_x s_y s0 s'.
  destruct (partB_records sensor predict s_x s_y 2 [0; 1; 2; 3] s0 s')
    as (Ht & HQ & _ & HL & _).
  - vm_compute. reflexivity.
  - split; [exact Ht|]. split; [exact HQ|]. apply HL. cbn. lia.
Defined.

(** ** Runs and the length of the arrays *)





Section Fit.

Variable sensor : list event -> Q.
Variable predict : list (Q * Q) -> Q.
Variable s_x : Scaler.feature * Scaler.feature.
Variable s_y : Scaler.feature.
Variable window : nat.
















End Fit.



(** ** The cells that create the arrays *)

Section SetupCells.

Variable sensor : list event -> Q.
Variable predict : list (Q * Q) -> Q.
Variable s_x : Scaler.feature * Scaler.feature.
Variable s_y : Scaler.feature.
Variable window : nat.




End SetupCells.


(** ** The performance assessment cell *)

Lemma mapM_Ok_map {A B : Type} (f : A -> result B) (g : A -> B) (X : list A) :
  (forall w, w ∈ X -> f w = Ok (g w)) -> mapM f X = Ok (map g X).
Proof.
  induction X as [|x X IH]; intros H; [reflexivity|].
  cbn [mapM map]. rewrite (H x) by (left).
  unfold mbind at 1, result_bind at 1.
  rewrite IH by (intros w Hw; apply H; right; exact Hw). reflexivity.
Qed.

Lemma getitem_last {A : Type} (a : list A) :
  PyArr.getitem a (-1)
  = match a !! (length a - 1)%nat with
    | Some x => Ok x
    | None => Raise IndexError
    end.
Proof. apply (getitem_minus_one a). Qed.

(** Scaling and unscaling with a fitted scaler is the identity. *)
Lemma inverse_transform1_transform1 (f : Scaler.feature) (x : Q) :
  ~ Scaler.scale_ f == 0 ->
  Scaler.inverse_transform1 f (Scaler.transform1 f x) == x.
Proof.
  intros Hnz. unfold Scaler.inverse_transform1, Scaler.transform1.
  field. exact Hnz.
Qed.

Lemma last_rows_nonempty (X : list (list (Q * Q))) :
  X <> [] -> last_rows X = mapM (fun w => PyArr.getitem w (-1)) X.
Proof. destruct X; [contradiction|reflexivity]. Qed.

Lemma inverse_transform_nonempty (s : Scaler.feature * Scaler.feature)
    (X : list (Q * Q)) :
  X <> [] ->
  Scaler.inverse_transform s X = Ok (map (Scaler.inverse_transform_row s) X).
Proof. destruct X; [contradiction|reflexivity]. Qed.

Section Assessment.

Variable s_x : Scaler.feature * Scaler.feature.
Variable window : nat.

(** X20 (the process value of the assessment plot): the performance
    assessment takes the last row of each test window, unscales it, and
    plots its first column as [sp] and the sum of its two columns as [pv].
    The last row of the window of index [k] is the sample [k+window-1], and
    its columns are the set point and the error [Tsp - T1]; so, for a scaler
    with non-zero scales, [sp] is the set point of that sample, and [pv] is
    [Tsp + (Tsp - T1)]: the measured temperature reflected about the set
    point, which equals the measured temperature only where the temperature
    is at the set point. *)
Theorem derived_pv_mirrors_measurement (df_Tsp df_T1 : list Q) (d : nat) :
  ~ Scaler.scale_ (fst s_x) == 0 -> ~ Scaler.scale_ (snd s_x) == 0 ->
  (0 < window)%nat -> length df_T1 = length df_Tsp ->
  (d + window < length df_Tsp)%nat ->
  let Xtest := drop d (X_lstm window (all_rows s_x df_Tsp df_T1)) in
  exists sp pv,
    derive_sp_pv s_x Xtest = Ok (sp, pv)
    /\ length sp = (length df_Tsp - window - d)%nat
    /\ length pv = length sp
    /\ (forall k a b,
          (k < length sp)%nat ->
          df_Tsp !! (d + k + window - 1)%nat = Some a ->
          df_T1 !! (d + k + window - 1)%nat = Some b ->
          exists x y,
            sp !! k = Some x /\ pv !! k = Some y
            /\ x == a /\ y == a + (a - b) /\ (y == b <-> a == b)).
Proof.
  intros Hs1 Hs2 Hw Hlen Hd.
  assert (HXs : length (all_rows s_x df_Tsp df_T1) = length df_Tsp)
    by (apply all_rows_length, Hlen).
  assert (HXl : forall j a b,
             df_Tsp !! j = Some a -> df_T1 !! j = Some b ->
             all_rows s_x df_Tsp df_T1 !! j
             = Some (Scaler.transform_row s_x (a, a - b)))
    by (intros j a b; apply all_rows_lookup).
  revert HXs HXl. generalize (all_rows s_x df_Tsp df_T1) as Xs.
  intros Xs HXs HXl Xtest.
  set (g := fun w : list (Q * Q) => default (0, 0) (w !! (length w - 1)%nat)).
  assert (Hat : forall k, (k < length Xtest)%nat ->
                  Xtest !! k = Some (take window (drop (d + k) Xs))).
  { intros k Hk. unfold Xtest in *. rewrite length_drop, X_lstm_length in Hk.
    rewrite lookup_drop. apply X_lstm_at. lia. }
  assert (HlX : length Xtest = (length df_Tsp - window - d)%nat).
  { unfold Xtest. rewrite length_drop, X_lstm_length. lia. }
  assert (Hrows : mapM (fun w => PyArr.getitem w (-1)) Xtest = Ok (map g Xtest)).
  { apply mapM_Ok_map. intros w Hin.
    apply list_elem_of_lookup in Hin as [k Hk].
    assert (Hk' := lookup_lt_Some _ _ _ Hk).
    rewrite (Hat k Hk') in Hk. injection Hk as <-.
    rewrite getitem_last. unfold g.
    destruct (lookup_lt_is_Some_2 (take window (drop (d + k) Xs))
                (length (take window (drop (d + k) Xs)) - 1)) as [x Hx].
    { rewrite length_take, length_drop. lia. }
    rewrite Hx. reflexivity. }
  assert (Hne : Xtest <> []).
  { intros H0. rewrite H0 in HlX. cbn in HlX. lia. }
  assert (Hne' : map g Xtest <> []).
  { intros H0. apply (f_equal length) in H0. rewrite length_map in H0.
    rewrite HlX in H0. cbn in H0. lia. }
  unfold derive_sp_pv.
  rewrite (last_rows_nonempty Xtest Hne), Hrows.
  unfold mbind at 1, result_bind at 1.
  rewrite (inverse_transform_nonempty s_x _ Hne').
  unfold mbind, result_bind.
  eexists _, _. split; [reflexivity|].
  rewrite !length_map. split; [exact HlX|]. split; [reflexivity|].
  intros k a b Hk Ha Hb.
  change (map ?f) with (fmap (M:=list) f).
  rewrite !list_lookup_fmap, (Hat k Hk). cbn [fmap option_fmap option_map].
  assert (Hg : g (take window (drop (d + k) Xs))
               = Scaler.transform_row s_x (a, a - b)).
  { unfold g. rewrite length_take, length_drop.
    rewrite HlX in Hk.
    replace (window `min` (length Xs - (d + k)) - 1)%nat
      with (window - 1)%nat by lia.
    rewrite lookup_take_lt, lookup_drop by lia.
    replace (d + k + (window - 1))%nat with (d + k + window - 1)%nat by lia.
    rewrite (HXl _ a b Ha Hb). reflexivity. }
  rewrite Hg. eexists _, _. split; [reflexivity|]. split; [reflexivity|].
  unfold Scaler.inverse_transform_row, Scaler.transform_row. cbn [fst snd].
  rewrite !inverse_transform1_transform1 by assumption.
  split; [reflexivity|]. split; [reflexivity|].
  split; intros H; lra.
Qed.

End Assessment.

Lemma derived_pv_mirrors_measurement_witness :
  let s_x := (Scaler.mk_feature (1 # 50) 0, Scaler.mk_feature (1 # 10) (1 # 2)) in
  let df_Tsp := [30; 30; 40; 40] in
  let df_T1 := [21; 23; 25; 28] in
  exists sp pv,
    derive_sp_pv s_x (drop 1 (X_lstm 2 (all_rows s_x df_Tsp df_T1)))
    = Ok (sp, pv)
    /\ exists x y, sp !! 0%nat = Some x /\ pv !! 0%nat = Some y
                   /\ x == 40 /\ y == 40 + (40 - 25).
Proof.
  intros s_x df_Tsp df_T1.
  destruct (derived_pv_mirrors_measurement s_x 2 df_Tsp df_T1 1)
    as (sp & pv & Hrun & Hl & _ & H).
  - intros H0. discriminate H0.
  - intros H0. discriminate H0.
  - lia.
  - reflexivity.
  - cbn. lia.
  - exists sp, pv. split; [exact Hrun|].
    destruct (H 0%nat 40 25) as (x & y & Hx & Hy & Ex & Ey & _).
    + rewrite Hl. cbn. lia.
    + reflexivity.
    + reflexivity.
    + exists x, y. repeat split; assumption.
Defined.

(** ** The state that the loops carry from one call of [pid] to the next *)

Lemma pid_inputs_ok_nil tsp : pid_inputs_ok tsp [].
Proof. intros [|e' l2] sp pv pvl ie dt l1 H; discriminate H. Qed.

Lemma pid_inputs_ok_other tsp e l :
  is_call e = false -> pid_inputs_ok tsp l -> pid_inputs_ok tsp (e :: l).
Proof.
  intros He Hl [|e' l2] sp pv pvl ie dt l1 H; injection H as -> ->.
  - discriminate He.
  - apply (Hl l2 sp pv pvl ie dt l1). reflexivity.
Qed.

Lemma pid_inputs_ok_call tsp sp pv pvl ie dt l :
  tsp !! (length (ticks l) - 1)%nat = Some sp ->
  readings l !! 0%nat = Some pv ->
  (forall r, readings l !! 1%nat = Some r -> pvl = r) ->
  carried_integral l ie ->
  (exists t, ticks l !! 0%nat = Some t
             /\ dt = t - default 0 (ticks l !! 1%nat)) ->
  pid_inputs_ok tsp l ->
  pid_inputs_ok tsp (CallPid sp pv pvl ie dt :: l).
Proof.
  intros H1 H2 H3 H4 H5 Hl [|e' l2] sp' pv' pvl' ie' dt' l1 H.
  - cbn [app] in H. injection H as <- <- <- <- <- <-. repeat split; assumption.
  - injection H as _ ->. apply (Hl l2 sp' pv' pvl' ie' dt' l1). reflexivity.
Qed.

Lemma last_reading (l : list Q) (r : Q) (rs : list Q) :
  take (S (length rs)) l = rev (r :: rs) -> l !! length rs = Some r.
Proof.
  intros H.
  assert (Hlt : (length rs < length l)%nat).
  { apply (f_equal length) in H. cbn [rev] in H.
    rewrite length_app, length_take, length_rev in H. cbn [length] in H. lia. }
  rewrite <- (lookup_take_lt l (S (length rs)) (length rs)) by lia.
  rewrite H. cbn [rev]. rewrite lookup_app_r by (rewrite length_rev; lia).
  rewrite length_rev, Nat.sub_diag. reflexivity.
Qed.

(** The previous measurement that a tick after the first passes to
    [pid]. *)
Lemma previous_reading (a : list Q) (i : nat) (v pvl r : Q) (rs : list Q) :
  PyArr.getitem (<[i:=v]> a) (Z.of_nat i - 1) = Ok pvl ->
  take i a = rev rs -> length rs = i -> rs !! 0%nat = Some r -> pvl = r.
Proof.
  intros E Ht Hl Hr. destruct rs as [|r' rs]; [discriminate Hr|].
  injection Hr as ->. cbn [length] in Hl. subst i.
  replace (Z.of_nat (S (length rs)) - 1)%Z with (Z.of_nat (length rs)) in E
    by lia.
  apply getitem_nat_Ok in E.
  rewrite list_lookup_insert_ne in E by lia.
  rewrite (last_reading a r rs Ht) in E. congruence.
Qed.

Section Threading.

Variable sensor : list event -> Q.
Variable predict : list (Q * Q) -> Q.
Variable s_x : Scaler.feature * Scaler.feature.
Variable s_y : Scaler.feature.
Variable window : nat.

(** The call of [pid] of the tick [i], the loop being between two ticks
    in [s]. *)
Lemma tick_call_ok tsp get_tsp (i : nat) (t sp pvl : Q) (s : nb) :
  pid_threaded tsp get_tsp i s ->
  tsp !! i = Some sp ->
  PyArr.getitem (<[i:=sensor (plant_view (Tick t :: log s))]> (T1 s))
    (Z.of_nat i - 1) = Ok pvl ->
  pid_inputs_ok tsp
    (CallPid sp (sensor (plant_view (Tick t :: log s))) pvl (ierr s)
       (t - prev_time s)
     :: ReadT1 (sensor (plant_view (Tick t :: log s))) :: Tick t :: log s).
Proof.
  intros (Htsp & Hnt & Hnr & HT & Hok & Hci & Hpt) Hsp Epv.
  apply pid_inputs_ok_call.
  - change (ticks (ReadT1 ?v :: Tick t :: log s)) with (t :: ticks (log s)).
    cbn [length]. rewrite Hnt.
    replace (S i - 1)%nat with i by lia. exact Hsp.
  - reflexivity.
  - cbn. intros r Hr.
    apply (previous_reading (T1 s) i _ pvl r (readings (log s)) Epv HT Hnr Hr).
  - exact Hci.
  - exists t. split; [reflexivity|]. cbn. rewrite Hpt. reflexivity.
  - repeat (apply pid_inputs_ok_other; [reflexivity|]). exact Hok.
Qed.

Lemma model_events_none (s : nb) (i : nat) (l : list event) :
  ticks (model_events s_x window s i ++ l) = ticks l
  /\ readings (model_events s_x window s i ++ l) = readings l
  /\ pid_calls (model_events s_x window s i ++ l) = pid_calls l.
Proof. unfold model_events. destruct (window <=? i)%nat; repeat split. Qed.

Lemma partA_tick_inputs tsp (i : nat) (t : Q) (s : nb) :
  pid_threaded tsp Tsp i s ->
  wp (partA_tick sensor predict s_x s_y window i t)
     (fun _ s' => pid_inputs_ok tsp (log s'))
     (set_log (Tick t :: log s) s).
Proof.
  intros Hs.
  pose proof Hs as (Htsp & Hnt & Hnr & HT & Hok & Hci & Hpt).
  unfold partA_tick, run_lstm. cbv zeta.
  wp_run.
  all: norm_access.
  all: repeat (apply pid_inputs_ok_other; [reflexivity|]);
       first [exact Hok | eapply tick_call_ok; eassumption].
Qed.

Lemma collect_tick_inputs tsp (i : nat) (t : Q) (s : nb) :
  pid_threaded tsp Tsp1 i s ->
  wp (collect_tick sensor i t)
     (fun _ s' => pid_inputs_ok tsp (log s'))
     (set_log (Tick t :: log s) s).
Proof.
  intros Hs.
  pose proof Hs as (Htsp & Hnt & Hnr & HT & Hok & Hci & Hpt).
  unfold collect_tick. cbv zeta.
  wp_run.
  all: norm_access.
  all: repeat (apply pid_inputs_ok_other; [reflexivity|]);
       first [exact Hok | eapply tick_call_ok; eassumption].
Qed.

Lemma threaded_after tsp get_tsp (i : nat) (t sp pvl : Q) (out : Pid.output)
    (evs : list event) (s s' : nb) :
  pid_threaded tsp get_tsp i s ->
  get_tsp s' = tsp ->
  (i < length (T1 s))%nat ->
  T1 s' = <[i:=reading sensor (set_log (Tick t :: log s) s)]> (T1 s) ->
  log s' = evs ++ pid_events sensor (set_log (Tick t :: log s) s) t sp pvl out
               ++ Tick t :: log s ->
  ticks (evs ++ pid_events sensor (set_log (Tick t :: log s) s) t sp pvl out
             ++ Tick t :: log s) = t :: ticks (log s) ->
  readings (evs ++ pid_events sensor (set_log (Tick t :: log s) s) t sp pvl out
                ++ Tick t :: log s)
  = reading sensor (set_log (Tick t :: log s) s) :: readings (log s) ->
  pid_calls (evs ++ pid_events sensor (set_log (Tick t :: log s) s) t sp pvl out
                 ++ Tick t :: log s)
  = (sp, reading sensor (set_log (Tick t :: log s) s), pvl, ierr s,
     t - prev_time s) :: pid_calls (log s) ->
  pid sp (reading sensor (set_log (Tick t :: log s) s)) pvl (ierr s)
      (t - prev_time s) = Ok out ->
  ierr s' = Pid.I out -> prev_time s' = t ->
  pid_inputs_ok tsp (log s') ->
  pid_threaded tsp get_tsp (S i) s'.
Proof.
  intros (Htsp & Hnt & Hnr & HT & Hok & Hci & Hpt)
         Htsp' Hlt HT' Hlog Hticks Hreads Hcalls Hpid Hie Hprev Hok'.
  unfold pid_threaded. rewrite Hlog in *. rewrite Hticks, Hreads.
  split; [exact Htsp'|]. split; [cbn [length]; lia|].
  split; [cbn [length]; lia|].
  split; [rewrite HT', take_S_insert, HT by exact Hlt; reflexivity|].
  split; [exact Hok'|].
  split; [|rewrite Hprev; reflexivity].
  unfold carried_integral. rewrite Hcalls. exists out.
  split; [exact Hpid|exact Hie].
Qed.

Lemma partA_threaded_step tsp (i : nat) (t : Q) (s s' : nb) :
  pid_threaded tsp Tsp i s ->
  partA_stored sensor predict s_x s_y window
    (set_log (Tick t :: log s) s) i t s' ->
  pid_inputs_ok tsp (log s') ->
  pid_threaded tsp Tsp (S i) s'.
Proof.
  intros Hs (sp & pvl & out & Esp & Epv & Epid & L1 & L2 & L3 & Lw & Hs') Hok'.
  pose proof Hs as (Htsp & _).
  destruct (model_events_none (set_log (Tick t :: log s) s) i
              (pid_events sensor (set_log (Tick t :: log s) s) t sp pvl out
                 ++ Tick t :: log s)) as (Ht & Hr & Hc).
  apply (threaded_after tsp Tsp i t sp pvl out
           (model_events s_x window (set_log (Tick t :: log s) s) i) s s' Hs).
  - rewrite Hs'. exact Htsp.
  - exact L2.
  - rewrite Hs'. reflexivity.
  - rewrite Hs'. reflexivity.
  - rewrite Ht. reflexivity.
  - rewrite Hr. reflexivity.
  - rewrite Hc. reflexivity.
  - exact Epid.
  - rewrite Hs'. reflexivity.
  - rewrite Hs'. reflexivity.
  - exact Hok'.
Qed.

Lemma collect_threaded_step tsp (i : nat) (t : Q) (s s' : nb) :
  pid_threaded tsp Tsp1 i s ->
  collect_stored sensor (set_log (Tick t :: log s) s) i t s' ->
  pid_inputs_ok tsp (log s') ->
  pid_threaded tsp Tsp1 (S i) s'.
Proof.
  intros Hs (sp & pvl & out & Esp & Epv & Epid & L1 & L2 & L3 & Hs') Hok'.
  pose proof Hs as (Htsp & _).
  apply (threaded_after tsp Tsp1 i t sp pvl out [] s s' Hs).
  - rewrite Hs'. exact Htsp.
  - exact L2.
  - rewrite Hs'. reflexivity.
  - rewrite Hs'. reflexivity.
  - reflexivity.
  - reflexivity.
  - reflexivity.
  - exact Epid.
  - rewrite Hs'. reflexivity.
  - rewrite Hs'. reflexivity.
  - exact Hok'.
Qed.

Lemma pid_threaded_start tsp get_tsp (s : nb) :
  get_tsp s = tsp -> log s = [] -> ierr s = 0 -> prev_time s = 0 ->
  pid_threaded tsp get_tsp 0 s.
Proof.
  intros H1 H2 H3 H4. unfold pid_threaded. rewrite H2.
  split; [exact H1|]. split; [reflexivity|]. split; [reflexivity|].
  split; [reflexivity|]. split; [apply pid_inputs_ok_nil|].
  split; [exact H3|exact H4].
Qed.

(** X21 (the state carried between the calls of [pid]): in every run of
    Part A and of the data collection, completed or ended by an exception,
    each call of [pid] is given the set point of the current tick, the
    temperature just read, the temperature read at the tick before if there
    is one, the integral that the previous call returned ([0] at the first
    call) and the time elapsed since the tick before (since [0] at the first
    tick).  When the run completes, the integral that is left in [ierr] is
    the one the last call returned. *)
Theorem loops_thread_pid_state (clock : list Q) (s : nb) :
  (let r := partA sensor predict s_x s_y window clock s in
   pid_inputs_ok (Tsp s) (log r.2)
   /\ (r.1 = Ok tt -> carried_integral (log r.2) (ierr r.2)))
  /\ (let r := data_collection sensor clock s in
      pid_inputs_ok (Tsp1 s) (log r.2)
      /\ (r.1 = Ok tt -> carried_integral (log r.2) (ierr r.2))).
Proof.
  split.
  - cbv zeta. rewrite partA_unfold.
    assert (Hbody : forall i t s0,
               pid_threaded (Tsp s) Tsp i s0 ->
               wp (partA_tick sensor predict s_x s_y window i t)
                  (fun r s1 => match r with
                               | Ok _ => pid_threaded (Tsp s) Tsp (S i) s1
                               | Raise _ => pid_inputs_ok (Tsp s) (log s1)
                               end)
                  (set_log (Tick t :: log s0) s0)).
    { intros i t s0 Hi.
      eapply wp_mono;
        [|apply wp_and; [apply partA_tick_stores
                        |apply (partA_tick_inputs (Tsp s) i t s0 Hi)]].
      cbn beta. intros [[]|e] s1 [Hst Hok]; [|exact Hok].
      apply (partA_threaded_step (Tsp s) i t s0 s1 Hi (Hst eq_refl) Hok). }
    pose proof (for_enumerate_wp _ _ _ Hbody clock 0%nat (partA_start s)) as H.
    unfold wp in H.
    destruct (for_enumerate _ 0 clock (partA_start s)) as [[[]|e] s'];
      cbn [fst snd] in *.
    + destruct H as (_ & _ & _ & _ & Hok & Hci & _).
      { apply pid_threaded_start; reflexivity. }
      split; [exact Hok|intros _; exact Hci].
    + split; [|intros H0; discriminate H0].
      apply H. apply pid_threaded_start; reflexivity.
  - cbv zeta. rewrite data_collection_unfold.
    assert (Hbody : forall i t s0,
               pid_threaded (Tsp1 s) Tsp1 i s0 ->
               wp (collect_tick sensor i t)
                  (fun r s1 => match r with
                               | Ok _ => pid_threaded (Tsp1 s) Tsp1 (S i) s1
                               | Raise _ => pid_inputs_ok (Tsp1 s) (log s1)
                               end)
                  (set_log (Tick t :: log s0) s0)).
    { intros i t s0 Hi.
      eapply wp_mono;
        [|apply wp_and; [apply collect_tick_stores
                        |apply (collect_tick_inputs (Tsp1 s) i t s0 Hi)]].
      cbn beta. intros [[]|e] s1 [Hst Hok]; [|exact Hok].
      apply (collect_threaded_step (Tsp1 s) i t s0 s1 Hi (Hst eq_refl) Hok). }
    pose proof (for_enumerate_wp _ _ _ Hbody clock 0%nat (collect_start s))
      as H.
    unfold wp in H.
    destruct (for_enumerate _ 0 clock (collect_start s)) as [[[]|e] s'];
      cbn [fst snd] in *.
    + destruct H as (_ & _ & _ & _ & Hok & Hci & _).
      { apply pid_threaded_start; reflexivity. }
      split; [exact Hok|intros _; exact Hci].
    + split; [|intros H0; discriminate H0].
      apply H. apply pid_threaded_start; reflexivity.
Qed.

End Threading.

(** ** The integral absolute error *)

Lemma Qsum_snoc (l : list Q) (x : Q) : Qsum (l ++ [x]) == Qsum l + x.
Proof.
  induction l as [|y l IH]; cbn [app Qsum fold_right].
  - ring.
  - fold (Qsum (l ++ [x])). fold (Qsum l). rewrite IH. ring.
Qed.

Lemma abs_errors_step (tsp a : list Q) (i : nat) (v sp : Q) :
  tsp !! i = Some sp -> (i < length a)%nat ->
  take (S i) (abs_errors tsp (<[i:=v]> a))
  = take i (abs_errors tsp a) ++ [Qabs (sp - v)].
Proof.
  intros Hsp Hi. unfold abs_errors.
  rewrite (take_S_r _ i (Qabs (sp - v))).
  - f_equal. apply list_eq. intros m.
    destruct (Nat.lt_ge_cases m i) as [Hm|Hm].
    + rewrite !lookup_take_lt by exact Hm.
      rewrite !lookup_zip_with, list_lookup_insert_ne by lia. reflexivity.
    + rewrite !lookup_take_ge by exact Hm. reflexivity.
  - rewrite lookup_zip_with, Hsp, list_lookup_insert_eq by exact Hi.
    reflexivity.
Qed.

Lemma iae_summed_after tsp get_tsp (i : nat) (v sp : Q) (s s' : nb) :
  iae_summed tsp get_tsp i s ->
  get_tsp s' = tsp -> tsp !! i = Some sp -> (i < length (T1 s))%nat ->
  T1 s' = <[i:=v]> (T1 s) -> iae s' = iae s + Qabs (sp - v) ->
  iae_summed tsp get_tsp (S i) s'.
Proof.
  intros (Htsp & Hpos & Hsum) Htsp' Hsp Hi HT Hiae.
  unfold iae_summed. split; [exact Htsp'|].
  pose proof (Qabs_nonneg (sp - v)) as Habs.
  split; [rewrite Hiae; lra|].
  rewrite Hiae, HT, (abs_errors_step tsp (T1 s) i v sp Hsp Hi), Qsum_snoc, Hsum.
  reflexivity.
Qed.

Section Iae.

Variable sensor : list event -> Q.
Variable predict : list (Q * Q) -> Q.
Variable s_x : Scaler.feature * Scaler.feature.
Variable s_y : Scaler.feature.
Variable window : nat.

(** X22 (the integral absolute error): when Part A or the data collection
    completes a run of [n] ticks, [iae] is the sum over the [n] ticks of the
    absolute difference between the set point and the temperature recorded
    at the tick; it is never negative. *)
Theorem iae_is_sum_of_absolute_errors (clock : list Q) (s s' : nb) :
  (partA sensor predict s_x s_y window clock s = (Ok tt, s') ->
   Tsp s' = Tsp s /\ 0 <= iae s'
   /\ iae s' == Qsum (take (length clock) (abs_errors (Tsp s') (T1 s'))))
  /\ (data_collection sensor clock s = (Ok tt, s') ->
      Tsp1 s' = Tsp1 s /\ 0 <= iae s'
      /\ iae s' == Qsum (take (length clock) (abs_errors (Tsp1 s') (T1 s')))).
Proof.
  split.
  - rewrite partA_unfold. intros Hrun.
    assert (Hbody : forall i t s0,
               iae_summed (Tsp s) Tsp i s0 ->
               wp (partA_tick sensor predict s_x s_y window i t)
                  (fun r s1 => match r with
                               | Ok _ => iae_summed (Tsp s) Tsp (S i) s1
                               | Raise _ => True
                               end)
                  (set_log (Tick t :: log s0) s0)).
    { intros i t s0 Hi. eapply wp_mono; [|apply partA_tick_stores].
      cbn beta. intros [[]|e] s1 Hst; [|exact Logic.I].
      destruct (Hst eq_refl)
        as (sp & pvl & out & Esp & _ & _ & _ & L2 & _ & _ & Hs').
      pose proof Hi as (Htsp & _). cbn [Tsp set_log] in Esp.
      rewrite Htsp in Esp.
      apply (iae_summed_after (Tsp s) Tsp i
               (reading sensor (set_log (Tick t :: log s0) s0)) sp s0 s1 Hi);
        try (rewrite Hs'; reflexivity); try assumption.
      rewrite Hs'. exact Htsp. }
    pose proof (for_enumerate_wp _ _ _ Hbody clock 0%nat (partA_start s)) as H.
    unfold wp in H. rewrite Hrun in H. cbn [fst snd] in H.
    destruct H as (H1 & H2 & H3).
    { split; [reflexivity|]. split; cbn; [lra|reflexivity]. }
    rewrite H1. cbn [Nat.add] in H3. repeat split; assumption.
  - rewrite data_collection_unfold. intros Hrun.
    assert (Hbody : forall i t s0,
               iae_summed (Tsp1 s) Tsp1 i s0 ->
               wp (collect_tick sensor i t)
                  (fun r s1 => match r with
                               | Ok _ => iae_summed (Tsp1 s) Tsp1 (S i) s1
                               | Raise _ => True
                               end)
                  (set_log (Tick t :: log s0) s0)).
    { intros i t s0 Hi. eapply wp_mono; [|apply collect_tick_stores].
      cbn beta. intros [[]|e] s1 Hst; [|exact Logic.I].
      destruct (Hst eq_refl)
        as (sp & pvl & out & Esp & _ & _ & _ & L2 & _ & Hs').
      pose proof Hi as (Htsp & _). cbn [Tsp1 set_log] in Esp.
      rewrite Htsp in Esp.
      apply (iae_summed_after (Tsp1 s) Tsp1 i
               (reading sensor (set_log (Tick t :: log s0) s0)) sp s0 s1 Hi);
        try (rewrite Hs'; reflexivity); try assumption.
      rewrite Hs'. exact Htsp. }
    pose proof (for_enumerate_wp _ _ _ Hbody clock 0%nat (collect_start s))
      as H.
    unfold wp in H. rewrite Hrun in H. cbn [fst snd] in H.
    destruct H as (H1 & H2 & H3).
    { split; [reflexivity|]. split; cbn; [lra|reflexivity]. }
    rewrite H1. cbn [Nat.add] in H3. repeat split; assumption.
Qed.

End Iae.

Lemma iae_is_sum_of_absolute_errors_witness :
  let sensor := fun _ : list event => 21 in
  let s0 := mk_nb (replicate 3 0) (replicate 3 0) [] [] (replicate 3 0)
                  [21; 50; 50] [] 0 0 0 [] in
  let s' := (data_collection sensor [0; 1; 2] s0).2 in
  0 <= iae s'
  /\ iae s' == Qsum (take 3 (abs_errors (Tsp1 s') (T1 s'))).
Proof.
  intros sensor s0 s'.
  destruct (iae_is_sum_of_absolute_errors sensor (fun _ => 0)
              (Scaler.mk_feature 1 0, Scaler.mk_feature 1 0)
              (Scaler.mk_feature 1 0) 1 [0; 1; 2] s0 s') as [_ H].
  destruct H as (_ & Hpos & Hsum).
  - vm_compute. reflexivity.
  - split; [exact Hpos|exact Hsum].
Defined.

(** * Properties of the notebook over IEEE doubles *)

Module IeeeFacts.

Import PrimFloat.
Import Ieee.
Local Open Scope float_scope.

(** ** Comparisons of doubles *)

(** A time step that passes the guard [dt >= 1e-8] is not zero. *)
Lemma guard_nonzero (dt : float) : (1e-8 <=? dt) = true -> (dt =? 0) = false.
Proof.
  rewrite FloatAxioms.leb_spec, FloatAxioms.eqb_spec.
  destruct (FloatOps.Prim2SF dt) as [sg|sg| |sg m e].
  - vm_compute. intros H. discriminate H.
  - intros _. destruct sg; reflexivity.
  - intros _. reflexivity.
  - intros _. destruct sg; reflexivity.
Qed.

(** The order of the doubles: comparing the other way round gives the
    opposite answer, and only NaN is left out of the order. *)
Lemma SFcompare_antisym (x y : SpecFloat.spec_float) :
  SpecFloat.SFcompare y x = option_map CompOpp (SpecFloat.SFcompare x y).
Proof.
  destruct x as [s1|s1| |s1 m1 e1], y as [s2|s2| |s2 m2 e2]; cbn;
    try reflexivity; try (destruct s1; reflexivity);
    try (destruct s2; reflexivity); try (destruct s1, s2; reflexivity).
  rewrite (Z.compare_antisym e1 e2).
  change (PosDef.Pos.compare_cont Eq m2 m1) with (Pos.compare m2 m1).
  change (PosDef.Pos.compare_cont Eq m1 m2) with (Pos.compare m1 m2).
  rewrite (Pos.compare_antisym m1 m2).
  destruct s1, s2; try reflexivity;
    destruct (e1 ?= e2)%Z; cbn; try reflexivity;
    destruct (m1 ?= m2)%positive; reflexivity.
Qed.

Lemma is_nan_spec (x : float) :
  is_nan x = match FloatOps.Prim2SF x with
             | SpecFloat.S754_nan => true
             | _ => false
             end.
Proof.
  unfold is_nan. rewrite FloatAxioms.eqb_spec. unfold SpecFloat.SFeqb.
  destruct (FloatOps.Prim2SF x) as [s|s| |s m e]; cbn; try reflexivity.
  - destruct s; reflexivity.
  - rewrite Z.compare_refl.
    change (PosDef.Pos.compare_cont Eq m m) with (Pos.compare m m).
    rewrite Pos.compare_refl. destruct s; reflexivity.
Qed.

Lemma ltb_asym (x y : float) : (x <? y) = true -> (y <? x) = false.
Proof.
  rewrite !FloatAxioms.ltb_spec. unfold SpecFloat.SFltb.
  rewrite (SFcompare_antisym (FloatOps.Prim2SF x) (FloatOps.Prim2SF y)).
  destruct (SpecFloat.SFcompare (FloatOps.Prim2SF x) (FloatOps.Prim2SF y))
    as [[]|]; cbn; intros H; try discriminate H; reflexivity.
Qed.

Lemma not_ltb_leb (x y : float) :
  is_nan x = false -> is_nan y = false -> (x <? y) = false -> (y <=? x) = true.
Proof.
  rewrite !is_nan_spec, FloatAxioms.ltb_spec, FloatAxioms.leb_spec.
  unfold SpecFloat.SFltb, SpecFloat.SFleb.
  rewrite (SFcompare_antisym (FloatOps.Prim2SF x) (FloatOps.Prim2SF y)).
  destruct (FloatOps.Prim2SF x) as [s1|s1| |s1 m1 e1];
    destruct (FloatOps.Prim2SF y) as [s2|s2| |s2 m2 e2];
    try discriminate; intros _ _;
    match goal with
    | |- context [SpecFloat.SFcompare ?a ?b] =>
        destruct (SpecFloat.SFcompare a b) as [[]|] eqn:E
    end; cbn; intros H; try discriminate H; try reflexivity;
    cbn in E; discriminate E.
Qed.

Lemma SF_zero : FloatOps.Prim2SF 0 = SpecFloat.S754_zero false.
Proof. vm_compute. reflexivity. Qed.

Lemma SF_hundred :
  FloatOps.Prim2SF 100 = SpecFloat.S754_finite false 7036874417766400 (-46).
Proof. vm_compute. reflexivity. Qed.

(** A double below 0 is below 100. *)
Lemma below_zero_below_hundred (x : float) :
  (x <? 0) = true -> (x <? 100) = true.
Proof.
  rewrite !FloatAxioms.ltb_spec, SF_zero, SF_hundred.
  unfold SpecFloat.SFltb.
  destruct (FloatOps.Prim2SF x) as [s|s| |s m e];
    cbn [SpecFloat.SFcompare];
    try (intros H; discriminate H); destruct s; intros H;
    try discriminate H; reflexivity.
Qed.

Lemma above_hundred_above_zero (x : float) :
  (100 <? x) = true -> (0 <? x) = true.
Proof.
  rewrite !FloatAxioms.ltb_spec, SF_zero, SF_hundred.
  unfold SpecFloat.SFltb.
  destruct (FloatOps.Prim2SF x) as [s|s| |s m e];
    cbn [SpecFloat.SFcompare];
    try (intros H; discriminate H); destruct s; intros H;
    try discriminate H; reflexivity.
Qed.

(** NaN is below nothing and nothing is below NaN. *)
Lemma nan_not_ltb (x y : float) :
  is_nan x = true -> (x <? y) = false /\ (y <? x) = false.
Proof.
  rewrite is_nan_spec, !FloatAxioms.ltb_spec. unfold SpecFloat.SFltb.
  destruct (FloatOps.Prim2SF x) as [s|s| |s m e]; try discriminate.
  intros _. split; [reflexivity|].
  destruct (FloatOps.Prim2SF y); reflexivity.
Qed.

(** Two numbers of which neither is below the other are equal (as numbers:
    the two zeros are). *)
Lemma not_ltb_eqb (x y : float) :
  is_nan x = false -> is_nan y = false ->
  (x <? y) = false -> (y <? x) = false -> (x =? y) = true.
Proof.
  rewrite !is_nan_spec, !FloatAxioms.ltb_spec, FloatAxioms.eqb_spec.
  unfold SpecFloat.SFltb, SpecFloat.SFeqb.
  rewrite (SFcompare_antisym (FloatOps.Prim2SF x) (FloatOps.Prim2SF y)).
  destruct (FloatOps.Prim2SF x) as [s1|s1| |s1 m1 e1];
    destruct (FloatOps.Prim2SF y) as [s2|s2| |s2 m2 e2];
    try discriminate; intros _ _;
    match goal with
    | |- context [SpecFloat.SFcompare ?a ?b] =>
        destruct (SpecFloat.SFcompare a b) as [[]|] eqn:E
    end; cbn; intros H1 H2; try discriminate H1; try discriminate H2;
    try reflexivity; cbn in E; discriminate E.
Qed.

Lemma eqb_refl (x : float) : is_nan x = false -> (x =? x) = true.
Proof. unfold is_nan. destruct (x =? x); [reflexivity|discriminate]. Qed.

(** A double that is neither below [lo] nor above [hi] is NaN or lies
    between them. *)
Lemma between_or_nan (x lo hi : float) :
  is_nan lo = false -> is_nan hi = false ->
  (x <? lo) = false -> (hi <? x) = false ->
  is_nan x = true \/ ((lo <=? x) = true /\ (x <=? hi) = true).
Proof.
  intros Hlo Hhi H1 H2. destruct (is_nan x) eqn:Hx; [left; reflexivity|].
  right. split; apply not_ltb_leb; assumption.
Qed.

(** ** The PID controller *)

(** [pid] returns on every input: the tuning has a non-zero [tauI], and the
    guard on [dt] keeps the measurement derivative from dividing by zero. *)
Lemma pid_run (sp pv pv_last ierr dt : float) :
  pid sp pv pv_last ierr dt =
    let error := sp - pv in
    let raw := raw_output sp pv pv_last ierr dt in
    let D := - (Kc * tauD) * dpv_of pv pv_last dt in
    if out_of_bounds raw then
      Ok (mk_output (py_max 0 (py_min 100 raw)) (Kc * error)
            (ierr + increment sp pv dt - increment sp pv dt) D)
    else Ok (mk_output raw (Kc * error) (ierr + increment sp pv dt) D).
Proof.
  unfold pid, raw_output, dpv_of, out_of_bounds, increment, KI.
  change (pydiv Kc tauI) with (Ok (Kc / tauI)).
  cbn [mbind result_bind].
  destruct (1e-8 <=? dt) eqn:Hdt.
  - unfold pydiv. rewrite (guard_nonzero dt Hdt). reflexivity.
  - reflexivity.
Qed.

Lemma ltb_leb (x y : float) : (x <? y) = true -> (x <=? y) = true.
Proof.
  rewrite FloatAxioms.ltb_spec, FloatAxioms.leb_spec.
  unfold SpecFloat.SFltb, SpecFloat.SFleb.
  destruct (SpecFloat.SFcompare (FloatOps.Prim2SF x) (FloatOps.Prim2SF y))
    as [[]|]; intros H; try discriminate H; reflexivity.
Qed.

(** What [np.clip(_, 0.0, 100.0)] returns: NaN for NaN, and a number of
    [0,100] otherwise. *)
Lemma np_clip_range (x : float) : in_range_or_nan (np_clip x 0 100).
Proof.
  unfold in_range_or_nan, np_clip, np_minimum, np_maximum.
  destruct (is_nan x) eqn:Hx.
  - rewrite Hx. left. exact Hx.
  - right. destruct (0 <? x) eqn:H0.
    + rewrite Hx. destruct (x <? 100) eqn:H1.
      * split; apply ltb_leb; assumption.
      * split; reflexivity.
    + split; reflexivity.
Qed.

Lemma np_clip_nan (x : float) : is_nan (np_clip x 0 100) = is_nan x.
Proof.
  unfold np_clip, np_minimum, np_maximum.
  destruct (is_nan x) eqn:Hx.
  - rewrite Hx. exact Hx.
  - destruct (0 <? x) eqn:H0.
    + rewrite Hx. destruct (x <? 100); [exact Hx|reflexivity].
    + reflexivity.
Qed.

(** The output of [pid] when the raw output saturates is the bound that was
    crossed. *)
Lemma clamp_low (raw : float) :
  (raw <? 0) = true -> py_max 0 (py_min 100 raw) = 0.
Proof.
  intros H. unfold py_min. rewrite (below_zero_below_hundred raw H).
  unfold py_max. rewrite (ltb_asym raw 0 H). reflexivity.
Qed.

Lemma clamp_high (raw : float) :
  (100 <? raw) = true -> py_max 0 (py_min 100 raw) = 100.
Proof.
  intros H. unfold py_min. rewrite (ltb_asym 100 raw H). reflexivity.
Qed.

(** The output of [pid] is NaN or lies in [0,100]. *)
Lemma pid_op_range (sp pv pv_last ierr dt : float) (r : output) :
  pid sp pv pv_last ierr dt = Ok r -> in_range_or_nan (op r).
Proof.
  unfold in_range_or_nan.
  rewrite pid_run. cbv zeta. unfold out_of_bounds.
  destruct (raw_output sp pv pv_last ierr dt <? 0) eqn:Hlo;
    [|destruct (100 <? raw_output sp pv pv_last ierr dt) eqn:Hhi];
    cbn [orb]; intros [= <-]; cbn [op].
  - rewrite (clamp_low _ Hlo). right. split; reflexivity.
  - rewrite (clamp_high _ Hhi). right. split; reflexivity.
  - apply between_or_nan; [reflexivity|reflexivity|assumption|assumption].
Qed.

(** A raw output that is NaN is returned as it is; a raw output that is a
    number is limited as [np.clip] would limit it. *)
Lemma np_clip_low (x : float) : (x <? 0) = true -> np_clip x 0 100 = 0.
Proof.
  intros H. unfold np_clip, np_maximum, np_minimum.
  destruct (is_nan x) eqn:Hx.
  - destruct (nan_not_ltb x 0 Hx) as [H0 _]. rewrite H0 in H. discriminate H.
  - rewrite (ltb_asym x 0 H). reflexivity.
Qed.

Lemma np_clip_high (x : float) : (100 <? x) = true -> np_clip x 0 100 = 100.
Proof.
  intros H. unfold np_clip, np_maximum, np_minimum.
  destruct (is_nan x) eqn:Hx.
  - destruct (nan_not_ltb x 100 Hx) as [_ H0]. rewrite H0 in H. discriminate H.
  - rewrite (above_hundred_above_zero x H), Hx, (ltb_asym 100 x H).
    reflexivity.
Qed.

Lemma np_clip_inside (x : float) :
  is_nan x = false -> (x <? 0) = false -> (100 <? x) = false ->
  (x =? np_clip x 0 100) = true.
Proof.
  intros Hx Hlo Hhi. unfold np_clip, np_maximum, np_minimum. rewrite Hx.
  destruct (0 <? x) eqn:H0.
  - rewrite Hx. destruct (x <? 100) eqn:H1.
    + apply eqb_refl, Hx.
    + apply not_ltb_eqb; [exact Hx|reflexivity|exact H1|exact Hhi].
  - change ((x =? 0) = true).
    apply not_ltb_eqb; [exact Hx|reflexivity|exact Hlo|exact H0].
Qed.
(** ** The sequence-model controller *)

Section LstmFacts.

Variable predict : list (float * float) -> float.
Variable s_x : Scaler.feature * Scaler.feature.
Variable s_y : Scaler.feature.

(** [lstm] step by step: it raises before the model is invoked where the
    shapes do not fit, the window is empty or a row holds an infinity; it
    raises after the model was invoked when the answer is infinite; and
    otherwise it returns the clipped answer. *)
Lemma lstm_run_ieee (T1_m Tsp_m : list float) (s : nb) :
  lstm predict s_x s_y T1_m Tsp_m s =
    match np_sub Tsp_m T1_m with
    | Raise e => (Raise e, s)
    | Ok err =>
        match vstack_T Tsp_m err with
        | Raise e => (Raise e, s)
        | Ok X =>
            match Scaler.transform s_x X with
            | Raise e => (Raise e, s)
            | Ok Xs =>
                (if is_infinity (predict Xs) then Raise ValueError
                 else Ok (np_clip (Scaler.inverse_transform1 s_y (predict Xs))
                            0 100),
                 set_log (Predict Xs :: log s) s)
            end
        end
    end.
Proof.
  unfold lstm, lift, model_predict, emit, modify, mbind, M_bind, mret, M_ret,
    Scaler.inverse_transform.
  destruct (np_sub Tsp_m T1_m) as [err|e]; [|reflexivity].
  destruct (vstack_T Tsp_m err) as [X|e]; [|reflexivity].
  destruct (Scaler.transform s_x X) as [Xs|e]; [|reflexivity].
  destruct (is_infinity (predict Xs)); reflexivity.
Qed.

(** The three stages before the model raise nothing but [ValueError]. *)
Lemma np_sub_error (a b : list float) (e : pyerror) :
  np_sub a b = Raise e -> e = ValueError.
Proof.
  unfold np_sub. destruct (length a =? length b)%nat; [discriminate|].
  destruct a as [|x [|x' a]], b as [|y [|y' b]]; try discriminate;
    intros [= <-]; reflexivity.
Qed.

Lemma vstack_T_error (a b : list float) (e : pyerror) :
  vstack_T a b = Raise e -> e = ValueError.
Proof.
  unfold vstack_T. destruct (length a =? length b)%nat; [discriminate|].
  intros [= <-]. reflexivity.
Qed.

Lemma transform_error (X : list (float * float)) (e : pyerror) :
  Scaler.transform s_x X = Raise e -> e = ValueError.
Proof.
  unfold Scaler.transform. destruct X as [|r X]; [intros [= <-]; reflexivity|].
  destruct (forallb Scaler.row_finite (r :: X)); [discriminate|].
  intros [= <-]. reflexivity.
Qed.

End LstmFacts.

(** ** Reasoning about statements of the notebook *)

Section WpRules.

Context {A B : Type}.

Lemma wp_bind_ieee (m : M A) (k : A -> M B) (Q : result B -> nb -> Prop) (s : nb) :
  wp m (fun r s' => match r with
                    | Ok a => wp (k a) Q s'
                    | Raise e => Q (Raise e) s'
                    end) s ->
  wp (m ≫= k) Q s.
Proof.
  unfold wp, mbind, M_bind. destruct (m s) as [[a|e] s']; cbn; auto.
Qed.

Lemma wp_ret_ieee (a : A) (Q : result A -> nb -> Prop) (s : nb) :
  Q (Ok a) s -> wp (mret a) Q s.
Proof. auto. Qed.

Lemma wp_lift_ieee (r : result A) (Q : result A -> nb -> Prop) (s : nb) :
  Q r s -> wp (lift r) Q s.
Proof. auto. Qed.

Lemma wp_gets_ieee (f : nb -> A) (Q : result A -> nb -> Prop) (s : nb) :
  Q (Ok (f s)) s -> wp (gets f) Q s.
Proof. auto. Qed.

End WpRules.

Lemma wp_modify_ieee (f : nb -> nb) (Q : result unit -> nb -> Prop) (s : nb) :
  Q (Ok tt) (f s) -> wp (modify f) Q s.
Proof. auto. Qed.

Lemma wp_emit_ieee (e : event) (Q : result unit -> nb -> Prop) (s : nb) :
  Q (Ok tt) (set_log (e :: log s) s) -> wp (emit e) Q s.
Proof. auto. Qed.

Lemma wp_getitem_ieee (x : var) (i : Z) (Q : result float -> nb -> Prop) (s : nb) :
  Q (PyArr.getitem (get_var x s) i) s -> wp (getitem x i) Q s.
Proof. auto. Qed.

Lemma wp_setitem_ieee (x : var) (i : Z) (v : float)
    (Q : result unit -> nb -> Prop) (s : nb) :
  match PyArr.setitem (get_var x s) i v with
  | Ok a' => Q (Ok tt) (set_var x a' s)
  | Raise e => Q (Raise e) s
  end ->
  wp (setitem x i v) Q s.
Proof.
  unfold wp, setitem, gets, lift, modify, mbind, M_bind.
  destruct (PyArr.setitem (get_var x s) i v); auto.
Qed.

Lemma wp_getslice_ieee (x : var) (lo hi : Z)
    (Q : result (list float) -> nb -> Prop) (s : nb) :
  Q (Ok (PyArr.getslice (get_var x s) lo hi)) s -> wp (getslice x lo hi) Q s.
Proof. auto. Qed.

Lemma wp_lab_T1_ieee (sensor : list event -> float)
    (Q : result float -> nb -> Prop) (s : nb) :
  (let v := sensor (plant_view (log s)) in
   Q (Ok v) (set_log (ReadT1 v :: log s) s)) ->
  wp (lab_T1 sensor) Q s.
Proof. auto. Qed.

Lemma wp_lab_Q1_ieee (q : float) (Q : result unit -> nb -> Prop) (s : nb) :
  Q (Ok tt) (set_log (WriteQ1 q :: log s) s) -> wp (lab_Q1 q) Q s.
Proof. auto. Qed.

Lemma wp_call_pid_ieee (sp pv pv_last ie dt : float)
    (Q : result output -> nb -> Prop) (s : nb) :
  Q (pid sp pv pv_last ie dt)
    (set_log (CallPid sp pv pv_last ie dt :: log s) s) ->
  wp (call_pid sp pv pv_last ie dt) Q s.
Proof. auto. Qed.

Lemma wp_lstm_ieee predict s_x s_y (T1_m Tsp_m : list float)
    (Q : result float -> nb -> Prop) (s : nb) :
  match np_sub Tsp_m T1_m with
  | Raise e => Q (Raise e) s
  | Ok err =>
      match vstack_T Tsp_m err with
      | Raise e => Q (Raise e) s
      | Ok X =>
          match Scaler.transform s_x X with
          | Raise e => Q (Raise e) s
          | Ok Xs =>
              if is_infinity (predict Xs)
              then Q (Raise ValueError) (set_log (Predict Xs :: log s) s)
              else Q (Ok (np_clip (Scaler.inverse_transform1 s_y (predict Xs))
                            0 100))
                     (set_log (Predict Xs :: log s) s)
          end
      end
  end ->
  wp (lstm predict s_x s_y T1_m Tsp_m) Q s.
Proof.
  unfold wp. rewrite lstm_run_ieee.
  destruct (np_sub Tsp_m T1_m) as [err|e]; [|auto].
  destruct (vstack_T Tsp_m err) as [X|e]; [|auto].
  destruct (Scaler.transform s_x X) as [Xs|e]; [|auto].
  destruct (is_infinity (predict Xs)); auto.
Qed.

Lemma wp_if_ieee {A : Type} (b : bool) (m1 m2 : M A)
    (Q : result A -> nb -> Prop) (s : nb) :
  (if b then wp m1 Q s else wp m2 Q s) -> wp (if b then m1 else m2) Q s.
Proof. destruct b; auto. Qed.

Lemma wp_mono_ieee {A : Type} (m : M A) (Q Q' : result A -> nb -> Prop) (s : nb) :
  (forall r s', Q r s' -> Q' r s') -> wp m Q s -> wp m Q' s.
Proof. unfold wp. auto. Qed.

(** One step of symbolic execution. *)
Ltac wp_step :=
  lazymatch goal with
  | |- wp (mbind _ _) _ _ => apply wp_bind_ieee
  | |- wp (mret _) _ _ => apply wp_ret_ieee
  | |- wp (lift _) _ _ => apply wp_lift_ieee
  | |- wp (gets _) _ _ => apply wp_gets_ieee
  | |- wp (modify _) _ _ => apply wp_modify_ieee
  | |- wp (emit _) _ _ => apply wp_emit_ieee
  | |- wp (getitem _ _) _ _ => apply wp_getitem_ieee
  | |- wp (setitem _ _ _) _ _ => apply wp_setitem_ieee
  | |- wp (getslice _ _ _) _ _ => apply wp_getslice_ieee
  | |- wp (lab_T1 _) _ _ => apply wp_lab_T1_ieee
  | |- wp (lab_Q1 _) _ _ => apply wp_lab_Q1_ieee
  | |- wp (call_pid _ _ _ _ _) _ _ => apply wp_call_pid_ieee
  | |- wp (lstm _ _ _ _ _) _ _ => apply wp_lstm_ieee
  | |- wp (if (?a <=? ?b)%nat then _ else _) _ _ =>
      apply wp_if_ieee; destruct (Nat.leb_spec a b)
  end.

Ltac wp_case :=
  lazymatch goal with
  | |- match ?r with Ok _ => _ | Raise _ => _ end =>
      let E := fresh "E" in destruct r eqn:E
  | |- if is_infinity ?x then _ else _ =>
      let E := fresh "E" in destruct (is_infinity x) eqn:E
  end.

Ltac nb_simpl :=
  cbv beta iota zeta;
  cbn [get_var set_var set_log set_ierr set_iae set_prev_time
       T1 Q1 Qpid Qlstm tm Tsp1 Tsp ierr iae prev_time log].

(** Symbolic execution of a statement, one goal for each way it can end. *)
Ltac wp_run := repeat (first [wp_step | wp_case]; nb_simpl).

(** The recorded outcomes of array accesses as facts about lists. *)
Ltac norm_access :=
  repeat match goal with
  | H : Ok _ = Ok _ |- _ => injection H as H; try subst
  | H : Ok _ = Raise _ |- _ => discriminate H
  | H : Raise _ = Ok _ |- _ => discriminate H
  | H : PyArr.setitem ?a (Z.of_nat ?i) _ = _ |- _ =>
      rewrite setitem_nat in H;
      let L := fresh "L" in
      destruct (Nat.ltb_spec i (length a)) as [L|L]
  | H : PyArr.getitem _ (Z.of_nat ?i) = Ok _ |- _ =>
      apply getitem_nat_Ok in H
  | H : <[?i:=_]> ?a !! ?i = Some _ |- _ =>
      rewrite list_lookup_insert_eq in H by assumption
  | H : Some _ = Some _ |- _ => injection H as H; try subst
  end.

(** A loop keeps what each of its ticks keeps: [Inv i] holds before the tick
    of index [i], and [Err] once an exception has ended the loop. *)
Lemma for_enumerate_wp_ieee (body : nat -> float -> M unit)
    (Inv : nat -> nb -> Prop) (Err : nb -> Prop) :
  (forall i t s, Inv i s ->
     wp (body i t)
        (fun r s' => match r with Ok _ => Inv (S i) s' | Raise _ => Err s' end)
        (set_log (Tick t :: log s) s)) ->
  forall clock i s, Inv i s ->
    wp (for_enumerate body i clock)
       (fun r s' => match r with
                    | Ok _ => Inv (i + length clock)%nat s'
                    | Raise _ => Err s'
                    end) s.
Proof.
  intros Hbody clock. induction clock as [|t clock IH]; intros i s HI.
  - cbn [for_enumerate length]. apply wp_ret_ieee. rewrite Nat.add_0_r. exact HI.
  - cbn [for_enumerate length]. apply wp_bind_ieee, wp_emit_ieee. apply wp_bind_ieee.
    specialize (Hbody i t s HI). unfold wp in Hbody |- *.
    destruct (body i t (set_log (Tick t :: log s) s)) as [[[]|e] s'];
      cbn [fst snd] in *; [|exact Hbody].
    specialize (IH (S i) s' Hbody). unfold wp in IH.
    replace (i + S (length clock))%nat with (S i + length clock)%nat by lia.
    exact IH.
Qed.

(** The same for a property that does not depend on how the loop ends. *)
Lemma for_enumerate_always_ieee (body : nat -> float -> M unit) (P : nb -> Prop) :
  (forall i t s, P s ->
     wp (body i t) (fun _ s' => P s') (set_log (Tick t :: log s) s)) ->
  forall clock i s, P s -> P (for_enumerate body i clock s).2.
Proof.
  intros Hbody clock i s HP.
  assert (H : wp (for_enumerate body i clock)
                 (fun r s' => match r with Ok _ => P s' | Raise _ => P s' end) s).
  { apply (for_enumerate_wp_ieee body (fun _ => P) P); [|exact HP].
    intros i' t s0 HP0. specialize (Hbody i' t s0 HP0). unfold wp in Hbody |- *.
    destruct (body i' t _) as [[[]|e] s']; exact Hbody. }
  unfold wp in H.
  destruct (for_enumerate body i clock s) as [[[]|e] s']; exact H.
Qed.

(** ** The logs of the runs *)

Lemma follows_nil_ieee ok : follows ok [].
Proof. intros [|e' l2] e l1 H; discriminate H. Qed.

Lemma follows_cons_ieee ok e l :
  ok e (head l) -> follows ok l -> follows ok (e :: l).
Proof.
  intros He Hl [|e' l2] e0 l1 H; injection H as -> ->.
  - exact He.
  - apply (Hl l2 e0 l1). reflexivity.
Qed.

Lemma follows_head_ieee ok e l : follows ok (e :: l) -> ok e (head l).
Proof. intros H. apply (H [] e l). reflexivity. Qed.

Lemma follows_tail_ieee ok e l : follows ok (e :: l) -> follows ok l.
Proof.
  intros H l2 e0 l1 Hl. apply (H (e :: l2) e0 l1). rewrite Hl. reflexivity.
Qed.

Lemma follows_Forall_ieee ok (P : event -> Prop) l :
  (forall e prev, ok e prev -> P e) -> follows ok l -> Forall P l.
Proof.
  intros HP. induction l as [|e l IH]; intros Hl; constructor.
  - apply (HP e (head l)), follows_head_ieee, Hl.
  - apply IH. eapply follows_tail_ieee. exact Hl.
Qed.

Lemma heater_writes_Forall_ieee (P : float -> Prop) l :
  Forall (fun e => match e with WriteQ1 q => P q | _ => True end) l ->
  Forall P (heater_writes l).
Proof.
  induction 1 as [|e l He _ IH]; [constructor|].
  destruct e; cbn; try exact IH. constructor; assumption.
Qed.

Lemma heater_writes_app (l1 l2 : list event) :
  heater_writes (l1 ++ l2) = heater_writes l1 ++ heater_writes l2.
Proof.
  unfold heater_writes. apply omap_app.
Qed.

Section RunLogs.

Variable sensor : list event -> float.
Variable predict : list (float * float) -> float.
Variable s_x : Scaler.feature * Scaler.feature.
Variable s_y : Scaler.feature.
Variable window : nat.

Lemma partA_unfold_ieee (clock : list float) (s : nb) :
  partA sensor predict s_x s_y window clock s
  = for_enumerate (partA_tick sensor predict s_x s_y window) 0 clock
      (partA_start s).
Proof. reflexivity. Qed.

Lemma partB_unfold_ieee (clock : list float) (s : nb) :
  partB sensor predict s_x s_y window clock s
  = for_enumerate (partB_tick sensor predict s_x s_y window) 0 clock
      (partB_start s).
Proof. reflexivity. Qed.

(** A tick of Part A keeps the order of the events of Part A. *)
Lemma partA_tick_follows (i : nat) (t : float) (s : nb) :
  follows okA (log s) ->
  wp (partA_tick sensor predict s_x s_y window i t)
     (fun _ s' => follows okA (log s')) s.
Proof.
  intros Hs. unfold partA_tick, run_lstm. cbv zeta.
  wp_run.
  all: norm_access.
  all: repeat (apply follows_cons_ieee; [cbn; eauto 10|]); exact Hs.
Qed.

Lemma partA_log_follows_ieee (clock : list float) (s : nb) :
  follows okA (log (partA sensor predict s_x s_y window clock s).2).
Proof.
  rewrite partA_unfold_ieee.
  apply (for_enumerate_always_ieee _ (fun s => follows okA (log s))).
  - intros i t s0 H0. apply partA_tick_follows.
    cbn [log set_log]. apply follows_cons_ieee; [exact Logic.I|exact H0].
  - apply follows_nil_ieee.
Qed.

(** A tick of Part A that completes has written one heater command. *)
Lemma partA_tick_writes (i : nat) (t : float) (s : nb) :
  wp (partA_tick sensor predict s_x s_y window i t)
     (fun r s' => match r with
                  | Ok _ => length (heater_writes (log s'))
                            = S (length (heater_writes (log s)))
                  | Raise _ => True
                  end) s.
Proof.
  unfold partA_tick, run_lstm. cbv zeta.
  wp_run.
  all: try exact Logic.I.
  all: reflexivity.
Qed.

Lemma partA_completed_writes_ieee (clock : list float) (s s' : nb) :
  partA sensor predict s_x s_y window clock s = (Ok tt, s') ->
  length (heater_writes (log s')) = length clock.
Proof.
  rewrite partA_unfold_ieee. intros Hrun.
  assert (Hbody : forall i t s0,
             length (heater_writes (log s0)) = i ->
             wp (partA_tick sensor predict s_x s_y window i t)
                (fun r s1 => match r with
                             | Ok _ => length (heater_writes (log s1)) = S i
                             | Raise _ => True
                             end)
                (set_log (Tick t :: log s0) s0)).
  { intros i t s0 Hi.
    eapply wp_mono_ieee; [|apply partA_tick_writes].
    cbn beta. intros [[]|e] s1; [|intros _; exact Logic.I].
    cbn [log set_log]. intros ->. cbn. f_equal. exact Hi. }
  pose proof (for_enumerate_wp_ieee _ _ _ Hbody clock 0%nat (partA_start s) eq_refl)
    as H.
  unfold wp in H. rewrite Hrun in H. exact H.
Qed.

(** A tick only adds to the log. *)
Lemma partA_tick_extends (i : nat) (t : float) (s : nb) :
  exists evs,
    log (partA_tick sensor predict s_x s_y window i t s).2 = evs ++ log s.
Proof.
  change (wp (partA_tick sensor predict s_x s_y window i t)
             (fun _ s' => exists evs, log s' = evs ++ log s) s).
  unfold partA_tick, run_lstm. cbv zeta.
  wp_run.
  all: first [ exists []; reflexivity
             | eexists [_]; reflexivity
             | eexists [_; _]; reflexivity
             | eexists [_; _; _]; reflexivity
             | eexists [_; _; _; _]; reflexivity ].
Qed.

End RunLogs.
(** ** Two runs that differ in the model only *)

Lemma agree_refl (s : nb) : agree s s.
Proof. unfold agree. repeat split; reflexivity. Qed.

Lemma erase_app (l1 l2 : list event) : erase (l1 ++ l2) = erase l1 ++ erase l2.
Proof. unfold erase. apply List.filter_app. Qed.

Lemma plant_view_erase (l : list event) : plant_view (erase l) = plant_view l.
Proof.
  induction l as [|e l IH]; [reflexivity|].
  unfold plant_view, erase in *.
  destruct e; cbn [List.filter not_predict plant_visible]; rewrite ?IH;
    reflexivity.
Qed.

Lemma heater_writes_erase (l : list event) :
  heater_writes (erase l) = heater_writes l.
Proof.
  induction l as [|e l IH]; [reflexivity|].
  unfold heater_writes, erase in *.
  destruct e; cbn [List.filter not_predict omap list_omap]; rewrite ?IH;
    reflexivity.
Qed.

Lemma agree_plant_view (s1 s2 : nb) :
  agree s1 s2 -> plant_view (log s1) = plant_view (log s2).
Proof.
  intros H. rewrite <- (plant_view_erase (log s1)), <- (plant_view_erase (log s2)).
  f_equal. apply H.
Qed.

Lemma agree_get_var (x : var) (s1 s2 : nb) :
  x <> vQlstm -> agree s1 s2 -> get_var x s1 = get_var x s2.
Proof.
  unfold agree. intros Hx H. destruct x; try contradiction; cbn; apply H.
Qed.

Lemma agree_set_var (x : var) (a : list float) (s1 s2 : nb) :
  x <> vQlstm -> agree s1 s2 -> agree (set_var x a s1) (set_var x a s2).
Proof.
  unfold agree. intros Hx H. destruct x; try contradiction; cbn; tauto.
Qed.

Lemma agree_set_Qlstm (a1 a2 : list float) (s1 s2 : nb) :
  length a1 = length a2 -> agree s1 s2 ->
  agree (set_var vQlstm a1 s1) (set_var vQlstm a2 s2).
Proof. unfold agree. cbn. tauto. Qed.

Lemma agree_emit (e : event) (s1 s2 : nb) :
  agree s1 s2 -> agree (set_log (e :: log s1) s1) (set_log (e :: log s2) s2).
Proof.
  unfold agree. cbn [T1 Q1 Qpid Qlstm tm Tsp1 Tsp ierr iae prev_time log set_log].
  intros H. repeat (split; [apply H|]).
  unfold erase. cbn [List.filter]. destruct (not_predict e); [f_equal|]; apply H.
Qed.

Lemma agree_emit_predict (X1 : list (float * float)) (s1 s2 : nb) :
  agree s1 s2 -> agree (set_log (Predict X1 :: log s1) s1) s2.
Proof.
  unfold agree. cbn [T1 Q1 Qpid Qlstm tm Tsp1 Tsp ierr iae prev_time log set_log].
  intros H. repeat (split; [apply H|]). apply H.
Qed.

Lemma agree_sym (s1 s2 : nb) : agree s1 s2 -> agree s2 s1.
Proof. unfold agree. intros H. repeat split; symmetry; apply H. Qed.

Lemma agree_set_prev_time (t : float) (s1 s2 : nb) :
  agree_but_time s1 s2 -> agree (set_prev_time t s1) (set_prev_time t s2).
Proof.
  unfold agree_but_time, agree.
  cbn [T1 Q1 Qpid Qlstm tm Tsp1 Tsp ierr iae prev_time log set_prev_time].
  intros H. repeat (split; [apply H|]). split; [reflexivity|apply H].
Qed.

Lemma agree_agree_but_time (s1 s2 : nb) : agree s1 s2 -> agree_but_time s1 s2.
Proof.
  unfold agree_but_time, agree.
  cbn [T1 Q1 Qpid Qlstm tm Tsp1 Tsp ierr iae prev_time log set_prev_time].
  intros H. repeat (split; [apply H|]). split; [reflexivity|apply H].
Qed.

Lemma agree_but_time_set (t1 t2 : float) (s1 s2 : nb) :
  agree_but_time s1 s2 ->
  agree_but_time (set_prev_time t1 s1) (set_prev_time t2 s2).
Proof. intros H. exact H. Qed.

Section SimRules.

Context {A B : Type}.

Lemma sim_bind (R : A -> A -> Prop) (R' : B -> B -> Prop)
    (m1 m2 : M A) (k1 k2 : A -> M B) :
  sim R m1 m2 ->
  (forall a1 a2, R a1 a2 -> sim R' (k1 a1) (k2 a2)) ->
  sim R' (m1 ≫= k1) (m2 ≫= k2).
Proof.
  intros Hm Hk s1 s2 Hs. specialize (Hm s1 s2 Hs).
  unfold mbind, M_bind.
  destruct (m1 s1) as [[a1|e1] s1'], (m2 s2) as [[a2|e2] s2'];
    cbn [fst snd] in *; destruct Hm as [Hag HR]; try contradiction.
  - apply Hk; assumption.
  - split; assumption.
Qed.

Lemma sim_ret (a : A) : sim eq (mret a) (mret a).
Proof. intros s1 s2 Hs. split; [exact Hs|reflexivity]. Qed.

Lemma sim_lift (r : result A) : sim eq (lift r) (lift r).
Proof. intros s1 s2 Hs. split; [exact Hs|]. cbn. destruct r; reflexivity. Qed.

Lemma sim_gets (f : nb -> A) :
  (forall s1 s2, agree s1 s2 -> f s1 = f s2) -> sim eq (gets f) (gets f).
Proof. intros Hf s1 s2 Hs. split; [exact Hs|]. cbn. apply Hf, Hs. Qed.

(** A statement that keeps two runs in step, followed by statements of which
    the model may end one. *)
Lemma sim_until_model_bind (R : A -> A -> Prop) (m1 m2 : M A)
    (k1 k2 : A -> M unit) :
  sim R m1 m2 ->
  (forall a1 a2, R a1 a2 -> sim_until_model (k1 a1) (k2 a2)) ->
  sim_until_model (m1 ≫= k1) (m2 ≫= k2).
Proof.
  intros Hm Hk s1 s2 Hs. specialize (Hm s1 s2 Hs).
  unfold mbind, M_bind.
  destruct (m1 s1) as [[a1|e1] s1'], (m2 s2) as [[a2|e2] s2'];
    cbn [fst snd] in *; destruct Hm as [Hag HR]; try contradiction.
  - apply Hk; assumption.
  - subst e2. split; [apply agree_agree_but_time, Hag|].
    split; [intros H; discriminate H|left; reflexivity].
Qed.

End SimRules.

Lemma sim_modify (f : nb -> nb) :
  (forall s1 s2, agree s1 s2 -> agree (f s1) (f s2)) ->
  sim eq (modify f) (modify f).
Proof. intros Hf s1 s2 Hs. split; [apply Hf, Hs|reflexivity]. Qed.

Lemma sim_emit (e : event) : sim eq (emit e) (emit e).
Proof. apply sim_modify. intros s1 s2. apply agree_emit. Qed.

Lemma sim_getitem (x : var) (i : Z) :
  x <> vQlstm -> sim eq (getitem x i) (getitem x i).
Proof.
  intros Hx s1 s2 Hs. split; [exact Hs|].
  unfold getitem, gets, lift, mbind, M_bind. cbn [fst snd].
  rewrite (agree_get_var x s1 s2 Hx Hs).
  destruct (PyArr.getitem (get_var x s2) i); reflexivity.
Qed.

Lemma sim_setitem (x : var) (i : Z) (v : float) :
  x <> vQlstm -> sim eq (setitem x i v) (setitem x i v).
Proof.
  intros Hx s1 s2 Hs.
  unfold setitem, gets, lift, modify, mbind, M_bind. cbn [fst snd].
  rewrite (agree_get_var x s1 s2 Hx Hs).
  destruct (PyArr.setitem (get_var x s2) i v); cbn [fst snd].
  - split; [apply agree_set_var; assumption|reflexivity].
  - split; [exact Hs|reflexivity].
Qed.

Lemma sim_lab_T1 (sensor : list event -> float) :
  sim eq (lab_T1 sensor) (lab_T1 sensor).
Proof.
  intros s1 s2 Hs.
  unfold lab_T1, gets, emit, modify, mbind, M_bind, mret, M_ret. cbn [fst snd].
  rewrite (agree_plant_view s1 s2 Hs).
  split; [apply agree_emit, Hs|reflexivity].
Qed.

Lemma sim_call_pid (sp pv pv_last ie dt : float) :
  sim eq (call_pid sp pv pv_last ie dt) (call_pid sp pv pv_last ie dt).
Proof.
  intros s1 s2 Hs.
  unfold call_pid, emit, modify, lift, mbind, M_bind. cbn [fst snd].
  split; [apply agree_emit, Hs|].
  destruct (pid sp pv pv_last ie dt); reflexivity.
Qed.

Ltac agree_solve :=
  let s1 := fresh "s1" in
  let s2 := fresh "s2" in
  let H := fresh "H" in
  intros s1 s2 H; unfold agree in *;
  cbn [T1 Q1 Qpid Qlstm tm Tsp1 Tsp ierr iae prev_time log
       set_ierr set_iae set_prev_time set_log];
  repeat match goal with
         | |- _ /\ _ => split
         end;
  try apply H; try reflexivity;
  try (f_equal; apply H).

Ltac sim_prim :=
  first [ apply sim_ret
        | apply sim_lift
        | apply sim_emit
        | apply sim_lab_T1
        | apply sim_call_pid
        | apply sim_getitem; discriminate
        | apply sim_setitem; discriminate
        | apply sim_gets; agree_solve
        | apply sim_modify; agree_solve ].

Section NonInterference.

Variable sensor : list event -> float.
Variables predict1 predict2 : list (float * float) -> float.
Variable s_x : Scaler.feature * Scaler.feature.
Variable s_y : Scaler.feature.
Variable window : nat.

(** The model stage of a tick and the statement after it, step by step. *)
Lemma model_stage_run predict (i : nat) (t : float) (s : nb) :
  (_ ← run_lstm predict s_x s_y window i; modify (set_prev_time t)) s =
    if (window <=? i)%nat then
      let T1_m :=
        PyArr.getslice (T1 s) (Z.of_nat i - Z.of_nat window) (Z.of_nat i) in
      let Tsp_m :=
        PyArr.getslice (Tsp s) (Z.of_nat i - Z.of_nat window) (Z.of_nat i) in
      match np_sub Tsp_m T1_m with
      | Raise e => (Raise e, s)
      | Ok err =>
          match vstack_T Tsp_m err with
          | Raise e => (Raise e, s)
          | Ok X =>
              match Scaler.transform s_x X with
              | Raise e => (Raise e, s)
              | Ok Xs =>
                  let s' := set_log (Predict Xs :: log s) s in
                  if is_infinity (predict Xs) then (Raise ValueError, s')
                  else
                    match PyArr.norm_index (length (Qlstm s)) (Z.of_nat i) with
                    | Some j =>
                        (Ok tt,
                         set_prev_time t
                           (set_var vQlstm
                              (<[j:=np_clip (Scaler.inverse_transform1 s_y
                                               (predict Xs)) 0 100]> (Qlstm s))
                              s'))
                    | None => (Raise IndexError, s')
                    end
              end
          end
      end
    else (Ok tt, set_prev_time t s).
Proof.
  unfold run_lstm. destruct (window <=? i)%nat; [|reflexivity].
  cbv zeta.
  unfold getslice, setitem, gets, lift, modify, mbind, M_bind, mret, M_ret.
  cbn [get_var].
  match goal with
  | |- context [lstm predict s_x s_y ?a ?b s] =>
      pose proof (lstm_run_ieee predict s_x s_y a b s) as E
  end.
  rewrite E. clear E.
  destruct (np_sub _ _) as [err|e]; [|reflexivity].
  destruct (vstack_T _ err) as [X|e]; [|reflexivity].
  destruct (Scaler.transform s_x X) as [Xs|e]; [|reflexivity].
  destruct (is_infinity (predict Xs)); [reflexivity|].
  cbn [get_var set_log Qlstm]. unfold PyArr.setitem.
  destruct (PyArr.norm_index _ _); reflexivity.
Qed.

Ltac agree_leaf Hs :=
  unfold agree_but_time, agree, erase in *;
  cbn [T1 Q1 Qpid Qlstm tm Tsp1 Tsp ierr iae prev_time log
       set_var set_prev_time set_log List.filter not_predict];
  rewrite ?length_insert;
  repeat match goal with |- _ /\ _ => split end;
  first [apply Hs | reflexivity].

(** Whatever the two models answer, the model stages of two runs in step
    leave what the runs share in step. *)
Lemma sim_model_stage (i : nat) (t : float) :
  sim_until_model
    (_ ← run_lstm predict1 s_x s_y window i; modify (set_prev_time t))
    (_ ← run_lstm predict2 s_x s_y window i; modify (set_prev_time t)).
Proof.
  intros s1 s2 Hs. rewrite !model_stage_run.
  assert (HT : T1 s1 = T1 s2) by apply Hs.
  assert (HS : Tsp s1 = Tsp s2) by apply Hs.
  assert (HL : length (Qlstm s1) = length (Qlstm s2)) by apply Hs.
  rewrite HT, HS, HL.
  destruct (window <=? i)%nat; cbv zeta.
  2: { cbn [fst snd]. split; [agree_leaf Hs|].
       split; [intros _ _; agree_leaf Hs|left; reflexivity]. }
  destruct (np_sub _ _) as [err|e].
  2: { cbn [fst snd]. split; [agree_leaf Hs|].
       split; [intros H; discriminate H|left; reflexivity]. }
  destruct (vstack_T _ err) as [X|e].
  2: { cbn [fst snd]. split; [agree_leaf Hs|].
       split; [intros H; discriminate H|left; reflexivity]. }
  destruct (Scaler.transform s_x X) as [Xs|e].
  2: { cbn [fst snd]. split; [agree_leaf Hs|].
       split; [intros H; discriminate H|left; reflexivity]. }
  destruct (is_infinity (predict1 Xs)), (is_infinity (predict2 Xs));
    destruct (PyArr.norm_index (length (Qlstm s2)) (Z.of_nat i));
    cbn [fst snd].
  all: split; [agree_leaf Hs|].
  all: split; [first [intros H; discriminate H
                     |intros _ H; discriminate H
                     |intros _ _; agree_leaf Hs]|].
  all: first [left; reflexivity|right; left; reflexivity
             |right; right; reflexivity].
Qed.

(** The ticks of two runs of Part A in step. *)
Lemma sim_partA_tick (i : nat) (t : float) :
  sim_until_model (partA_tick sensor predict1 s_x s_y window i t)
                  (partA_tick sensor predict2 s_x s_y window i t).
Proof.
  unfold partA_tick, lab_Q1. cbv zeta.
  repeat (eapply sim_until_model_bind; [sim_prim|intros ? ? <-]).
  apply sim_model_stage.
Qed.

(** A loop only adds to the log when its ticks do. *)
Lemma for_enumerate_extends (body : nat -> float -> M unit) :
  (forall i t s, exists evs, log (body i t s).2 = evs ++ log s) ->
  forall clock i s,
    exists evs, log (for_enumerate body i clock s).2 = evs ++ log s.
Proof.
  intros Hbody clock. induction clock as [|t clock IH]; intros i s.
  - exists []. reflexivity.
  - cbn [for_enumerate]. unfold emit, modify, mbind, M_bind.
    destruct (Hbody i t (set_log (Tick t :: log s) s)) as [evs Hevs].
    destruct (body i t (set_log (Tick t :: log s) s)) as [[[]|e] s'];
      cbn [fst snd] in *.
    + destruct (IH (S i) s') as [evs' Hevs']. rewrite Hevs', Hevs.
      cbn [log set_log]. exists (evs' ++ evs ++ [Tick t]).
      rewrite <- !app_assoc. reflexivity.
    + rewrite Hevs. cbn [log set_log]. exists (evs ++ [Tick t]).
      rewrite <- app_assoc. reflexivity.
Qed.

(** Two loops whose ticks are in step until a model ends one of them. *)
Lemma sim_for_enumerate (body1 body2 : nat -> float -> M unit) :
  (forall i t, sim_until_model (body1 i t) (body2 i t)) ->
  (forall i t s, exists evs, log (body1 i t s).2 = evs ++ log s) ->
  (forall i t s, exists evs, log (body2 i t s).2 = evs ++ log s) ->
  forall clock i s1 s2, agree s1 s2 ->
    let run1 := for_enumerate body1 i clock s1 in
    let run2 := for_enumerate body2 i clock s2 in
    (run1.1 = Ok tt -> run2.1 = Ok tt -> agree run1.2 run2.2)
    /\ (run1.1 = run2.1 \/ run1.1 = Raise ValueError
        \/ run2.1 = Raise ValueError)
    /\ (exists evs, erase (log run1.2) = evs ++ erase (log run2.2)
                    \/ erase (log run2.2) = evs ++ erase (log run1.2)).
Proof.
  intros Hsim Hext1 Hext2 clock.
  induction clock as [|t clock IH]; intros i s1 s2 Hs.
  - cbn. split; [intros _ _; exact Hs|]. split; [left; reflexivity|].
    exists []. left. cbn. apply Hs.
  - cbn [for_enumerate]. unfold emit, modify, mbind, M_bind.
    pose proof (agree_emit (Tick t) s1 s2 Hs) as Ht.
    destruct (Hsim i t _ _ Ht) as (Hbt & Hok & Hout).
    pose proof (for_enumerate_extends body1 Hext1 clock (S i)) as Hl1.
    pose proof (for_enumerate_extends body2 Hext2 clock (S i)) as Hl2.
    destruct (body1 i t (set_log (Tick t :: log s1) s1)) as [[[]|e1] s1'],
             (body2 i t (set_log (Tick t :: log s2) s2)) as [[[]|e2] s2'];
      cbn [fst snd] in *.
    + apply IH, Hok; reflexivity.
    + split; [intros _ H; discriminate H|].
      split; [destruct Hout as [H|[H|H]]; [discriminate H|discriminate H|]|].
      { right. right. exact H. }
      destruct (Hl1 s1') as [evs Hevs]. exists (erase evs). left.
      rewrite Hevs, erase_app. f_equal. apply Hbt.
    + split; [intros H; discriminate H|].
      split; [destruct Hout as [H|[H|H]]; [discriminate H| |discriminate H]|].
      { right. left. exact H. }
      destruct (Hl2 s2') as [evs Hevs]. exists (erase evs). right.
      rewrite Hevs, erase_app. f_equal. symmetry. apply Hbt.
    + split; [intros H; discriminate H|]. split; [exact Hout|].
      exists []. left. cbn [app]. apply Hbt.
Qed.

End NonInterference.
(** ** The range of the heater commands *)

Section Ranges.

Variable sensor : list event -> float.
Variable predict : list (float * float) -> float.
Variable s_x : Scaler.feature * Scaler.feature.
Variable s_y : Scaler.feature.
Variable window : nat.

(** What [lstm] returns is NaN or lies in [0,100]; it is NaN exactly when
    the unscaled answer of the model is. *)
Lemma lstm_returned (T1_m Tsp_m : list float) (s s' : nb) (q : float) :
  lstm predict s_x s_y T1_m Tsp_m s = (Ok q, s') ->
  exists Xs,
    s' = set_log (Predict Xs :: log s) s
    /\ is_infinity (predict Xs) = false
    /\ q = np_clip (Scaler.inverse_transform1 s_y (predict Xs)) 0 100
    /\ is_nan q = is_nan (Scaler.inverse_transform1 s_y (predict Xs))
    /\ in_range_or_nan q.
Proof.
  rewrite lstm_run_ieee.
  destruct (np_sub Tsp_m T1_m) as [err|e]; [|discriminate].
  destruct (vstack_T Tsp_m err) as [X|e]; [|discriminate].
  destruct (Scaler.transform s_x X) as [Xs|e]; [|discriminate].
  destruct (is_infinity (predict Xs)) eqn:Hinf; [discriminate|].
  intros [= <- <-]. exists Xs.
  split; [reflexivity|]. split; [exact Hinf|]. split; [reflexivity|].
  split; [apply np_clip_nan|apply np_clip_range].
Qed.

(** Every heater command of Part A is the output of [pid]. *)
Lemma partA_writes_range (clock : list float) (s : nb) :
  Forall in_range_or_nan
    (heater_writes (log (partA sensor predict s_x s_y window clock s).2)).
Proof.
  apply heater_writes_Forall_ieee.
  eapply follows_Forall_ieee; [|apply partA_log_follows_ieee].
  intros [] prev; cbn; try (intros; exact Logic.I).
  intros (sp & pv & pvl & ie & dt & r & _ & Hr & ->).
  exact (pid_op_range _ _ _ _ _ _ Hr).
Qed.

(** The ticks keep the elements of [Qlstm] in range. *)
Lemma partA_tick_Qlstm_range (i : nat) (t : float) (s : nb) :
  Forall in_range_or_nan (Qlstm s) ->
  wp (partA_tick sensor predict s_x s_y window i t)
     (fun _ s' => Forall in_range_or_nan (Qlstm s')) s.
Proof.
  intros Hs. unfold partA_tick, run_lstm. cbv zeta.
  wp_run.
  all: norm_access.
  all: try exact Hs.
  all: apply Forall_insert; [exact Hs|apply np_clip_range].
Qed.

Lemma partA_Qlstm_range (clock : list float) (s : nb) :
  Forall in_range_or_nan (Qlstm s) ->
  Forall in_range_or_nan
    (Qlstm (partA sensor predict s_x s_y window clock s).2).
Proof.
  intros Hs. rewrite partA_unfold_ieee.
  apply (for_enumerate_always_ieee _ (fun s => Forall in_range_or_nan (Qlstm s))).
  - intros i t s0 H0. apply partA_tick_Qlstm_range. exact H0.
  - exact Hs.
Qed.

Lemma partB_tick_range (i : nat) (t : float) (s : nb) :
  Forall in_range_or_nan (Qlstm s) ->
  Forall in_range_or_nan (heater_writes (log s)) ->
  wp (partB_tick sensor predict s_x s_y window i t)
     (fun _ s' => Forall in_range_or_nan (Qlstm s')
                  /\ Forall in_range_or_nan (heater_writes (log s'))) s.
Proof.
  intros HQ HW. unfold partB_tick, run_lstm, lab_Q1. cbv zeta.
  wp_run.
  all: norm_access.
  all: split; [first [exact HQ
                     |apply Forall_insert; [exact HQ|apply np_clip_range]]|].
  all: cbn [heater_writes omap list_omap]; try exact HW.
  all: constructor; [|exact HW].
  all: first [apply np_clip_range
             |eapply Forall_lookup_1; [exact HQ|eassumption]].
Qed.

Lemma partB_range (clock : list float) (s : nb) :
  Forall in_range_or_nan (Qlstm s) ->
  let s' := (partB sensor predict s_x s_y window clock s).2 in
  Forall in_range_or_nan (Qlstm s')
  /\ Forall in_range_or_nan (heater_writes (log s')).
Proof.
  intros Hs. cbv zeta. rewrite partB_unfold_ieee.
  apply (for_enumerate_always_ieee _
           (fun s => Forall in_range_or_nan (Qlstm s)
                     /\ Forall in_range_or_nan (heater_writes (log s)))).
  - intros i t s0 [HQ HW]. apply partB_tick_range; assumption.
  - split; [exact Hs|constructor].
Qed.

End Ranges.
(** ** The windows [lstm] accepts *)

(** The rows built from the two windows: they exist and are not empty
    exactly when the window of set points is not empty and the window of
    measurements has the same length or a single element. *)
Lemma rows_accepted (T1_m Tsp_m err : list float) (X : list (float * float)) :
  np_sub Tsp_m T1_m = Ok err -> vstack_T Tsp_m err = Ok X -> X <> [] ->
  Tsp_m <> [] /\ (length T1_m = length Tsp_m \/ length T1_m = 1%nat).
Proof.
  unfold np_sub, vstack_T.
  destruct (Nat.eqb_spec (length Tsp_m) (length T1_m)) as [Hl|Hl].
  - intros [= <-]. rewrite length_zip_with, <- Hl, Nat.min_id, Nat.eqb_refl.
    intros [= <-] HX. split; [|left; reflexivity].
    intros ->. apply HX. reflexivity.
  - destruct Tsp_m as [|x [|x' Tsp_m]].
    + destruct T1_m as [|y [|y' T1_m]]; try discriminate.
      intros [= <-]. cbn. intros [= <-] HX. contradiction.
    + intros [= <-]. rewrite length_map.
      destruct (Nat.eqb_spec (length [x]) (length T1_m)); [contradiction|].
      discriminate.
    + destruct T1_m as [|y [|y' T1_m]]; try discriminate.
      intros _ _ _. split; [discriminate|right; reflexivity].
Qed.

Lemma rows_rejected (T1_m Tsp_m : list float) :
  ~ (Tsp_m <> [] /\ (length T1_m = length Tsp_m \/ length T1_m = 1%nat)) ->
  match np_sub Tsp_m T1_m with
  | Raise e => e = ValueError
  | Ok err => match vstack_T Tsp_m err with
              | Raise e => e = ValueError
              | Ok X => X = []
              end
  end.
Proof.
  intros Hn.
  destruct (np_sub Tsp_m T1_m) as [err|e] eqn:E1;
    [|exact (np_sub_error _ _ _ E1)].
  destruct (vstack_T Tsp_m err) as [X|e] eqn:E2;
    [|exact (vstack_T_error _ _ _ E2)].
  destruct X as [|r X]; [reflexivity|].
  exfalso. apply Hn. eapply rows_accepted; [exact E1|exact E2|discriminate].
Qed.

Lemma transform_Ok (s_x : Scaler.feature * Scaler.feature)
    (X Xs : list (float * float)) :
  Scaler.transform s_x X = Ok Xs ->
  X <> [] /\ forallb Scaler.row_finite X = true
  /\ Xs = map (Scaler.transform_row s_x) X.
Proof.
  unfold Scaler.transform. destruct X as [|r X]; [discriminate|].
  destruct (forallb Scaler.row_finite (r :: X)); [|discriminate].
  intros [= <-]. split; [discriminate|]. split; reflexivity.
Qed.

Lemma rows_same_length (T1_m Tsp_m : list float) :
  length T1_m = length Tsp_m ->
  (err ← np_sub Tsp_m T1_m; vstack_T Tsp_m err)
  = Ok (zip Tsp_m (zip_with sub Tsp_m T1_m)).
Proof.
  intros Hlen. unfold np_sub, vstack_T.
  rewrite <- Hlen, Nat.eqb_refl. cbn [mbind result_bind].
  rewrite length_zip_with, <- Hlen, Nat.min_id, Hlen, Nat.eqb_refl.
  reflexivity.
Qed.
(** ** The integral carried by the loops *)

Lemma pid_tick (sp pv pv_last ie dt : float) (r : output) (s s' : nb) :
  pid sp pv pv_last ie dt = Ok r ->
  ierr s = ie -> ierr s' = I r ->
  tick_integral s s' dt sp pv pv_last (op r).
Proof.
  intros Hr Hs Hs'. unfold tick_integral. rewrite Hs, Hs'. clear Hs Hs'.
  rewrite pid_run in Hr. cbv zeta in Hr.
  destruct (out_of_bounds (raw_output sp pv pv_last ie dt)) eqn:Hsat;
    injection Hr as <-; cbn [I op]; split; intros H; try discriminate H.
  - split; [reflexivity|]. split; [apply clamp_low|apply clamp_high].
  - split; reflexivity.
Qed.

Section LoopIntegral.

Variable sensor : list event -> float.
Variable predict : list (float * float) -> float.
Variable s_x : Scaler.feature * Scaler.feature.
Variable s_y : Scaler.feature.
Variable window : nat.

Ltac tick_integral_solve :=
  eexists _, _, _; split; [eassumption|];
  split; [apply list_lookup_insert_eq; assumption|];
  split; [reflexivity|];
  eapply pid_tick; [eassumption|reflexivity|reflexivity].

Lemma partA_tick_integral (i : nat) (t : float) (s : nb) :
  wp (partA_tick sensor predict s_x s_y window i t)
     (fun r s' =>
        r = Ok tt ->
        exists sp pvl q,
          Tsp s !! i = Some sp /\ Qpid s' !! i = Some q
          /\ heater_writes (log s') = q :: heater_writes (log s)
          /\ tick_integral s s' (t - prev_time s) sp
               (sensor (plant_view (log s))) pvl q) s.
Proof.
  unfold partA_tick, run_lstm, lab_Q1. cbv zeta.
  wp_run.
  all: intros Hok; try discriminate Hok.
  all: norm_access.
  all: tick_integral_solve.
Qed.

Lemma collect_tick_integral (i : nat) (t : float) (s : nb) :
  wp (collect_tick sensor i t)
     (fun r s' =>
        r = Ok tt ->
        exists sp pvl q,
          Tsp1 s !! i = Some sp /\ Q1 s' !! i = Some q
          /\ heater_writes (log s') = q :: heater_writes (log s)
          /\ tick_integral s s' (t - prev_time s) sp
               (sensor (plant_view (log s))) pvl q) s.
Proof.
  unfold collect_tick, lab_Q1. cbv zeta.
  wp_run.
  all: intros Hok; try discriminate Hok.
  all: norm_access.
  all: tick_integral_solve.
Qed.

End LoopIntegral.

End IeeeFacts.

(** ** Anti-reset windup, the clamps and the model in Part A *)

Section Doubles.

Import PrimFloat.
Import Ieee.
Import IeeeFacts.
Local Open Scope float_scope.

(** C1, as the code has it: whenever the raw output
    [bias + Kc*error + integral + D] of a call of [pid] falls outside
    [0,100], the call returns, the output is the bound that was crossed, and
    the integral term returned is the integral passed in with the increment
    [(Kc/tauI)*error*dt] added and subtracted again, the sum and the
    difference being those of doubles.  The increment is undone by
    arithmetic, not by keeping the integral passed in. *)
Theorem pid_undoes_integral_update (sp pv pv_last ierr dt : float) :
  let raw := raw_output sp pv pv_last ierr dt in
  let inc := increment sp pv dt in
  out_of_bounds raw = true ->
  exists r, pid sp pv pv_last ierr dt = Ok r
            /\ I r = ierr + inc - inc
            /\ ((raw <? 0) = true -> op r = 0)
            /\ ((100 <? raw) = true -> op r = 100).
Proof.
  intros raw inc Hsat. rewrite pid_run. cbv zeta. fold raw. rewrite Hsat.
  eexists. split; [reflexivity|]. cbn [I op].
  split; [reflexivity|]. split; [apply clamp_low|apply clamp_high].
Qed.

Lemma pid_undoes_integral_update_witness :
  exists r, pid 125 25 25 0.1 1 = Ok r
            /\ I r = 0.1 + increment 125 25 1 - increment 125 25 1
            /\ ((raw_output 125 25 25 0.1 1 <? 0) = true -> op r = 0)
            /\ ((100 <? raw_output 125 25 25 0.1 1) = true -> op r = 100).
Proof.
  apply (pid_undoes_integral_update 125 25 25 0.1 1).
  vm_compute. reflexivity.
Defined.

(** C1, as it is stated, fails: the integral returned by a saturated call
    is not always the integral passed in.  With the integral 0.1, the set
    point 125 and the measurement 25 the raw output is 608.1 and the
    integral returned is 0.09999999999999964; with the set point 1e17 the
    integral 0.1 is absorbed by the increment and 0 is returned. *)
Lemma pid_integral_not_restored :
  (exists r, pid 125 25 25 0.1 1 = Ok r
             /\ out_of_bounds (raw_output 125 25 25 0.1 1) = true
             /\ I r = 0.099999999999999645
             /\ (I r =? 0.1) = false
             /\ I r <> 0.1)
  /\ (exists r, pid 1e17 0 0 0.1 1 = Ok r
                /\ out_of_bounds (raw_output 1e17 0 0 0.1 1) = true
                /\ I r = 0
                /\ I r <> 0.1).
Proof.
  split; eexists; (split; [vm_compute; reflexivity|]); cbn [I];
    (split; [vm_compute; reflexivity|]).
  - split; [reflexivity|]. split; [reflexivity|].
    intros H. apply (f_equal (fun z => z =? 0.1)) in H.
    vm_compute in H. discriminate H.
  - split; [reflexivity|].
    intros H. apply (f_equal (fun z => z =? 0.1)) in H.
    vm_compute in H. discriminate H.
Qed.

(** C2, on the code: the clamp of [pid] and the clip of [lstm] bound every
    number and miss NaN.  The call [pid(1e308, -1e308, 0.0, 0.0, 0.0)] has
    an infinite error and a raw output NaN, which is neither below 0 nor
    above 100, and returns it as its output; [lstm] returns NaN when the
    unscaled answer of the model is NaN.  On every other input the output
    of [pid] lies in [0,100], and whatever [lstm] returns that is not NaN
    lies in [0,100]. *)
Theorem clamp_misses_nan :
  (exists r, pid 1e308 (-1e308) 0 0 0 = Ok r
             /\ is_nan (op r) = true
             /\ (0 <=? op r) = false /\ (op r <=? 100) = false)
  /\ (let s_x := (Scaler.mk_feature 0.02 (-0.4), Scaler.mk_feature 0.01 0.5) in
      let s_y := Scaler.mk_feature 0.01 0 in
      let s := mk_nb [] [] [] [] [] [] [] 0 0 0 [] in
      exists q s', lstm (fun _ => nan) s_x s_y [21; 22] [25; 25] s = (Ok q, s')
                   /\ is_nan q = true
                   /\ (0 <=? q) = false /\ (q <=? 100) = false)
  /\ (forall sp pv pv_last ierr dt,
        exists r, pid sp pv pv_last ierr dt = Ok r /\ in_range_or_nan (op r))
  /\ (forall predict s_x s_y T1_m Tsp_m s s' q,
        lstm predict s_x s_y T1_m Tsp_m s = (Ok q, s') ->
        in_range_or_nan q).
Proof.
  split; [|split; [|split]].
  - eexists. split; [vm_compute; reflexivity|]. cbn [op].
    repeat split; reflexivity.
  - cbv zeta. eexists. eexists. split; [vm_compute; reflexivity|].
    repeat split; reflexivity.
  - intros sp pv pv_last ierr dt.
    destruct (pid sp pv pv_last ierr dt) as [r|e] eqn:E.
    + exists r. split; [reflexivity|]. exact (pid_op_range _ _ _ _ _ _ E).
    + rewrite pid_run in E. cbv zeta in E.
      destruct (out_of_bounds _) in E; discriminate E.
  - intros predict s_x s_y T1_m Tsp_m s s' q H.
    destruct (lstm_returned _ _ _ _ _ _ _ _ H) as (Xs & _ & _ & _ & _ & Hq).
    exact Hq.
Qed.

(** C9, as it is stated, fails: two runs of Part A that differ in the model
    only and do not command the heater alike.  The first model answers 0.5,
    the second answers with an infinity at every window.  The first run
    completes its four ticks; the second is ended by the [ValueError] of the
    scaler at the tick of index 2, after the heater command of that tick,
    and lacks the fourth command. *)
Lemma model_can_end_partA :
  let sensor := fun _ : list event => 21 in
  let s_x := (Scaler.mk_feature 0.02 (-0.4), Scaler.mk_feature 0.01 0.5) in
  let s_y := Scaler.mk_feature 0.01 0 in
  let s0 := mk_nb (replicate 4 0) [] (replicate 4 0) (replicate 4 0)
                  (replicate 4 0) [] (replicate 4 25) 0 0 0 [] in
  let run1 := partA sensor (fun _ => 0.5) s_x s_y 2 [0; 1; 2; 3] s0 in
  let run2 := partA sensor (fun _ => infinity) s_x s_y 2 [0; 1; 2; 3] s0 in
  run1.1 = Ok tt
  /\ run2.1 = Raise ValueError
  /\ length (heater_writes (log run1.2)) = 4%nat
  /\ length (heater_writes (log run2.2)) = 3%nat
  /\ heater_writes (log run1.2) <> heater_writes (log run2.2).
Proof.
  cbv zeta.
  split; [vm_compute; reflexivity|]. split; [vm_compute; reflexivity|].
  split; [vm_compute; reflexivity|]. split; [vm_compute; reflexivity|].
  intros H. apply (f_equal length) in H. vm_compute in H. discriminate H.
Qed.

(** C9, as the code has it: in a run of Part A every
    heater command is the output [op] of the call of [pid] made just before
    it, and the model is only ever invoked just after a heater command (so
    the command of a tick is written before the model is invoked in that
    tick); a run that completes has written one command per tick.  The
    answer of the model never reaches the heater, but an infinite answer
    ends the run with the [ValueError] of the scaler.  So of two runs that
    differ only in the model's inference function, the heater commands of
    one are the first commands of the other; the outcomes differ only when
    one of them is that [ValueError]; and when both runs complete they have
    the same heater commands, the same [Qpid] and the same temperatures. *)
Theorem partA_commands_are_pid_outputs
    (sensor : list event -> float)
    (predict1 predict2 : list (float * float) -> float)
    (s_x : Scaler.feature * Scaler.feature) (s_y : Scaler.feature)
    (window : nat) (clock : list float) (s0 : nb) :
  let run1 := partA sensor predict1 s_x s_y window clock s0 in
  let run2 := partA sensor predict2 s_x s_y window clock s0 in
  (forall l2 q l1,
      log run1.2 = l2 ++ WriteQ1 q :: l1 ->
      exists sp pv pv_last ie dt r l0,
        l1 = CallPid sp pv pv_last ie dt :: l0
        /\ pid sp pv pv_last ie dt = Ok r /\ q = op r)
  /\ (forall l2 Xs l1,
        log run1.2 = l2 ++ Predict Xs :: l1 ->
        exists q l0, l1 = WriteQ1 q :: l0)
  /\ (run1.1 = Ok tt -> length (heater_writes (log run1.2)) = length clock)
  /\ (exists later,
        heater_writes (log run1.2) = later ++ heater_writes (log run2.2)
        \/ heater_writes (log run2.2) = later ++ heater_writes (log run1.2))
  /\ (run1.1 = run2.1 \/ run1.1 = Raise ValueError
      \/ run2.1 = Raise ValueError)
  /\ (run1.1 = Ok tt -> run2.1 = Ok tt ->
      heater_writes (log run1.2) = heater_writes (log run2.2)
      /\ Qpid run1.2 = Qpid run2.2
      /\ T1 run1.2 = T1 run2.2).
Proof.
  intros run1 run2.
  pose proof (partA_log_follows_ieee sensor predict1 s_x s_y window clock s0) as Hf.
  fold run1 in Hf.
  split; [|split; [|split]].
  - intros l2 q l1 Hlog. specialize (Hf l2 (WriteQ1 q) l1 Hlog).
    destruct Hf as (sp & pv & pvl & ie & dt & r & Hhead & Hpid & Hq).
    destruct l1 as [|e l0]; [discriminate Hhead|].
    injection Hhead as ->. eauto 10.
  - intros l2 Xs l1 Hlog. specialize (Hf l2 (Predict Xs) l1 Hlog).
    destruct Hf as (q & Hhead).
    destruct l1 as [|e l0]; [discriminate Hhead|].
    injection Hhead as ->. eauto.
  - intros Hok.
    apply (partA_completed_writes_ieee sensor predict1 s_x s_y window clock s0).
    fold run1. destruct run1 as [r s1]. cbn [fst snd] in *. subst r.
    reflexivity.
  - destruct (sim_for_enumerate
                (partA_tick sensor predict1 s_x s_y window)
                (partA_tick sensor predict2 s_x s_y window)
                (sim_partA_tick sensor predict1 predict2 s_x s_y window)
                (partA_tick_extends sensor predict1 s_x s_y window)
                (partA_tick_extends sensor predict2 s_x s_y window)
                clock 0%nat (partA_start s0) (partA_start s0)
                (agree_refl _)) as (Hag & Hout & later & Hlog).
    rewrite <- !partA_unfold_ieee in Hag, Hout, Hlog. fold run1 run2 in Hag, Hout, Hlog.
    split; [|split; [exact Hout|]].
    + exists (heater_writes later).
      rewrite <- (heater_writes_erase (log run1.2)),
              <- (heater_writes_erase (log run2.2)).
      destruct Hlog as [-> | ->]; [left|right];
        rewrite heater_writes_app, heater_writes_erase; reflexivity.
    + intros H1 H2. specialize (Hag H1 H2).
      split; [|split; apply Hag].
      rewrite <- (heater_writes_erase (log run1.2)),
              <- (heater_writes_erase (log run2.2)).
      replace (erase (log run1.2)) with (erase (log run2.2));
        [reflexivity|symmetry; apply Hag].
Qed.

(** X7 (failures of [lstm]): [lstm] raises nothing but [ValueError], in two
    ways.  Before the model is invoked and with nothing changed: when the
    window of set points is empty, when the window of measurements has
    neither the same length nor a single element, or when a row holds an
    infinity.  After the model was invoked: when its answer is infinite,
    which the validation of the scaler rejects.  When [lstm] returns, the
    shapes fit, the model was invoked once, its answer was not infinite and
    the value returned is that answer unscaled and clipped.  On windows of
    the same length the rows are the set points paired with the errors. *)
Theorem lstm_failures
    (predict : list (float * float) -> float)
    (s_x : Scaler.feature * Scaler.feature) (s_y : Scaler.feature)
    (T1_m Tsp_m : list float) (s : nb) :
  let shapes :=
    Tsp_m <> [] /\ (length T1_m = length Tsp_m \/ length T1_m = 1%nat) in
  (forall e s',
      lstm predict s_x s_y T1_m Tsp_m s = (Raise e, s') ->
      e = ValueError
      /\ (s' = s
          \/ exists Xs, s' = set_log (Predict Xs :: log s) s
                        /\ is_infinity (predict Xs) = true))
  /\ (forall q s',
        lstm predict s_x s_y T1_m Tsp_m s = (Ok q, s') ->
        shapes
        /\ exists Xs, s' = set_log (Predict Xs :: log s) s
                      /\ is_infinity (predict Xs) = false
                      /\ q = np_clip (Scaler.inverse_transform1 s_y
                                        (predict Xs)) 0 100)
  /\ (~ shapes -> lstm predict s_x s_y T1_m Tsp_m s = (Raise ValueError, s))
  /\ (length T1_m = length Tsp_m -> Tsp_m <> [] ->
      let X := zip Tsp_m (zip_with sub Tsp_m T1_m) in
      let Xs := map (Scaler.transform_row s_x) X in
      lstm predict s_x s_y T1_m Tsp_m s
      = if forallb Scaler.row_finite X then
          (if is_infinity (predict Xs) then Raise ValueError
           else Ok (np_clip (Scaler.inverse_transform1 s_y (predict Xs))
                      0 100),
           set_log (Predict Xs :: log s) s)
        else (Raise ValueError, s)).
Proof.
  intros shapes. rewrite lstm_run_ieee.
  split; [|split; [|split]].
  - intros e s'.
    destruct (np_sub Tsp_m T1_m) as [err|e1] eqn:E1.
    2: { intros [= <- <-]. split; [|left; reflexivity].
         exact (np_sub_error _ _ _ E1). }
    destruct (vstack_T Tsp_m err) as [X|e2] eqn:E2.
    2: { intros [= <- <-]. split; [|left; reflexivity].
         exact (vstack_T_error _ _ _ E2). }
    destruct (Scaler.transform s_x X) as [Xs|e3] eqn:E3.
    2: { intros [= <- <-]. split; [|left; reflexivity].
         exact (transform_error _ _ _ E3). }
    destruct (is_infinity (predict Xs)) eqn:Hinf; [|discriminate].
    intros [= <- <-]. split; [reflexivity|]. right. exists Xs.
    split; [reflexivity|exact Hinf].
  - intros q s'.
    destruct (np_sub Tsp_m T1_m) as [err|e1] eqn:E1; [|discriminate].
    destruct (vstack_T Tsp_m err) as [X|e2] eqn:E2; [|discriminate].
    destruct (Scaler.transform s_x X) as [Xs|e3] eqn:E3; [|discriminate].
    destruct (is_infinity (predict Xs)) eqn:Hinf; [discriminate|].
    intros [= <- <-].
    destruct (transform_Ok _ _ _ E3) as (HX & _ & _).
    split; [exact (rows_accepted _ _ _ _ E1 E2 HX)|].
    exists Xs. split; [reflexivity|]. split; [exact Hinf|reflexivity].
  - intros Hn. pose proof (rows_rejected T1_m Tsp_m Hn) as Hr.
    destruct (np_sub Tsp_m T1_m) as [err|e1]; [|rewrite Hr; reflexivity].
    destruct (vstack_T Tsp_m err) as [X|e2]; [|rewrite Hr; reflexivity].
    rewrite Hr. reflexivity.
  - intros Hlen Hne X Xs.
    pose proof (rows_same_length T1_m Tsp_m Hlen) as Hrows.
    destruct (np_sub Tsp_m T1_m) as [err|e1]; [|discriminate Hrows].
    cbn [mbind result_bind] in Hrows. rewrite Hrows. fold X.
    unfold Scaler.transform.
    assert (HX : X <> []).
    { unfold X. destruct Tsp_m as [|x Tsp_m]; [contradiction|].
      destruct T1_m as [|y T1_m]; [discriminate Hlen|]. discriminate. }
    destruct X as [|r X'] eqn:EX; [contradiction|].
    destruct (forallb Scaler.row_finite (r :: X')); reflexivity.
Qed.

Lemma lstm_failures_witness :
  let predict := fun _ : list (float * float) => infinity in
  let s_x := (Scaler.mk_feature 0.02 (-0.4), Scaler.mk_feature 0.01 0.5) in
  let s_y := Scaler.mk_feature 0.01 0 in
  let s := mk_nb [] [] [] [] [] [] [] 0 0 0 [] in
  let X := zip [25; 25] (zip_with sub [25; 25] [21; 22]) in
  let Xs := map (Scaler.transform_row s_x) X in
  lstm predict s_x s_y [21; 22] [25; 25] s
  = if forallb Scaler.row_finite X then
      (if is_infinity (predict Xs) then Raise ValueError
       else Ok (np_clip (Scaler.inverse_transform1 s_y (predict Xs)) 0 100),
       set_log (Predict Xs :: log s) s)
    else (Raise ValueError, s).
Proof.
  intros predict s_x s_y s.
  apply (lstm_failures predict s_x s_y [21; 22] [25; 25] s);
    [reflexivity|discriminate].
Defined.

(** X16 (the range of the heater commands): every heater command of a run
    of Part A, completed or not, is NaN or lies within [0,100].  When the
    elements of [Qlstm] are such before Part A (as the zeros of the test
    cell are), they still are after Part A and after a run of Part B that
    follows, and so is every heater command of that run of Part B.  NaN does
    reach the heater in Part B: a model that answers NaN has it sent at
    every tick from the first full window on. *)
Theorem heater_commands_in_range_or_nan
    (sensor : list event -> float) (predict : list (float * float) -> float)
    (s_x : Scaler.feature * Scaler.feature) (s_y : Scaler.feature)
    (window : nat) (clockA clockB : list float) (s : nb) :
  let sA := (partA sensor predict s_x s_y window clockA s).2 in
  let sB := (partB sensor predict s_x s_y window clockB sA).2 in
  Forall in_range_or_nan (heater_writes (log sA))
  /\ (Forall in_range_or_nan (Qlstm s) ->
      Forall in_range_or_nan (Qlstm sA)
      /\ Forall in_range_or_nan (Qlstm sB)
      /\ Forall in_range_or_nan (heater_writes (log sB)))
  /\ (let s_x := (Scaler.mk_feature 0.02 (-0.4), Scaler.mk_feature 0.01 0.5) in
      let s_y := Scaler.mk_feature 0.01 0 in
      let s0 := mk_nb (replicate 4 0) [] (replicate 4 0) (replicate 4 0)
                      (replicate 4 0) [] (replicate 4 25) 0 0 0 [] in
      map is_nan
        (heater_writes
           (log (partB (fun _ => 21) (fun _ => nan) s_x s_y 2 [0; 1; 2; 3]
                   s0).2))
      = [true; true; false; false]).
Proof.
  intros sA sB. split; [apply partA_writes_range|]. split.
  - intros Hs.
    assert (HA : Forall in_range_or_nan (Qlstm sA))
      by (apply partA_Qlstm_range; exact Hs).
    split; [exact HA|].
    exact (partB_range sensor predict s_x s_y window clockB sA HA).
  - vm_compute. reflexivity.
Qed.

Lemma heater_commands_in_range_or_nan_witness :
  let sensor := fun _ : list event => 21 in
  let predict := fun _ : list (float * float) => nan in
  let s_x := (Scaler.mk_feature 0.02 (-0.4), Scaler.mk_feature 0.01 0.5) in
  let s_y := Scaler.mk_feature 0.01 0 in
  let s := mk_nb (replicate 4 0) [] (replicate 4 0) (replicate 4 0)
                 (replicate 4 0) [] (replicate 4 25) 0 0 0 [] in
  let sA := (partA sensor predict s_x s_y 2 [0; 1; 2; 3] s).2 in
  let sB := (partB sensor predict s_x s_y 2 [0; 1; 2; 3] sA).2 in
  Forall in_range_or_nan (Qlstm sA)
  /\ Forall in_range_or_nan (Qlstm sB)
  /\ Forall in_range_or_nan (heater_writes (log sB)).
Proof.
  intros sensor predict s_x s_y s.
  apply (heater_commands_in_range_or_nan sensor predict s_x s_y 2
           [0; 1; 2; 3] [0; 1; 2; 3] s).
  repeat constructor; right; split; reflexivity.
Defined.

(** X5 (one clamp for both controllers): every call of [pid] returns, and
    its raw output is the sum [0 + P + I + D] of the terms returned with
    the updated integral.  A raw output below 0 gives the output 0 and one
    above 100 gives 100, which is what [np.clip], the clamp of [lstm], makes
    of it; any other raw output is returned as it is.  So for a raw output
    that is a number the output is the number [np.clip(raw, 0, 100)], and a
    raw output NaN makes the output NaN, as it makes [np.clip] NaN. *)
Theorem pid_output_is_limited_raw (sp pv pv_last ierr dt : float) :
  let raw := raw_output sp pv pv_last ierr dt in
  exists r, pid sp pv pv_last ierr dt = Ok r
    /\ raw = 0 + P r + (ierr + increment sp pv dt) + D r
    /\ ((raw <? 0) = true -> op r = 0 /\ np_clip raw 0 100 = 0)
    /\ ((100 <? raw) = true -> op r = 100 /\ np_clip raw 0 100 = 100)
    /\ (out_of_bounds raw = false -> op r = raw)
    /\ (is_nan raw = false -> (op r =? np_clip raw 0 100) = true)
    /\ (is_nan raw = true ->
        is_nan (op r) = true /\ is_nan (np_clip raw 0 100) = true).
Proof.
  intros raw. rewrite pid_run. cbv zeta. fold raw.
  assert (Hnan : is_nan raw = true -> out_of_bounds raw = false).
  { intros H. unfold out_of_bounds.
    destruct (nan_not_ltb raw 0 H) as [-> _].
    destruct (nan_not_ltb raw 100 H) as [_ ->]. reflexivity. }
  destruct (out_of_bounds raw) eqn:Hsat; eexists; (split; [reflexivity|]);
    cbn [op P I D]; (split; [reflexivity|]).
  - split; [intros H; split; [apply clamp_low|apply np_clip_low]; exact H|].
    split; [intros H; split; [apply clamp_high|apply np_clip_high]; exact H|].
    split; [intros H; discriminate H|].
    split; [|intros H; apply Hnan in H; discriminate H].
    intros _. unfold out_of_bounds in Hsat.
    destruct (raw <? 0) eqn:Hlo.
    + rewrite (clamp_low raw Hlo), (np_clip_low raw Hlo). reflexivity.
    + cbn [orb] in Hsat.
      rewrite (clamp_high raw Hsat), (np_clip_high raw Hsat). reflexivity.
  - unfold out_of_bounds in Hsat. apply orb_false_iff in Hsat.
    destruct Hsat as [Hlo Hhi].
    split; [intros H; rewrite H in Hlo; discriminate Hlo|].
    split; [intros H; rewrite H in Hhi; discriminate Hhi|].
    split; [reflexivity|].
    split; [intros H; apply np_clip_inside; assumption|].
    intros H. split; [exact H|]. rewrite np_clip_nan. exact H.
Qed.

(** X23 (anti-reset windup in the loops): in a completed tick of Part A or
    of the data collection, the integral error that the loop carries to the
    next tick and the heater command are decided by the raw output of the
    controller for the set point and the temperature of the tick: when the
    raw output is below 0 or above 100, the integral error is the one the
    tick started with, with the increment [(Kc/tauI)*error*dt] added and
    subtracted again, and the heater command is 0 or 100; otherwise the
    integral error has grown by the increment and the heater command is the
    raw output. *)
Theorem saturated_tick_undoes_integral_update
    (sensor : list event -> float) (predict : list (float * float) -> float)
    (s_x : Scaler.feature * Scaler.feature) (s_y : Scaler.feature)
    (window i : nat) (t : float) (s s' : nb) :
  let pv := sensor (plant_view (log s)) in
  let dt := t - prev_time s in
  (partA_tick sensor predict s_x s_y window i t s = (Ok tt, s') ->
   exists sp pvl q,
     Tsp s !! i = Some sp /\ Qpid s' !! i = Some q
     /\ heater_writes (log s') = q :: heater_writes (log s)
     /\ tick_integral s s' dt sp pv pvl q)
  /\ (collect_tick sensor i t s = (Ok tt, s') ->
      exists sp pvl q,
        Tsp1 s !! i = Some sp /\ Q1 s' !! i = Some q
        /\ heater_writes (log s') = q :: heater_writes (log s)
        /\ tick_integral s s' dt sp pv pvl q).
Proof.
  cbv zeta. split.
  - intros Hrun.
    pose proof (partA_tick_integral sensor predict s_x s_y window i t s) as H.
    unfold wp in H. rewrite Hrun in H. cbn [fst snd] in H.
    exact (H eq_refl).
  - intros Hrun.
    pose proof (collect_tick_integral sensor i t s) as H.
    unfold wp in H. rewrite Hrun in H. cbn [fst snd] in H.
    exact (H eq_refl).
Qed.

Lemma saturated_tick_undoes_integral_update_witness :
  let sensor := fun _ : list event => 21 in
  let s0 := mk_nb (replicate 3 0) (replicate 3 0) [] [] (replicate 3 0)
                  [21; 50; 50] [] 0 0 0 [] in
  let s1 := (collect_tick sensor 0 0 s0).2 in
  let s2 := (collect_tick sensor 1 1 s1).2 in
  exists sp pvl q,
    Tsp1 s1 !! 1%nat = Some sp /\ Q1 s2 !! 1%nat = Some q
    /\ heater_writes (log s2) = q :: heater_writes (log s1)
    /\ tick_integral s1 s2 (1 - prev_time s1) sp
         (sensor (plant_view (log s1))) pvl q.
Proof.
  intros sensor s0 s1 s2.
  apply (saturated_tick_undoes_integral_update sensor (fun _ => 0)
           (Scaler.mk_feature 1 0, Scaler.mk_feature 1 0)
           (Scaler.mk_feature 1 0) 1 1 1 s1 s2).
  vm_compute. reflexivity.
Defined.

End Doubles.
